(** * dbsample: sampling engine, dependency resolver and staging manager

    A shallow embedding of the parts of [dbsample] that its specification
    makes claims about:

    - [src/dbsample/schema.py]: the [Table] and [ForeignKey] descriptors;
    - [src/dbsample/dependencies.py]: [DependencyResolver];
    - [src/pg_sample/sampling.py]: [SamplingEngine] and [parse_limit_rules];
    - [src/dbsample/staging.py]: [StagingManager.create_schema];
    - [src/dbsample/cli.py]: the staging downgrade in [main].

    Python dictionaries are association lists in insertion order (the
    iteration order of a [dict]); Python sets are duplicate-free lists whose
    iteration order is a parameter of the development (class [PySetOrder]),
    since CPython leaves it unspecified. *)

From Stdlib Require Import ZArith Lia Ascii String.
From Stdlib Require Import PrimFloat FloatOps SpecFloat Uint63.
From stdpp Require Import base option list strings sorting pretty relations.

Set Default Proof Using "Type".
Local Open Scope string_scope.
Local Open Scope list_scope.
Local Open Scope Z_scope.

(** ** Python containers *)

(** A [dict] with string keys: association list, first binding of a key is
    the live one, new keys go to the end. *)
Definition dict (V : Type) : Type := list (string * V).

Fixpoint dict_get {V} (k : string) (d : dict V) : option V :=
  match d with
  | [] => None
  | (k', v) :: d' => if decide (k = k') then Some v else dict_get k d'
  end.

Definition dict_mem {V} (k : string) (d : dict V) : bool :=
  bool_decide (is_Some (dict_get k d)).

(** [d[k] = v] *)
Fixpoint dict_set {V} (k : string) (v : V) (d : dict V) : dict V :=
  match d with
  | [] => [(k, v)]
  | (k', v') :: d' =>
      if decide (k = k') then (k, v) :: d' else (k', v') :: dict_set k v d'
  end.

Definition dict_keys {V} (d : dict V) : list string := d.*1.
Definition dict_values {V} (d : dict V) : list V := d.*2.

(** A Python [set]: the elements, without duplicates.  [set_add] is
    [s.add(x)], [set_diff] is [a - b]. *)
Definition set_add {A} `{EqDecision A} (x : A) (s : list A) : list A :=
  if decide (x ∈ s) then s else s ++ [x].

Definition set_diff {A} `{EqDecision A} (a b : list A) : list A :=
  list_difference a b.

Definition set_of_list {A} `{EqDecision A} (l : list A) : list A :=
  foldl (fun s x => set_add x s) [] l.

(** The order in which a [for] loop, [list(s)] or [extend(s)] walks a set. *)
Class PySetOrder := {
  set_iter : forall {A : Type}, list A -> list A;
  set_iter_perm : forall (A : Type) (l : list A), set_iter l ≡ₚ l
}.

(** Two possible orders: the order of insertion, and its reverse. *)
Definition insertion_order : PySetOrder :=
  {| set_iter := fun _ l => l;
     set_iter_perm := fun _ l => reflexivity l |}.

Definition reverse_order : PySetOrder :=
  {| set_iter := fun _ l => reverse l;
     set_iter_perm := fun _ l => reverse_Permutation l |}.

(** ** schema.py: table metadata *)

Record ForeignKey := {
  fk_name : string;
  fk_columns : list string;
  referenced_schema : string;
  referenced_table : string;
  referenced_columns : list string
}.

(** A column is a dict with the keys ["name"], ["type"] and ["not_null"]. *)
Record Column := {
  col_name : string;
  col_type : string;
  col_not_null : bool
}.

(** An index is a dict with the keys ["name"], ["definition"],
    ["table_schema"] and ["table_name"]. *)
Record Index := {
  idx_name : string;
  idx_definition : string;
  idx_table_schema : string;
  idx_table_name : string
}.

Record Table := {
  schema : string;
  name : string;
  columns : list Column;
  primary_key : option (list string);
  foreign_keys : list ForeignKey;
  indexes : list Index
}.

Definition qualified_name (t : Table) : string :=
  schema t +:+ "." +:+ name t.

Definition has_primary_key (t : Table) : bool :=
  match primary_key t with
  | Some (_ :: _) => true
  | _ => false
  end.

(** [{t.qualified_name: t for t in tables}] *)
Definition tables_dict (tables : list Table) : dict Table :=
  foldl (fun d t => dict_set (qualified_name t) t d) [] tables.

(** [f"{fk.referenced_schema}.{fk.referenced_table}"] *)
Definition fk_ref_table (fk : ForeignKey) : string :=
  referenced_schema fk +:+ "." +:+ referenced_table fk.

(** ** dependencies.py: DependencyResolver *)

Module Dependencies.

(** [defaultdict(set)]: a missing key reads as the empty set. *)
Definition dd_get (k : string) (g : dict (list string)) : list string :=
  default [] (dict_get k g).

Definition dd_add (k x : string) (g : dict (list string)) : dict (list string) :=
  dict_set k (set_add x (dd_get k g)) g.

Record DependencyResolver := {
  tables : dict Table;
  _dependency_graph : dict (list string);
  _reverse_graph : dict (list string)
}.

Definition graphs : Type := dict (list string) * dict (list string).

(** Body of the inner loop of [_build_graph]. *)
Definition build_fk (tbls : dict Table) (table_name : string)
    (g : graphs) (fk : ForeignKey) : graphs :=
  let ref_table := fk_ref_table fk in
  if dict_mem ref_table tbls
  then (dd_add table_name ref_table g.1, dd_add ref_table table_name g.2)
  else g.

Definition build_table (tbls : dict Table) (g : graphs) (t : Table) : graphs :=
  foldl (build_fk tbls (qualified_name t)) g (foreign_keys t).

Definition _build_graph (tbls : dict Table) : graphs :=
  foldl (build_table tbls) ([], []) (dict_values tbls).

(** [DependencyResolver.__init__] *)
Definition new (tbls : list Table) : DependencyResolver :=
  let d := tables_dict tbls in
  let g := _build_graph d in
  {| tables := d; _dependency_graph := g.1; _reverse_graph := g.2 |}.

Section WithOrder.
Context `{PySetOrder}.

(** The [for dependent in self._reverse_graph[table_name]] loop of
    [get_insertion_order].  [None] is the [KeyError] of
    [in_degree[dependent]]. *)
Fixpoint kahn_visit (dependents : list string) (in_degree : dict Z)
    (queue : list string) : option (dict Z * list string) :=
  match dependents with
  | [] => Some (in_degree, queue)
  | dependent :: rest =>
      match dict_get dependent in_degree with
      | None => None
      | Some n =>
          kahn_visit rest (dict_set dependent (n - 1) in_degree)
            (if decide (n - 1 = 0) then queue ++ [dependent] else queue)
      end
  end.

(** The [while queue] loop; [fuel] bounds the number of iterations and
    [None] also stands for running out of it. *)
Fixpoint kahn_loop (fuel : nat) (rev : dict (list string)) (in_degree : dict Z)
    (queue result : list string) : option (list string) :=
  match queue with
  | [] => Some result
  | table_name :: queue' =>
      match fuel with
      | O => None
      | S fuel' =>
          match kahn_visit (set_iter (dd_get table_name rev)) in_degree queue' with
          | None => None
          | Some (in_degree', queue'') =>
              kahn_loop fuel' rev in_degree' queue'' (result ++ [table_name])
          end
      end
  end.

(** [in_degree] as the first lines of [get_insertion_order] build it. *)
Definition initial_in_degree (r : DependencyResolver) : dict Z :=
  let in_degree :=
    (fun '(name, deps) => (name, Z.of_nat (length deps))) <$> _dependency_graph r in
  foldl (fun d table_name =>
           if dict_mem table_name d then d else dict_set table_name 0 d)
        in_degree (dict_keys (tables r)).

Definition initial_queue (in_degree : dict Z) : list string :=
  (filter (fun p => p.2 = 0) in_degree).*1.

(** [result] when the [while] loop is left. *)
Definition kahn_result (r : DependencyResolver) : option (list string) :=
  let in_degree := initial_in_degree r in
  kahn_loop (length (tables r)) (_reverse_graph r) in_degree
            (initial_queue in_degree) [].

(** [remaining = set(self.tables.keys()) - set(result)] *)
Definition remaining (r : DependencyResolver) (result : list string) : list string :=
  set_diff (dict_keys (tables r)) result.

Definition get_insertion_order (r : DependencyResolver) : option (list string) :=
  result ← kahn_result r;
  let remaining := remaining r result in
  Some (if decide (remaining = []) then result else result ++ set_iter remaining).

Definition get_constraint_creation_order (r : DependencyResolver)
    : option (list string) :=
  reverse <$> get_insertion_order r.

(** [len(insertion_order) < len(self.tables)] *)
Definition has_circular_dependencies (r : DependencyResolver) : option bool :=
  insertion_order ← get_insertion_order r;
  Some (bool_decide (length insertion_order < length (tables r))%nat).

(** [path.index(start)] for a [start] that is in [path]. *)
Fixpoint index_of (start : string) (path : list string) : nat :=
  match path with
  | [] => 0
  | x :: path' => if decide (start = x) then 0 else S (index_of start path')
  end.

(** The inner function [find_cycle] of [get_circular_groups]: the cycle it
    returns, and the set [visited] it shares with its caller.  [fuel] bounds
    the depth of the recursion and [None] stands for running out of it. *)
Fixpoint find_cycle (fuel : nat) (graph : dict (list string)) (start : string)
    (path visited : list string) : option (list string * list string) :=
  match fuel with
  | O => None
  | S fuel' =>
      if decide (start ∈ path) then Some (drop (index_of start path) path, visited)
      else if decide (start ∈ visited) then Some ([], visited)
      else
        let path' := path ++ [start] in
        (fix neighbors (ns : list string) (visited : list string)
             : option (list string * list string) :=
           match ns with
           | [] => Some ([], visited)
           | neighbor :: ns' =>
               match find_cycle fuel' graph neighbor path' visited with
               | None => None
               | Some ([], visited') => neighbors ns' visited'
               | Some (cycle, visited') => Some (cycle, visited')
               end
           end) (set_iter (dd_get start graph)) (set_add start visited)
  end.

(** [min(range(len(cycle)), key=lambda i: cycle[i])]: the first index of a
    least element; [best] is the least element so far, found at [best_i]. *)
Fixpoint min_index_from (best_i : nat) (best : string) (i : nat)
    (l : list string) : nat :=
  match l with
  | [] => best_i
  | x :: l' =>
      if String.ltb x best then min_index_from i x (S i) l'
      else min_index_from best_i best (S i) l'
  end.

Definition min_index (cycle : list string) : nat :=
  match cycle with
  | [] => 0
  | x :: l => min_index_from 0 x 1 l
  end.

(** [cycle[start_idx:] + cycle[:start_idx]] *)
Definition normalize (cycle : list string) : list string :=
  let start_idx := min_index cycle in
  drop start_idx cycle ++ take start_idx cycle.

(** The [for table_name in self.tables] loop of [get_circular_groups]. *)
Fixpoint circular_groups_loop (fuel : nat) (graph : dict (list string))
    (names visited : list string) (groups : list (list string))
    : option (list (list string)) :=
  match names with
  | [] => Some groups
  | table_name :: names' =>
      if decide (table_name ∈ visited)
      then circular_groups_loop fuel graph names' visited groups
      else
        match find_cycle fuel graph table_name [] visited with
        | None => None
        | Some ([], visited') =>
            circular_groups_loop fuel graph names' visited' groups
        | Some (cycle, visited') =>
            circular_groups_loop fuel graph names' visited'
                                 (groups ++ [normalize cycle])
        end
  end.

Definition get_circular_groups (r : DependencyResolver)
    : option (list (list string)) :=
  circular_groups_loop (S (length (tables r))) (_dependency_graph r)
                       (dict_keys (tables r)) [] [].

(** The inner [for] loop shared by [get_dependent_tables] and
    [get_dependencies]: the accumulator is the result set and the queue. *)
Definition bfs_visit (visited : list string)
    (acc : list string * list string) (dep : string) : list string * list string :=
  if decide (dep ∈ visited) then acc
  else (set_add dep acc.1, acc.2 ++ [dep]).

Fixpoint bfs_loop (fuel : nat) (graph : dict (list string))
    (visited queue found : list string) : option (list string) :=
  match queue with
  | [] => Some found
  | current :: queue' =>
      match fuel with
      | O => None
      | S fuel' =>
          if decide (current ∈ visited)
          then bfs_loop fuel' graph visited queue' found
          else
            let visited' := set_add current visited in
            let '(found', queue'') :=
              foldl (bfs_visit visited') (found, queue')
                    (set_iter (dd_get current graph)) in
            bfs_loop fuel' graph visited' queue'' found'
      end
  end.

(** Number of edges of a graph, plus one: enough iterations for the walk. *)
Definition bfs_fuel (graph : dict (list string)) : nat :=
  S (sum_list (length <$> dict_values graph)).

Definition get_dependent_tables (r : DependencyResolver) (table_name : string)
    : option (list string) :=
  bfs_loop (bfs_fuel (_reverse_graph r)) (_reverse_graph r) [] [table_name] [].

Definition get_dependencies (r : DependencyResolver) (table_name : string)
    : option (list string) :=
  bfs_loop (bfs_fuel (_dependency_graph r)) (_dependency_graph r) [] [table_name] [].

End WithOrder.

(** *** Sample schemas *)

Definition mk_fk (nm col rs rt rcol : string) : ForeignKey :=
  {| fk_name := nm; fk_columns := [col]; referenced_schema := rs;
     referenced_table := rt; referenced_columns := [rcol] |}.

Definition mk_col (nm : string) : Column :=
  {| col_name := nm; col_type := "integer"; col_not_null := false |}.

(** [a_audit -> b_user], [b_user <-> c_group]. *)
Definition t_audit : Table :=
  {| schema := "public"; name := "a_audit";
     columns := [mk_col "id"; mk_col "user_id"];
     primary_key := Some ["id"];
     foreign_keys := [mk_fk "audit_user_fk" "user_id" "public" "b_user" "id"];
     indexes := [] |}.
Definition t_user : Table :=
  {| schema := "public"; name := "b_user";
     columns := [mk_col "id"; mk_col "group_id"];
     primary_key := Some ["id"];
     foreign_keys := [mk_fk "user_group_fk" "group_id" "public" "c_group" "id"];
     indexes := [] |}.
Definition t_group : Table :=
  {| schema := "public"; name := "c_group";
     columns := [mk_col "id"; mk_col "owner_id"];
     primary_key := Some ["id"];
     foreign_keys := [mk_fk "group_owner_fk" "owner_id" "public" "b_user" "id"];
     indexes := [] |}.

Definition cyclic_schema : list Table := [t_audit; t_user; t_group].

End Dependencies.

(** ** Values, exceptions and the database connection *)

(** A value in a row tuple as psycopg hands it over; [PNone] is SQL NULL. *)
Inductive pyval :=
  | PNone
  | PInt (z : Z)
  | PStr (s : string)
  | PBool (b : bool).

#[global] Instance pyval_eq_dec : EqDecision pyval.
Proof. solve_decision. Defined.

Definition row : Type := list pyval.

(** The exceptions the modelled code can meet. *)
Inductive exn :=
  | ProgrammingError (msg : string)
  | InsufficientPrivilege (msg : string)
  | DatabaseError (msg : string)
  | IndexError
  | KeyError (key : string)
  | TypeError
  | ValueError
  | OverflowError
  | RuntimeError (msg : string) (cause : exn).

Inductive result (A : Type) :=
  | Ok (a : A)
  | Err (e : exn).
Arguments Ok {A}.
Arguments Err {A}.

Definition exn_str (e : exn) : string :=
  match e with
  | ProgrammingError m | InsufficientPrivilege m | DatabaseError m => m
  | IndexError => "tuple index out of range"
  | KeyError k => k
  | TypeError => "unsupported operand type(s)"
  | ValueError => "cannot convert float NaN to integer"
  | OverflowError => "cannot convert float infinity to integer"
  | RuntimeError m _ => m
  end.

(** *** The SQL statements the program sends *)

Inductive select_expr :=
  | ENull
  | EColumn (column : string).

Inductive order_clause :=
  | NoOrder
  | OrderByColumns (cols : list string) (desc : bool)
  | OrderByCtid (desc : bool)
  | OrderByRandom.

(** [LimitPlaceholder] is the text [LIMIT %s]; [LimitLiteral n] is the text
    [LIMIT n] with the number written into the query. *)
Inductive limit_clause :=
  | NoLimit
  | LimitPlaceholder
  | LimitLiteral (n : Z).

(** The query text [_build_query] assembles, by clause. *)
Record select_query := {
  q_exprs : list select_expr;
  q_schema : string;
  q_table : string;
  q_where : option string;
  q_order : order_clause;
  q_limit : limit_clause
}.

Inductive statement :=
  (* sampling.py *)
  | Select (q : select_query)
  | SelectCount (sch tbl : string)
  | SelectIn (cols : list string) (sch tbl : string)
             (match_cols : list string) (shape : list nat)
  | StagingMissing (staging tbl : string) (cols : list string)
                   (ref_tbl : string) (ref_cols : list string)
  | StagingInsertMissing (staging ref_sch ref_tbl : string) (ref_cols : list string)
  (* staging.py *)
  | SchemaExists
  | DropSchema (sch : string)
  | CreateSchema (sch : string)
  | CreateStagingTable (staging tbl : string) (cols : list Column)
  | InsertSelect (staging tbl : string) (q : select_query)
  | CreateIndex (idx : Index) (staging tbl : string)
  | StagingSelect (cols : list string) (staging tbl : string).

(** Number of [%s] placeholders the program writes into each statement.
    Identifiers and CONDITIONAL fragments are taken to hold no [%]. *)
Definition limit_placeholders (l : limit_clause) : nat :=
  match l with LimitPlaceholder => 1 | _ => 0 end.

Definition placeholders (s : statement) : nat :=
  match s with
  | Select q | InsertSelect _ _ q => limit_placeholders (q_limit q)
  | SelectIn _ _ _ _ shape => sum_list shape
  | StagingInsertMissing _ _ _ ref_cols => length ref_cols
  | SchemaExists => 1
  | _ => 0
  end.

(** *** Query text *)

(** The double quote around identifiers. *)
Definition dq : string := String (ascii_of_nat 34) EmptyString.

Definition quoted (s : string) : string := dq +:+ s +:+ dq.

Definition render_expr (e : select_expr) : string :=
  match e with
  | ENull => "NULL"
  | EColumn c => quoted c
  end.

Definition render_direction (desc : bool) : string :=
  if desc then "DESC" else "ASC".

Definition render_order (o : order_clause) : string :=
  match o with
  | NoOrder => ""
  | OrderByColumns cols desc =>
      " ORDER BY " +:+ String.concat ", " (quoted <$> cols) +:+ " "
      +:+ render_direction desc
  | OrderByCtid desc => " ORDER BY ctid " +:+ render_direction desc
  | OrderByRandom => " ORDER BY RANDOM()"
  end.

Definition render_limit (l : limit_clause) : string :=
  match l with
  | NoLimit => ""
  | LimitPlaceholder => " LIMIT %s"
  | LimitLiteral n => " LIMIT " +:+ pretty n
  end.

(** The [query] string of [_build_query]. *)
Definition render_select (q : select_query) : string :=
  "SELECT " +:+ String.concat ", " (render_expr <$> q_exprs q)
  +:+ " FROM " +:+ quoted (q_schema q) +:+ "." +:+ quoted (q_table q)
  +:+ match q_where q with Some cond => " WHERE " +:+ cond | None => "" end
  +:+ render_order (q_order q)
  +:+ render_limit (q_limit q).

(** The placeholders psycopg finds in a query text: [%s], [%b] and [%t];
    [%%] is a literal percent sign. *)
Fixpoint count_placeholders_chars (s : list ascii) : nat :=
  match s with
  | [] => 0
  | c :: rest =>
      if Ascii.eqb c "%"%char then
        match rest with
        | c' :: rest' =>
            if Ascii.eqb c' "s"%char || Ascii.eqb c' "b"%char || Ascii.eqb c' "t"%char
            then S (count_placeholders_chars rest')
            else count_placeholders_chars rest'
        | [] => 0
        end
      else count_placeholders_chars rest
  end.

Definition count_placeholders (s : string) : nat :=
  count_placeholders_chars (list_ascii_of_string s).

(** What a cursor holds after [execute]: the rows for [fetchall] and
    [rowcount]. *)
Record cursor := { fetched : list row; rowcount : Z }.

(** [psycopg.Connection], as far as the program uses it.  [conn_run] is the
    server's side of [cursor.execute]; [conn_rollback] and [conn_commit] are
    the methods of the same name. *)
Class Connection (conn : Type) := {
  conn_run : statement -> list pyval -> conn -> result cursor * conn;
  conn_rollback : conn -> result unit * conn;
  conn_commit : conn -> result unit * conn
}.

(** [cursor.execute(query, params)].  psycopg checks the parameters against
    the placeholders of the query before anything is sent: a sequence of
    parameters whose length differs from the number of placeholders raises
    [ProgrammingError]. *)
Definition cursor_execute `{Connection conn} (s : statement) (params : list pyval)
    (c : conn) : result cursor * conn :=
  if decide (placeholders s = length params)
  then conn_run s params c
  else (Err (ProgrammingError
               "the query has a different number of placeholders than parameters"), c).

(** ** sampling.py: data *)

(** A limit rule's [limit_type] with its [value], as [parse_limit_rules]
    pairs them: an [int] for NUMERIC, a [float] for PERCENTAGE, [None] for
    FULL and the SQL text for CONDITIONAL. *)
Inductive Limit :=
  | NUMERIC (value : Z)
  | PERCENTAGE (value : float)
  | FULL
  | CONDITIONAL (value : string).

(** [compiled_pattern] is the compiled regular expression, through its
    [match] method. *)
Record LimitRule := {
  pattern : string;
  limit : Limit;
  compiled_pattern : string -> bool
}.

Record SamplingResult := {
  table_schema : string;
  table_name : string;
  rows : list row;
  row_count : Z;
  limit_applied : option LimitRule
}.

(** The engine's constructor arguments.  [staging_manager] holds the
    manager's [schema_name]. *)
Record SamplingEngine := {
  tables : dict Table;
  resolver : Dependencies.DependencyResolver;
  limit_rules : list LimitRule;
  ordered : bool;
  ordered_desc : bool;
  random : bool;
  exclude_columns : list string;
  use_staging : bool;
  staging_manager : option string
}.

Inductive level := ERROR | WARNING | INFO | DEBUG.

(** The objects the run mutates: the connection (shared by the engine and
    the staging manager), the logger, [StagingManager._schema_created],
    [SamplingEngine.results] and [SamplingEngine.sampled_rows]. *)
Record State (conn : Type) := {
  st_conn : conn;
  st_log : list (level * string);
  _schema_created : bool;
  results : dict SamplingResult;
  sampled_rows : dict (list row)
}.
Arguments st_conn {conn}.
Arguments st_log {conn}.
Arguments _schema_created {conn}.
Arguments results {conn}.
Arguments sampled_rows {conn}.

Definition initial_state {conn} (c : conn) : State conn :=
  {| st_conn := c; st_log := []; _schema_created := false;
     results := []; sampled_rows := [] |}.

(** *** State and exceptions *)

Definition M (conn A : Type) : Type := State conn -> result A * State conn.

Definition ret {conn A} (a : A) : M conn A := fun st => (Ok a, st).
Definition raise {conn A} (e : exn) : M conn A := fun st => (Err e, st).
Definition bind {conn A B} (m : M conn A) (k : A -> M conn B) : M conn B :=
  fun st => match m st with
            | (Ok a, st') => k a st'
            | (Err e, st') => (Err e, st')
            end.
Definition try_except {conn A} (m : M conn A) (handler : exn -> M conn A) : M conn A :=
  fun st => match m st with
            | (Ok a, st') => (Ok a, st')
            | (Err e, st') => handler e st'
            end.
Definition lift {conn A} (r : result A) : M conn A := fun st => (r, st).

Notation "x <- m ;; k" := (bind m (fun x => k))
  (at level 100, m at next level, right associativity, only parsing).
Notation "m ;;; k" := (bind m (fun _ => k))
  (at level 100, right associativity, only parsing).

(** [for x in l: body] *)
Fixpoint for_each {conn A} (l : list A) (body : A -> M conn unit) : M conn unit :=
  match l with
  | [] => ret tt
  | x :: l' => body x ;;; for_each l' body
  end.

Definition get_state {conn} : M conn (State conn) := fun st => (Ok st, st).

Definition set_results {conn} (r : dict SamplingResult) : M conn unit :=
  fun st => (Ok tt, {| st_conn := st_conn st; st_log := st_log st;
                       _schema_created := _schema_created st;
                       results := r; sampled_rows := sampled_rows st |}).

Definition set_sampled_rows {conn} (s : dict (list row)) : M conn unit :=
  fun st => (Ok tt, {| st_conn := st_conn st; st_log := st_log st;
                       _schema_created := _schema_created st;
                       results := results st; sampled_rows := s |}).

Definition set_schema_created {conn} (b : bool) : M conn unit :=
  fun st => (Ok tt, {| st_conn := st_conn st; st_log := st_log st;
                       _schema_created := b;
                       results := results st; sampled_rows := sampled_rows st |}).

(** [self.logger.<level>(msg)] *)
Definition log {conn} (l : level) (msg : string) : M conn unit :=
  fun st => (Ok tt, {| st_conn := st_conn st; st_log := st_log st ++ [(l, msg)];
                       _schema_created := _schema_created st;
                       results := results st; sampled_rows := sampled_rows st |}).

Definition on_conn {conn A} (f : conn -> result A * conn) : M conn A :=
  fun st => let '(r, c) := f (st_conn st) in
            (r, {| st_conn := c; st_log := st_log st;
                   _schema_created := _schema_created st;
                   results := results st; sampled_rows := sampled_rows st |}).

(** [with self.conn.cursor() as cur: cur.execute(s, params)] *)
Definition execute `{Connection conn} (s : statement) (params : list pyval)
    : M conn cursor :=
  on_conn (cursor_execute s params).

(** [s.split(".", 1)[1]] when [s] has a dot, [s] otherwise. *)
Fixpoint after_first_dot_chars (s : list ascii) : option (list ascii) :=
  match s with
  | [] => None
  | c :: s' => if Ascii.eqb c "."%char then Some s' else after_first_dot_chars s'
  end.

Definition after_first_dot (s : string) : string :=
  match after_first_dot_chars (list_ascii_of_string s) with
  | Some b => string_of_list_ascii b
  | None => s
  end.

(** [cur.fetchone()[0]] *)
Definition fetchone_0 (c : cursor) : result pyval :=
  match fetched c with
  | [] => Err TypeError
  | r :: _ => match r with [] => Err IndexError | v :: _ => Ok v end
  end.

(** Truth value of a Python object. *)
Definition truthy (v : pyval) : bool :=
  match v with
  | PNone => false
  | PInt z => negb (z =? 0)
  | PStr s => negb (String.eqb s "")
  | PBool b => b
  end.

(** ** staging.py: StagingManager *)

Module Staging.
Section Manager.
Context `{Connection conn}.

(** [self.schema_name] *)
Variable schema_name : string.

(** [try: self.conn.rollback() except Exception: pass] *)
Definition safe_rollback : M conn unit :=
  try_except (on_conn conn_rollback) (fun _ => ret tt).

Definition commit : M conn unit := on_conn conn_commit.

(** The statements of [create_schema] from [CREATE SCHEMA] on. *)
Definition create_schema_create : M conn bool :=
  log INFO ("Creating staging schema: " +:+ schema_name);;;
  execute (CreateSchema schema_name) [];;;
  commit;;;
  set_schema_created true;;;
  ret true.

(** The [try] block of [create_schema]. *)
Definition create_schema_body (force : bool) : M conn bool :=
  safe_rollback;;;
  cur <- execute SchemaExists [PStr schema_name];;
  exists_ <- lift (fetchone_0 cur);;
  if truthy exists_ then
    if force then
      log INFO ("Dropping existing staging schema: " +:+ schema_name);;;
      execute (DropSchema schema_name) [];;;
      commit;;;
      create_schema_create
    else
      log WARNING ("Staging schema " +:+ schema_name +:+ " already exists. "
                   +:+ "Use --force to drop it, or --keep to preserve it.");;;
      ret false
  else create_schema_create.

Definition create_schema (force : bool) : M conn bool :=
  try_except (create_schema_body force)
    (fun e =>
       match e with
       | InsufficientPrivilege _ =>
           safe_rollback;;;
           log ERROR ("Insufficient privileges to create staging schema: "
                      +:+ exn_str e +:+ ". Falling back to direct query mode.");;;
           ret false
       | _ =>
           safe_rollback;;;
           log ERROR ("Failed to create staging schema: " +:+ exn_str e);;;
           ret false
       end).

Definition drop_schema : M conn unit :=
  st <- get_state;;
  if negb (_schema_created st) then ret tt
  else
    try_except
      (safe_rollback;;;
       log INFO ("Dropping staging schema: " +:+ schema_name);;;
       execute (DropSchema schema_name) [];;;
       commit;;;
       set_schema_created false)
      (fun e =>
         log WARNING ("Failed to drop staging schema: " +:+ exn_str e);;;
         safe_rollback).

(** [try: ... except Exception: rollback; raise] *)
Definition guarded {A} (m : M conn A) : M conn A :=
  try_except (safe_rollback;;; m) (fun e => safe_rollback;;; raise e).

Definition create_staging_table (source_schema source_table : string)
    (cols : list Column) : M conn string :=
  guarded (execute (CreateStagingTable schema_name source_table cols) [];;; commit);;;
  ret (schema_name +:+ "." +:+ source_table).

Definition copy_data_to_staging (source_schema source_table staging_table : string)
    (query : select_query) (params : list pyval) : M conn Z :=
  guarded
    (let table_name := after_first_dot staging_table in
     cur <- execute (InsertSelect schema_name table_name query) params;;
     let row_count := rowcount cur in
     commit;;;
     ret row_count).

Definition create_staging_indexes (table_name : string) (idxs : list Index)
    : M conn unit :=
  for_each idxs (fun idx =>
    try_except
      (safe_rollback;;;
       execute (CreateIndex idx schema_name table_name) [];;;
       commit)
      (fun e =>
         safe_rollback;;;
         log DEBUG ("Could not create index " +:+ idx_name idx +:+ ": " +:+ exn_str e))).

Definition get_staging_data (table_name : string) (cols : list string)
    : M conn (list row) :=
  guarded (cur <- execute (StagingSelect cols schema_name table_name) [];;
           ret (fetched cur)).

End Manager.
End Staging.

(** ** sampling.py: SamplingEngine *)

Module Sampling.

(** *** String helpers *)

(** [fnmatch.fnmatch] of the standard library, which [_match_pattern]
    calls.  What [fnmatch.translate] makes of a shell pattern: one item for
    each character the name must supply, and [Star] for a run of any length.
    A bracket expression is kept as its chunks: the characters of every
    chunk belong to the class, and so does the range from the last character
    of a chunk to the first character of the next; in the chunks every
    character stands for itself. *)
Inductive glob_item :=
  | Star
  | AnyChar
  | Literal (c : ascii)
  | CharClass (negated : bool) (chunks : list (list ascii)).

Fixpoint until_bracket (s : list ascii) : option (list ascii) :=
  match s with
  | [] => None
  | c :: rest =>
      if Ascii.eqb c "]"%char then Some []
      else match until_bracket rest with
           | Some body => Some (c :: body)
           | None => None
           end
  end.

(** [stuff = pat[i:j]] for the text [s] behind an opening bracket: an [!]
    and then a closing bracket right at the start belong to the expression;
    [None] when nothing closes it ([j >= n]). *)
Definition bracket_stuff (s : list ascii) : option (list ascii) :=
  let bang := match s with
              | c :: _ => if Ascii.eqb c "!"%char then [c] else []
              | [] => []
              end in
  let s1 := drop (length bang) s in
  let close := match s1 with
               | c :: _ => if Ascii.eqb c "]"%char then [c] else []
               | [] => []
               end in
  match until_bracket (drop (length close) s1) with
  | Some body => Some (bang ++ close ++ body)
  | None => None
  end.

(** The loop over [pat.find('-', k, j)]: [chunk] is [pat[i:...]] so far, and
    the next [skip] characters lie before [k].  A hyphen that ends [stuff]
    goes to the last chunk. *)
Fixpoint range_chunks (skip : nat) (chunk s : list ascii) : list (list ascii) :=
  match s with
  | [] => [chunk]
  | c :: rest =>
      match skip with
      | S n => range_chunks n (chunk ++ [c]) rest
      | O =>
          if Ascii.eqb c "-"%char then
            match rest with
            | [] => [chunk ++ [c]]
            | _ => chunk :: range_chunks 2 [] rest
            end
          else range_chunks 0 (chunk ++ [c]) rest
      end
  end.

(** "Remove empty ranges": one step of the loop that runs from the last
    chunk to the first. *)
Definition drop_empty_range (chunk : list ascii) (later : list (list ascii))
    : list (list ascii) :=
  match last chunk, later with
  | Some lo, (hi :: next) :: others =>
      if decide (nat_of_ascii hi < nat_of_ascii lo)%nat
      then (removelast chunk ++ next) :: others
      else chunk :: later
  | _, _ => chunk :: later
  end.

Definition bracket_class (stuff : list ascii) : glob_item :=
  let chunks :=
    if bool_decide ("-"%char ∈ stuff) then
      let k := match stuff with
               | c :: _ => if Ascii.eqb c "!"%char then 2%nat else 1%nat
               | [] => 1%nat
               end in
      foldr drop_empty_range [] (range_chunks k [] stuff)
    else [stuff] in
  match chunks with
  | (c :: first) :: others =>
      if Ascii.eqb c "!"%char then CharClass true (first :: others)
      else CharClass false chunks
  | _ => CharClass false chunks
  end.

(** [skip] characters of the pattern belong to a bracket expression that
    has been read ([i = j+1]). *)
Fixpoint translate (skip : nat) (pat : list ascii) : list glob_item :=
  match pat with
  | [] => []
  | c :: rest =>
      match skip with
      | S n => translate n rest
      | O =>
          if Ascii.eqb c "*"%char then Star :: translate 0 rest
          else if Ascii.eqb c "?"%char then AnyChar :: translate 0 rest
          else if Ascii.eqb c "["%char then
            match bracket_stuff rest with
            | Some stuff => bracket_class stuff :: translate (S (length stuff)) rest
            | None => Literal c :: translate 0 rest
            end
          else Literal c :: translate 0 rest
      end
  end.

Fixpoint in_chunks (c : ascii) (chunks : list (list ascii)) : bool :=
  match chunks with
  | [] => false
  | chunk :: later =>
      bool_decide (c ∈ chunk)
      || match last chunk, later with
         | Some lo, (hi :: _) :: _ =>
             bool_decide (nat_of_ascii lo <= nat_of_ascii c <= nat_of_ascii hi)%nat
         | _, _ => false
         end
      || in_chunks c later
  end.

Definition accepts (item : glob_item) (c : ascii) : bool :=
  match item with
  | Star | AnyChar => true
  | Literal c' => Ascii.eqb c' c
  | CharClass negated chunks => xorb negated (in_chunks c chunks)
  end.

(** The names the regular expression built from the items matches: the
    whole name must match ([\Z]), and [Star] and [AnyChar] take any
    character, a line feed too ([(?s:...)]). *)
Fixpoint glob_match (items : list glob_item) (s : list ascii) : bool :=
  match items with
  | [] => match s with [] => true | _ => false end
  | Star :: items' =>
      (fix star (s : list ascii) : bool :=
         glob_match items' s || match s with [] => false | _ :: s' => star s' end) s
  | item :: items' =>
      match s with
      | [] => false
      | c :: s' => accepts item c && glob_match items' s'
      end
  end.

(** [fnmatch.fnmatch(name, pat)] where [os.path.normcase] changes nothing
    (POSIX), with the bracket expressions as CPython 3.11 reads them: a
    range whose end lies before its start is empty.  Characters are compared
    by their code. *)
Definition fnmatch (name pat : string) : bool :=
  glob_match (translate 0 (list_ascii_of_string pat)) (list_ascii_of_string name).

Definition _match_pattern (text pat : string) : bool := fnmatch text pat.

(** [s.rsplit(".", 1)] when [s] has a dot. *)
Fixpoint rsplit_dot_chars (s : list ascii) : option (list ascii * list ascii) :=
  match s with
  | [] => None
  | c :: s' =>
      match rsplit_dot_chars s' with
      | Some (a, b) => Some (c :: a, b)
      | None => if Ascii.eqb c "."%char then Some ([], s') else None
      end
  end.

Definition rsplit_dot (s : string) : option (string * string) :=
  match rsplit_dot_chars (list_ascii_of_string s) with
  | Some (a, b) => Some (string_of_list_ascii a, string_of_list_ascii b)
  | None => None
  end.

(** *** Limit patterns *)

Definition lower (c : ascii) : ascii :=
  let n := nat_of_ascii c in
  if decide (65 <= n <= 90)%nat then ascii_of_nat (n + 32) else c.

(** A pattern of [parse_limit_rules]: [^...$] with every [*] turned into
    [.*], matched without regard to case. *)
Fixpoint star_match (p s : list ascii) : bool :=
  match p with
  | [] => match s with [] => true | _ => false end
  | c :: p' =>
      if Ascii.eqb c "*"%char then
        (fix star (s : list ascii) : bool :=
           star_match p' s || match s with [] => false | _ :: s' => star s' end) s
      else
        match s with
        | [] => false
        | c' :: s' => Ascii.eqb (lower c) (lower c') && star_match p' s'
        end
  end.

Definition compile (pat : string) : string -> bool :=
  fun text => star_match (list_ascii_of_string pat) (list_ascii_of_string text).

(** The rule [parse_limit_rules] builds for [pattern=value]. *)
Definition mk_rule (pat : string) (l : Limit) : LimitRule :=
  {| pattern := pat; limit := l; compiled_pattern := compile pat |}.

(** *** [parse_limit_rules] *)

(** The builtins [int] and [float] on a string; [None] stands for the
    [ValueError] they raise on a text that is no number. *)
Class PyNumbers := {
  int_of_str : string -> option Z;
  float_of_str : string -> option float
}.

(** [str.isspace] and [str.upper] on ASCII characters. *)
Definition is_space (c : ascii) : bool :=
  let n := nat_of_ascii c in
  bool_decide (9 <= n <= 13)%nat || bool_decide (28 <= n <= 32)%nat.

Definition upper (c : ascii) : ascii :=
  let n := nat_of_ascii c in
  if decide (97 <= n <= 122)%nat then ascii_of_nat (n - 32) else c.

Fixpoint lstrip_chars (s : list ascii) : list ascii :=
  match s with
  | [] => []
  | c :: rest => if is_space c then lstrip_chars rest else s
  end.

(** [s.strip()] *)
Definition strip_chars (s : list ascii) : list ascii :=
  reverse (lstrip_chars (reverse (lstrip_chars s))).

(** [s.split(sep)] for a separator of one character. *)
Fixpoint split_chars (sep : ascii) (s : list ascii) : list (list ascii) :=
  match s with
  | [] => [[]]
  | c :: rest =>
      if Ascii.eqb c sep then [] :: split_chars sep rest
      else match split_chars sep rest with
           | [] => [[c]]
           | w :: ws => (c :: w) :: ws
           end
  end.

(** [s.split(sep, 1)] when [sep] is in [s]; [None] when it is not. *)
Fixpoint split_once_chars (sep : ascii) (s : list ascii)
    : option (list ascii * list ascii) :=
  match s with
  | [] => None
  | c :: rest =>
      if Ascii.eqb c sep then Some ([], rest)
      else match split_once_chars sep rest with
           | Some (a, b) => Some (c :: a, b)
           | None => None
           end
  end.

Section Parse.
Context `{PyNumbers}.

(** The limit type and value for the text right of the equals sign; [None]
    when [float] raises. *)
Definition limit_of_value (value : list ascii) : option Limit :=
  let text := string_of_list_ascii value in
  if decide (value = ["*"%char]) then Some FULL
  else if decide (last value = Some "%"%char) then
    match float_of_str (string_of_list_ascii (removelast value)) with
    | Some p => Some (PERCENTAGE p)
    | None => None
    end
  else if bool_decide (list_ascii_of_string "WHERE" `prefix_of` (upper <$> value))
          || bool_decide (" "%char ∈ value)
  then Some (CONDITIONAL text)
  else match int_of_str text with
       | Some n => Some (NUMERIC n)
       | None => Some (CONDITIONAL text)
       end.

(** One turn of the inner loop: [Some None] when the text has no equals
    sign and is skipped. *)
Definition parse_rule (rule_str : list ascii) : option (option LimitRule) :=
  match split_once_chars "="%char (strip_chars rule_str) with
  | None => Some None
  | Some (pat, value) =>
      match limit_of_value (strip_chars value) with
      | Some l => Some (Some (mk_rule (string_of_list_ascii (strip_chars pat)) l))
      | None => None
      end
  end.

Fixpoint parse_rules (rule_strs : list (list ascii)) (rules : list LimitRule)
    : option (list LimitRule) :=
  match rule_strs with
  | [] => Some rules
  | rule_str :: rest =>
      match parse_rule rule_str with
      | Some (Some rule) => parse_rules rest (rules ++ [rule])
      | Some None => parse_rules rest rules
      | None => None
      end
  end.

Fixpoint parse_specs (limit_specs : list string) (rules : list LimitRule)
    : option (list LimitRule) :=
  match limit_specs with
  | [] => Some rules
  | spec :: rest =>
      match parse_rules (split_chars ","%char (list_ascii_of_string spec)) rules with
      | Some rules' => parse_specs rest rules'
      | None => None
      end
  end.

(** [None] when the function raises [ValueError]. *)
Definition parse_limit_rules (limit_specs : list string) : option (list LimitRule) :=
  parse_specs limit_specs [].

End Parse.

(** *** Rows *)

(** [[i for i, col in enumerate(columns) if col["name"] in names]] *)
Definition column_indices (cols : list Column) (names : list string) : list nat :=
  (filter (fun p => col_name p.2 ∈ names) (imap pair cols)).*1.

(** [tuple(row[i] for i in indices)] *)
Fixpoint project (indices : list nat) (r : row) : result row :=
  match indices with
  | [] => Ok []
  | i :: rest =>
      match r !! i with
      | None => Err IndexError
      | Some v =>
          match project rest r with
          | Ok vs => Ok (v :: vs)
          | Err e => Err e
          end
      end
  end.

(** [{tuple(row[i] for i in indices) for row in rows}] *)
Fixpoint project_all (indices : list nat) (rs : list row) : result (list row) :=
  match rs with
  | [] => Ok []
  | r :: rest =>
      match project indices r with
      | Err e => Err e
      | Ok v =>
          match project_all indices rest with
          | Ok vs => Ok (v :: vs)
          | Err e => Err e
          end
      end
  end.

Definition pk_indices (t : Table) : list nat :=
  column_indices (columns t) (default [] (primary_key t)).

(** *** The limit of a PERCENTAGE rule *)

(** [float(n)] for a Python [int]. *)
Definition float_of_int (n : Z) : result float :=
  let f := SF2Prim (binary_normalize prec emax n 0 false) in
  if PrimFloat.is_infinity f then Err OverflowError else Ok f.

(** [int(x)] for a Python [float]: truncation towards zero. *)
Definition int_of_float (x : float) : result Z :=
  match Prim2SF x with
  | S754_zero _ => Ok 0
  | S754_finite s m e =>
      let a := if decide (0 <= e) then Z.pos m * 2 ^ e else Z.pos m / 2 ^ (- e) in
      Ok (if s then - a else a)
  | S754_infinity _ => Err OverflowError
  | S754_nan => Err ValueError
  end.

(** [max(1, int(total * limit_rule.value / 100))] *)
Definition percentage_limit (total : Z) (value : float) : result Z :=
  match float_of_int total with
  | Err e => Err e
  | Ok t =>
      match int_of_float (PrimFloat.div (PrimFloat.mul t value) 100%float) with
      | Err e => Err e
      | Ok n => Ok (Z.max 1 n)
      end
  end.

(** [floor(total * p / 100)] in exact arithmetic, for a finite [p]. *)
Definition exact_percent_floor (total : Z) (p : float) : option Z :=
  match Prim2SF p with
  | S754_zero _ => Some 0
  | S754_finite s m e =>
      let num := total * (if s then Z.neg m else Z.pos m) in
      Some (if decide (0 <= e) then (num * 2 ^ e) / 100 else num / (100 * 2 ^ (- e)))
  | _ => None
  end.

(** The integer operand of [total * value]. *)
Definition as_int (v : pyval) : result Z :=
  match v with
  | PInt z => Ok z
  | PBool b => Ok (if b then 1 else 0)
  | _ => Err TypeError
  end.

Section Engine.
Context `{PySetOrder} `{Connection conn}.
Variable self : SamplingEngine.

Definition _find_limit_rule (table : Table) : option LimitRule :=
  let qualified := qualified_name table in
  let unqualified := name table in
  let schema_pattern := schema table +:+ ".*" in
  head (filter (fun rule => compiled_pattern rule qualified
                            || compiled_pattern rule unqualified
                            || compiled_pattern rule schema_pattern)
               (limit_rules self)).

(** One turn of the loop over [self.exclude_columns]. *)
Definition exclude_step (table : Table) (excluded : list string)
    (pat : string) : list string :=
  let qualified := schema table +:+ "." +:+ name table in
  let add_matching col_pattern :=
    foldl (fun ex col => if _match_pattern (col_name col) col_pattern
                         then set_add (col_name col) ex else ex)
          excluded (columns table) in
  match rsplit_dot pat with
  | Some (table_pattern, col_pattern) =>
      if _match_pattern qualified table_pattern
         || _match_pattern (name table) table_pattern
      then
        if _match_pattern "*" col_pattern || bool_decide (col_pattern = "*")
        then foldl (fun ex col => set_add (col_name col) ex) excluded (columns table)
        else add_matching col_pattern
      else excluded
  | None => add_matching pat
  end.

Definition _get_excluded_columns (table : Table) : list string :=
  foldl (exclude_step table) [] (exclude_columns self).

Definition _is_column_excluded (table : Table) (column_name : string) : bool :=
  bool_decide (column_name ∈ _get_excluded_columns table).

(** The SELECT list of [_build_query]. *)
Definition column_exprs (table : Table) : list select_expr :=
  let excluded_cols := _get_excluded_columns table in
  let exprs :=
    (fun col => if decide (col_name col ∈ excluded_cols)
                then ENull else EColumn (col_name col)) <$> columns table in
  match exprs with
  | [] => [ENull]
  | _ => exprs
  end.

Definition where_clause (limit_rule : option LimitRule) : option string :=
  match limit_rule with
  | Some {| limit := CONDITIONAL v |} => Some v
  | _ => None
  end.

Definition order_by (table : Table) : order_clause :=
  if ordered self then
    if has_primary_key table
    then OrderByColumns (default [] (primary_key table)) (ordered_desc self)
    else OrderByCtid (ordered_desc self)
  else if random self then OrderByRandom
  else NoOrder.

Definition mk_query (table : Table) (limit_rule : option LimitRule)
    (l : limit_clause) : select_query :=
  {| q_exprs := column_exprs table;
     q_schema := schema table; q_table := name table;
     q_where := where_clause limit_rule;
     q_order := order_by table;
     q_limit := l |}.

Definition _build_query (table : Table) (limit_rule : option LimitRule)
    : M conn (select_query * list pyval) :=
  match limit_rule with
  | Some rule =>
      match limit rule with
      | NUMERIC n => ret (mk_query table limit_rule LimitPlaceholder, [PInt n])
      | PERCENTAGE p =>
          cur <- execute (SelectCount (schema table) (name table)) [];;
          total <- lift (fetchone_0 cur);;
          total <- lift (as_int total);;
          lim <- lift (percentage_limit total p);;
          ret (mk_query table limit_rule LimitPlaceholder, [PInt lim])
      | FULL | CONDITIONAL _ => ret (mk_query table limit_rule NoLimit, [])
      end
  | None => ret (mk_query table limit_rule (LimitLiteral 100), [PInt 100])
  end.

Definition _sample_table (table : Table) : M conn SamplingResult :=
  let limit_rule := _find_limit_rule table in
  qp <- _build_query table limit_rule;;
  cur <- execute (Select qp.1) qp.2;;
  let rows := fetched cur in
  ret {| table_schema := schema table; table_name := name table;
         rows := rows; row_count := Z.of_nat (length rows);
         limit_applied := limit_rule |}.

(** [self.results[name] = r] and [self.sampled_rows[name] = s] *)
Definition store_result (table_name : string) (r : SamplingResult) : M conn unit :=
  st <- get_state;;
  set_results (dict_set table_name r (results st)).

Definition store_sampled (table_name : string) (s : list row) : M conn unit :=
  st <- get_state;;
  set_sampled_rows (dict_set table_name s (sampled_rows st)).

(** [self.results[name]] *)
Definition result_of (table_name : string) : M conn SamplingResult :=
  st <- get_state;;
  match dict_get table_name (results st) with
  | Some r => ret r
  | None => raise (KeyError table_name)
  end.

(** [self.resolver.get_insertion_order()] *)
Definition insertion_order_of_resolver : M conn (list string) :=
  match Dependencies.get_insertion_order (resolver self) with
  | Some l => ret l
  | None => raise (KeyError "in_degree")
  end.

Definition sample_failed (table_name : string) (e : exn) : exn :=
  RuntimeError ("Failed to sample table '" +:+ table_name +:+ "': " +:+ exn_str e
                +:+ ". Stopping to maintain referential integrity.") e.

Definition resolve_failed (e : exn) : exn :=
  RuntimeError ("Failed to resolve foreign key dependencies: " +:+ exn_str e
                +:+ ". Stopping to maintain referential integrity.") e.

(** *** Foreign-key resolution in direct mode *)

(** The [for row in rows] loop of [_fetch_missing_rows] that builds
    [new_rows]. *)
Fixpoint new_rows_of (table : Table) (existing_pks : list row) (rs : list row)
    : result (list row) :=
  match rs with
  | [] => Ok []
  | r :: rest =>
      if has_primary_key table then
        match project (pk_indices table) r with
        | Err e => Err e
        | Ok pk_values =>
            if decide (pk_values ∈ existing_pks)
            then new_rows_of table existing_pks rest
            else match new_rows_of table (set_add pk_values existing_pks) rest with
                 | Ok l => Ok (r :: l)
                 | Err e => Err e
                 end
        end
      else match new_rows_of table existing_pks rest with
           | Ok l => Ok (r :: l)
           | Err e => Err e
           end
  end.

Definition _fetch_missing_rows (table : Table) (cols : list string)
    (values : list row) : M conn unit :=
  match values with
  | [] => ret tt
  | _ =>
      let value_tuples := set_iter values in
      let shape := length <$> value_tuples in
      let params := concat value_tuples in
      cur <- execute (SelectIn (col_name <$> columns table) (schema table)
                               (name table) cols shape) params;;
      let fetched_rows := fetched cur in
      let qn := qualified_name table in
      st <- get_state;;
      (if dict_mem qn (results st) then ret tt
       else store_result qn {| table_schema := schema table;
                               table_name := name table;
                               rows := []; row_count := 0;
                               limit_applied := None |});;;
      current <- result_of qn;;
      existing_pks <- (if has_primary_key table
                       then pks <- lift (project_all (pk_indices table) (rows current));;
                            ret (set_of_list pks)
                       else ret []);;
      new_rows <- lift (new_rows_of table existing_pks fetched_rows);;
      store_result qn {| table_schema := table_schema current;
                         table_name := table_name current;
                         rows := rows current ++ new_rows;
                         row_count := row_count current + Z.of_nat (length new_rows);
                         limit_applied := limit_applied current |};;;
      if has_primary_key table then
        st <- get_state;;
        new_pks <- lift (project_all (pk_indices table) new_rows);;
        store_sampled qn (foldl (fun s pk => set_add pk s)
                                (default [] (dict_get qn (sampled_rows st))) new_pks)
      else ret tt
  end.

(** [None not in ref_values] *)
Definition no_null (v : row) : Prop := PNone ∉ v.

(** Body of the [for fk in table.foreign_keys] loop of
    [_resolve_foreign_keys]. *)
Definition resolve_fk (table_name : string) (table : Table) (fk : ForeignKey)
    : M conn unit :=
  let ref_table := fk_ref_table fk in
  match dict_get ref_table (tables self) with
  | None => ret tt
  | Some ref_table_obj =>
      if negb (has_primary_key ref_table_obj) then ret tt
      else
        let ref_col_indices := column_indices (columns table) (fk_columns fk) in
        current <- result_of table_name;;
        projected <- lift (project_all ref_col_indices (rows current));;
        let referenced_values := set_of_list (filter no_null projected) in
        st <- get_state;;
        let missing :=
          match dict_get ref_table (sampled_rows st) with
          | Some present => set_diff referenced_values present
          | None => referenced_values
          end in
        match missing with
        | [] => ret tt
        | _ => _fetch_missing_rows ref_table_obj (referenced_columns fk) missing
        end
  end.

Definition resolve_table (entry : string * Table) : M conn unit :=
  st <- get_state;;
  if dict_mem entry.1 (results st)
  then for_each (foreign_keys entry.2) (resolve_fk entry.1 entry.2)
  else ret tt.

Definition _resolve_foreign_keys : M conn unit :=
  for_each (tables self) resolve_table.

(** *** Direct mode *)

(** Body of the loop over [insertion_order] in [_sample_direct]. *)
Definition sample_one (table_name : string) : M conn unit :=
  match dict_get table_name (tables self) with
  | None => ret tt
  | Some table =>
      try_except
        (sampled <- _sample_table table;;
         store_result table_name sampled;;;
         if has_primary_key table then
           pks <- lift (project_all (pk_indices table) (rows sampled));;
           store_sampled table_name (set_of_list pks)
         else ret tt)
        (fun e => raise (sample_failed table_name e))
  end.

Definition _sample_direct : M conn (dict SamplingResult) :=
  insertion_order <- insertion_order_of_resolver;;
  for_each insertion_order sample_one;;;
  try_except _resolve_foreign_keys (fun e => raise (resolve_failed e));;;
  st <- get_state;;
  ret (results st).

(** *** Staging mode *)

Definition staging_fk (schema_name : string) (table : Table) (fk : ForeignKey)
    : M conn unit :=
  let ref_table := fk_ref_table fk in
  match dict_get ref_table (tables self) with
  | None => ret tt
  | Some ref_table_obj =>
      if negb (has_primary_key ref_table_obj) then ret tt
      else
        cur <- execute (StagingMissing schema_name (name table) (fk_columns fk)
                                       (referenced_table fk) (referenced_columns fk)) [];;
        let missing_refs := fetched cur in
        match missing_refs with
        | [] => ret tt
        | _ =>
            for_each missing_refs (fun ref_values =>
              execute (StagingInsertMissing schema_name (referenced_schema fk)
                         (referenced_table fk) (referenced_columns fk)) ref_values;;;
              ret tt);;;
            Staging.commit
        end
  end.

Definition _resolve_foreign_keys_staging (schema_name : string) : M conn unit :=
  for_each (tables self) (fun entry =>
    st <- get_state;;
    if dict_mem entry.1 (results st)
    then for_each (foreign_keys entry.2) (staging_fk schema_name entry.2)
    else ret tt).

(** First pass of [_sample_with_staging], one table. *)
Definition stage_one (schema_name table_name : string) : M conn unit :=
  match dict_get table_name (tables self) with
  | None => ret tt
  | Some table =>
      try_except
        (staging_table <- Staging.create_staging_table schema_name
                            (schema table) (name table) (columns table);;
         let limit_rule := _find_limit_rule table in
         qp <- _build_query table limit_rule;;
         Staging.copy_data_to_staging schema_name (schema table) (name table)
                                      staging_table qp.1 qp.2;;;
         match indexes table with
         | [] => ret tt
         | idxs => Staging.create_staging_indexes schema_name (name table) idxs
         end)
        (fun e => raise (RuntimeError
           ("Failed to sample table '" +:+ table_name +:+ "': " +:+ exn_str e
            +:+ ". Stopping to maintain referential integrity. "
            +:+ "Partial exports would break foreign key constraints.") e))
  end.

(** Third pass of [_sample_with_staging], one table. *)
Definition read_one (schema_name table_name : string) : M conn unit :=
  match dict_get table_name (tables self) with
  | None => ret tt
  | Some table =>
      try_except
        (let cols := col_name <$> columns table in
         staged <- Staging.get_staging_data schema_name (name table) cols;;
         let limit_rule := _find_limit_rule table in
         store_result table_name
           {| table_schema := schema table; table_name := name table;
              rows := staged; row_count := Z.of_nat (length staged);
              limit_applied := limit_rule |})
        (fun e => raise (RuntimeError
           ("Failed to read staging data for table '" +:+ table_name +:+ "': "
            +:+ exn_str e +:+ ". Stopping to maintain referential integrity.") e))
  end.

Definition _sample_with_staging (schema_name : string) : M conn (dict SamplingResult) :=
  insertion_order <- insertion_order_of_resolver;;
  for_each insertion_order (stage_one schema_name);;;
  try_except (_resolve_foreign_keys_staging schema_name)
             (fun e => raise (resolve_failed e));;;
  for_each insertion_order (read_one schema_name);;;
  st <- get_state;;
  ret (results st).

Definition sample_all : M conn (dict SamplingResult) :=
  match use_staging self, staging_manager self with
  | true, Some schema_name => _sample_with_staging schema_name
  | _, _ => _sample_direct
  end.

(** *** verify_referential_integrity *)

Record Violation := {
  constraint : string;
  v_table : string;
  v_columns : list string;
  v_referenced_table : string;
  v_referenced_columns : list string;
  violation_count : Z;
  sample_violations : list row
}.

(** Body of the [for fk in table.foreign_keys] loop: the violation this
    foreign key adds to the list, if any. *)
Definition verify_fk (res : dict SamplingResult) (table_name : string)
    (table : Table) (sampled : SamplingResult) (fk : ForeignKey)
    : result (option Violation) :=
  let ref_table := fk_ref_table fk in
  match dict_get ref_table (tables self) with
  | None => Ok None
  | Some ref_table_obj =>
      if negb (has_primary_key ref_table_obj) then Ok None
      else
        match dict_get ref_table res with
        | None => Ok None
        | Some ref_sampled =>
            match rows ref_sampled with
            | [] => Ok None
            | _ =>
                let fk_col_indices := column_indices (columns table) (fk_columns fk) in
                let ref_pk_indices :=
                  column_indices (columns ref_table_obj) (referenced_columns fk) in
                match fk_col_indices, ref_pk_indices with
                | [], _ | _, [] => Ok None
                | _, _ =>
                    match project_all fk_col_indices (rows sampled) with
                    | Err e => Err e
                    | Ok projected =>
                        match set_of_list (filter no_null projected) with
                        | [] => Ok None
                        | fk_values =>
                            match project_all ref_pk_indices (rows ref_sampled) with
                            | Err e => Err e
                            | Ok ref_projected =>
                                let ref_pk_values := set_of_list ref_projected in
                                match set_diff fk_values ref_pk_values with
                                | [] => Ok None
                                | missing_values =>
                                    Ok (Some
                                      {| constraint := fk_name fk;
                                         v_table := table_name;
                                         v_columns := fk_columns fk;
                                         v_referenced_table := ref_table;
                                         v_referenced_columns := referenced_columns fk;
                                         violation_count :=
                                           Z.of_nat (length missing_values);
                                         sample_violations :=
                                           take 10 (set_iter missing_values) |})
                                end
                            end
                        end
                    end
                end
            end
        end
  end.

Fixpoint verify_fks (res : dict SamplingResult) (table_name : string)
    (table : Table) (sampled : SamplingResult) (fks : list ForeignKey)
    (violations : list Violation) : result (list Violation) :=
  match fks with
  | [] => Ok violations
  | fk :: rest =>
      match verify_fk res table_name table sampled fk with
      | Err e => Err e
      | Ok None => verify_fks res table_name table sampled rest violations
      | Ok (Some v) => verify_fks res table_name table sampled rest (violations ++ [v])
      end
  end.

Fixpoint verify_tables (res : dict SamplingResult) (entries : list (string * Table))
    (violations : list Violation) : result (list Violation) :=
  match entries with
  | [] => Ok violations
  | (table_name, table) :: rest =>
      match dict_get table_name res with
      | None => verify_tables res rest violations
      | Some sampled =>
          match rows sampled with
          | [] => verify_tables res rest violations
          | _ =>
              match verify_fks res table_name table sampled
                               (foreign_keys table) violations with
              | Err e => Err e
              | Ok violations' => verify_tables res rest violations'
              end
          end
      end
  end.

Definition verify_referential_integrity : M conn (bool * list Violation) :=
  st <- get_state;;
  violations <- lift (verify_tables (results st) (tables self) []);;
  let is_valid := bool_decide (length violations = 0%nat) in
  ret (is_valid, violations).

End Engine.
End Sampling.

(** ** A reference database server

    The meaning of the statements of direct mode on a source database that
    the user may read but not change: the statements of staging mode are
    refused for lack of privilege. *)

Module Db.

Record Relation := {
  rel_columns : list string;
  rel_rows : list row
}.

(** What the server is free to choose: the order in which it returns the
    rows of a scan under a given ORDER BY clause (none, a key, [ctid] or
    [RANDOM()]), and the truth of a CONDITIONAL fragment on a row. *)
Class Server := {
  scan : order_clause -> list row -> list row;
  scan_perm : forall o l, scan o l ≡ₚ l;
  where_holds : string -> list string -> row -> bool
}.

(** The relations by qualified name, and the statements run so far. *)
Record Database := {
  relations : dict Relation;
  trace : list (statement * list pyval)
}.

Fixpoint column_index (cols : list string) (c : string) : option nat :=
  match cols with
  | [] => None
  | c' :: rest => if decide (c = c') then Some 0%nat else S <$> column_index rest c
  end.

Definition eval_expr (cols : list string) (r : row) (e : select_expr) : result pyval :=
  match e with
  | ENull => Ok PNone
  | EColumn c =>
      match column_index cols c with
      | None => Err (ProgrammingError ("column " +:+ c +:+ " does not exist"))
      | Some i =>
          match r !! i with
          | Some v => Ok v
          | None => Err (DatabaseError "row shorter than its relation")
          end
      end
  end.

Fixpoint eval_exprs (cols : list string) (r : row) (es : list select_expr)
    : result row :=
  match es with
  | [] => Ok []
  | e :: rest =>
      match eval_expr cols r e with
      | Err x => Err x
      | Ok v => match eval_exprs cols r rest with
                | Ok vs => Ok (v :: vs)
                | Err x => Err x
                end
      end
  end.

Fixpoint eval_rows (cols : list string) (es : list select_expr) (rs : list row)
    : result (list row) :=
  match rs with
  | [] => Ok []
  | r :: rest =>
      match eval_exprs cols r es with
      | Err x => Err x
      | Ok v => match eval_rows cols es rest with
                | Ok vs => Ok (v :: vs)
                | Err x => Err x
                end
      end
  end.

Definition relation_of (db : Database) (sch tbl : string) : result Relation :=
  match dict_get (sch +:+ "." +:+ tbl) (relations db) with
  | Some rel => Ok rel
  | None => Err (ProgrammingError ("relation " +:+ sch +:+ "." +:+ tbl
                                   +:+ " does not exist"))
  end.

(** The row count a LIMIT clause allows; [None] is no limit. *)
Definition limit_of (l : limit_clause) (params : list pyval) : result (option nat) :=
  match l with
  | NoLimit => Ok None
  | LimitLiteral n =>
      if decide (0 <= n) then Ok (Some (Z.to_nat n))
      else Err (DatabaseError "LIMIT must not be negative")
  | LimitPlaceholder =>
      match params with
      | [PInt n] =>
          if decide (0 <= n) then Ok (Some (Z.to_nat n))
          else Err (DatabaseError "LIMIT must not be negative")
      | _ => Err (DatabaseError "invalid input for LIMIT")
      end
  end.

Definition apply_limit (n : option nat) (rs : list row) : list row :=
  match n with
  | Some k => take k rs
  | None => rs
  end.

Definition rows_cursor (rs : list row) : cursor :=
  {| fetched := rs; rowcount := Z.of_nat (length rs) |}.

(** The parameters of an IN list, tuple by tuple. *)
Fixpoint regroup (shape : list nat) (params : list pyval) : list row :=
  match shape with
  | [] => []
  | n :: rest => take n params :: regroup rest (drop n params)
  end.

(** [(match_cols) IN (tuples)] on a row; a NULL never compares equal. *)
Definition in_list (cols match_cols : list string) (tuples : list row) (r : row) : bool :=
  match eval_exprs cols r (EColumn <$> match_cols) with
  | Ok v => bool_decide ((PNone ∉ v) /\ (v ∈ tuples))
  | Err _ => false
  end.

Section WithServer.
Context `{Server}.

Definition run_select (db : Database) (q : select_query) (params : list pyval)
    : result cursor :=
  match relation_of db (q_schema q) (q_table q) with
  | Err e => Err e
  | Ok rel =>
      match limit_of (q_limit q) params with
      | Err e => Err e
      | Ok n =>
          let matching :=
            match q_where q with
            | Some cond => filter (fun r => where_holds cond (rel_columns rel) r = true)
                                  (rel_rows rel)
            | None => rel_rows rel
            end in
          let chosen := apply_limit n (scan (q_order q) matching) in
          match eval_rows (rel_columns rel) (q_exprs q) chosen with
          | Err e => Err e
          | Ok rs => Ok (rows_cursor rs)
          end
      end
  end.

Definition run_count (db : Database) (sch tbl : string) : result cursor :=
  match relation_of db sch tbl with
  | Err e => Err e
  | Ok rel => Ok (rows_cursor [[PInt (Z.of_nat (length (rel_rows rel)))]])
  end.

Definition run_select_in (db : Database) (cols : list string) (sch tbl : string)
    (match_cols : list string) (shape : list nat) (params : list pyval)
    : result cursor :=
  match relation_of db sch tbl with
  | Err e => Err e
  | Ok rel =>
      if decide (Forall (fun n => n = length match_cols /\ n <> 0%nat) shape) then
        let tuples := regroup shape params in
        let matching :=
          filter (fun r => in_list (rel_columns rel) match_cols tuples r = true)
                 (rel_rows rel) in
        match eval_rows (rel_columns rel) (EColumn <$> cols) (scan NoOrder matching) with
        | Err e => Err e
        | Ok rs => Ok (rows_cursor rs)
        end
      else Err (ProgrammingError "syntax error in row comparison")
  end.

Definition run (db : Database) (s : statement) (params : list pyval) : result cursor :=
  match s with
  | Select q => run_select db q params
  | SelectCount sch tbl => run_count db sch tbl
  | SelectIn cols sch tbl match_cols shape =>
      run_select_in db cols sch tbl match_cols shape params
  | SchemaExists => Ok (rows_cursor [[PBool false]])
  | CreateSchema sch =>
      Err (InsufficientPrivilege "permission denied for database")
  | _ => Err (InsufficientPrivilege "permission denied")
  end.

#[global] Instance connection : Connection Database := {
  conn_run s params db :=
    (run db s params,
     {| relations := relations db; trace := trace db ++ [(s, params)] |});
  conn_rollback db := (Ok tt, db);
  conn_commit db := (Ok tt, db)
}.

End WithServer.

(** A server that returns rows in stored order and takes every CONDITIONAL
    fragment to hold. *)
Definition stored_order : Server :=
  {| scan := fun _ l => l;
     scan_perm := fun _ l => reflexivity l;
     where_holds := fun _ _ _ => true |}.

Definition open (rels : dict Relation) : Database :=
  {| relations := rels; trace := [] |}.

End Db.

(** *** A connection that refuses nothing *)

Module Permissive.

(** The user may do everything, the staging schema does not exist yet and
    every table is empty.  The connection is the list of the statements it
    was sent. *)
#[global] Instance connection : Connection (list (statement * list pyval)) := {
  conn_run s params sent :=
    (Ok (Db.rows_cursor match s with
                        | SchemaExists => [[PBool false]]
                        | _ => []
                        end),
     sent ++ [(s, params)]);
  conn_rollback sent := (Ok tt, sent);
  conn_commit sent := (Ok tt, sent)
}.

End Permissive.

(** ** cli.py: staging downgrade and sampling *)

Module Cli.
Section Main.
Context `{PySetOrder} `{Connection conn}.

(** The values [main] holds when it reaches the staging decision. *)
Record Options := {
  o_tables : list Table;
  o_limit_rules : list LimitRule;
  o_ordered : bool;
  o_ordered_desc : bool;
  o_random : bool;
  o_exclude_columns : list string;
  o_use_staging : bool;
  o_sample_schema : string;
  o_force : bool;
  o_keep : bool
}.

(** [SamplingEngine(conn=conn, tables=tables, resolver=resolver, ...)] *)
Definition engine (o : Options) (use_staging : bool) (staging_manager : option string)
    : SamplingEngine :=
  {| tables := tables_dict (o_tables o);
     resolver := Dependencies.new (o_tables o);
     limit_rules := o_limit_rules o;
     ordered := o_ordered o;
     ordered_desc := o_ordered_desc o;
     random := o_random o;
     exclude_columns := o_exclude_columns o;
     use_staging := use_staging;
     staging_manager := staging_manager |}.

(** "Try to create staging schema if needed": the mode the run goes on in. *)
Definition choose_mode (o : Options) : M conn (bool * option string) :=
  if o_use_staging o then
    log INFO "Attempting to use staging schema for improved performance...";;;
    created <- Staging.create_schema (o_sample_schema o) (o_force o);;
    if created then
      log INFO "Staging schema created successfully";;;
      ret (true, Some (o_sample_schema o))
    else
      log WARNING "Could not create staging schema - falling back to direct query mode";;;
      ret (false, None)
  else ret (false, None).

(** [try: ... finally: ...] *)
Definition try_finally {A} (m : M conn A) (cleanup : M conn unit) : M conn A :=
  fun st => match m st with
            | (r, st') =>
                match cleanup st' with
                | (Ok _, st'') => (r, st'')
                | (Err e, st'') => (Err e, st'')
                end
            end.

(** From the staging decision to the end of sampling. *)
Definition sample (o : Options) : M conn (dict SamplingResult) :=
  mode <- choose_mode o;;
  log INFO (if mode.1 then "Sampling data using staging schema..."
            else "Sampling data directly from source tables...");;;
  let sampling_engine := engine o mode.1 mode.2 in
  try_finally
    (sampled <- Sampling.sample_all sampling_engine;;
     log INFO "Sampled rows";;;
     ret sampled)
    (match mode.1, mode.2 with
     | true, Some schema_name =>
         if negb (o_keep o) then Staging.drop_schema schema_name
         else log INFO ("Staging schema '" +:+ schema_name +:+ "' preserved (--keep flag)")
     | _, _ => ret tt
     end).

End Main.
End Cli.

(** ** Sample databases *)

Module Examples.

Definition table_of (nm : string) (cols pk : list string) (fks : list ForeignKey)
    : Table :=
  {| schema := "public"; name := nm; columns := Dependencies.mk_col <$> cols;
     primary_key := Some pk; foreign_keys := fks; indexes := [] |}.

Definition options (tbls : list Table) (rules : list LimitRule)
    (excluded : list string) (staging : bool) : Cli.Options :=
  {| Cli.o_tables := tbls; Cli.o_limit_rules := rules;
     Cli.o_ordered := false; Cli.o_ordered_desc := true; Cli.o_random := false;
     Cli.o_exclude_columns := excluded;
     Cli.o_use_staging := staging; Cli.o_sample_schema := "_dbsample";
     Cli.o_force := false; Cli.o_keep := false |}.

(** The engine [main] builds for a run in direct mode. *)
Definition direct_engine (tbls : list Table) (rules : list LimitRule)
    (excluded : list string) : SamplingEngine :=
  Cli.engine (options tbls rules excluded false) false None.

(** A chain [c_items -> b_orders -> a_users]. *)
Definition users : Table := table_of "a_users" ["id"] ["id"] [].
Definition orders_user_fk : ForeignKey :=
  Dependencies.mk_fk "orders_user_fk" "user_id" "public" "a_users" "id".
Definition orders : Table :=
  table_of "b_orders" ["id"; "user_id"] ["id"] [orders_user_fk].
Definition items_order_fk : ForeignKey :=
  Dependencies.mk_fk "items_order_fk" "order_id" "public" "b_orders" "id".
Definition items : Table :=
  table_of "c_items" ["id"; "order_id"] ["id"] [items_order_fk].

Definition shop : list Table := [users; orders; items].

Definition shop_db : Db.Database :=
  Db.open
    [("public.a_users",
      {| Db.rel_columns := ["id"]; Db.rel_rows := [[PInt 1]; [PInt 2]] |});
     ("public.b_orders",
      {| Db.rel_columns := ["id"; "user_id"];
         Db.rel_rows := [[PInt 1; PInt 1]; [PInt 2; PInt 2]] |});
     ("public.c_items",
      {| Db.rel_columns := ["id"; "order_id"];
         Db.rel_rows := [[PInt 1; PInt 2]] |})].

(** Every table limited to one row. *)
Definition one_row_each : list LimitRule := [Sampling.mk_rule "*" (NUMERIC 1)].

(** Only [c_items] is sampled at first: the other tables are limited to
    zero rows. *)
Definition items_only : list LimitRule :=
  [Sampling.mk_rule "c_items" (NUMERIC 1); Sampling.mk_rule "*" (NUMERIC 0)].

(** A table [t] of [n] rows [(1), ..., (n)]. *)
Definition t_table : Table := table_of "t" ["id"] ["id"] [].
Definition t_db (n : nat) : Db.Database :=
  Db.open [("public.t",
            {| Db.rel_columns := ["id"];
               Db.rel_rows := (fun i => [PInt (Z.of_nat i)]) <$> seq 1 n |})].

(** The rule [t=10%] and the rule [t=0.7%]; the latter's value is the
    [float] nearest to 0.7. *)
Definition ten_percent : LimitRule := Sampling.mk_rule "t" (PERCENTAGE 10%float).
Definition point_seven : float := 0x1.6666666666666p-1%float.
Definition point_seven_percent : LimitRule :=
  Sampling.mk_rule "t" (PERCENTAGE point_seven).

(** [int] and [float] for the examples.  They agree with Python on a text
    of one to fifteen decimal digits and answer [None] on every other text,
    so the examples put only such texts before them. *)
Fixpoint digits_value (s : list ascii) (acc : Z) : option Z :=
  match s with
  | [] => Some acc
  | c :: rest =>
      let n := nat_of_ascii c in
      if decide (48 <= n <= 57)%nat
      then digits_value rest (10 * acc + Z.of_nat (n - 48))
      else None
  end.

Definition decimal (s : string) : option Z :=
  let cs := list_ascii_of_string s in
  if decide (1 <= length cs <= 15)%nat then digits_value cs 0 else None.

Definition decimal_numbers : Sampling.PyNumbers :=
  {| Sampling.int_of_str := decimal;
     Sampling.float_of_str s :=
       match decimal s with
       | Some n => match Sampling.float_of_int n with Ok f => Some f | Err _ => None end
       | None => None
       end |}.

(** A table with a column to hide. *)
Definition secrets : Table := table_of "t" ["id"; "secret"] ["id"] [].
Definition secrets_db : Db.Database :=
  Db.open [("public.t",
            {| Db.rel_columns := ["id"; "secret"];
               Db.rel_rows := [[PInt 1; PStr "a"]; [PInt 2; PStr "b"];
                               [PInt 3; PStr "c"]] |})].

(** Accounts with a column to hide, and logins that refer to them. *)
Definition accounts : Table := table_of "a_accounts" ["id"; "secret"] ["id"] [].
Definition logins_account_fk : ForeignKey :=
  Dependencies.mk_fk "logins_account_fk" "account_id" "public" "a_accounts" "id".
Definition logins : Table :=
  table_of "b_logins" ["id"; "account_id"] ["id"] [logins_account_fk].

Definition accounts_db : Db.Database :=
  Db.open
    [("public.a_accounts",
      {| Db.rel_columns := ["id"; "secret"];
         Db.rel_rows := [[PInt 1; PStr "pw1"]; [PInt 2; PStr "pw2"]] |});
     ("public.b_logins",
      {| Db.rel_columns := ["id"; "account_id"];
         Db.rel_rows := [[PInt 1; PInt 1]; [PInt 2; PInt 2]] |})].

(** One account, every login. *)
Definition one_account : list LimitRule :=
  [Sampling.mk_rule "a_accounts" (NUMERIC 1); Sampling.mk_rule "*" FULL].

(** The results of a run, without the rules that produced them. *)
Definition view (d : dict SamplingResult) : list (string * list row * Z) :=
  (fun p => (p.1, rows p.2, row_count p.2)) <$> d.

Definition view_run {conn} (r : result (dict SamplingResult) * State conn)
    : result (list (string * list row * Z)) :=
  match r.1 with
  | Ok d => Ok (view d)
  | Err e => Err e
  end.

End Examples.

(* ================================================================= *)
(** * Properties *)

(** ** Containers *)

Section ContainerFacts.
Context {A : Type} `{EqDecision A}.

Lemma elem_of_set_add (x y : A) (s : list A) :
  x ∈ set_add y s <-> x = y \/ x ∈ s.
Proof.
  unfold set_add. destruct (decide (y ∈ s)) as [Hy|Hy].
  - split; [tauto | intros [-> | ?]; done].
  - rewrite elem_of_app, list_elem_of_singleton. tauto.
Qed.

Lemma NoDup_set_add (y : A) (s : list A) : NoDup s -> NoDup (set_add y s).
Proof.
  intros Hs. unfold set_add. destruct (decide (y ∈ s)) as [Hy|Hy]; [done|].
  apply NoDup_app. split_and!; [done | | apply NoDup_singleton].
  intros x Hx Hx'. apply list_elem_of_singleton in Hx'. by subst.
Qed.

End ContainerFacts.

Section SetOrderFacts.
Context `{PySetOrder}.

Lemma elem_of_set_iter {A} (x : A) (l : list A) : x ∈ set_iter l <-> x ∈ l.
Proof. by rewrite (set_iter_perm A l). Qed.

Lemma length_set_iter {A} (l : list A) : length (set_iter l) = length l.
Proof. by rewrite (set_iter_perm A l). Qed.

Lemma NoDup_set_iter {A} (l : list A) : NoDup (set_iter l) <-> NoDup l.
Proof. by rewrite (set_iter_perm A l). Qed.

End SetOrderFacts.

(** ** Dictionaries *)

Lemma foldl_invariant {A B} (P : A -> Prop) (f : A -> B -> A) (l : list B) (a : A) :
  P a -> (forall a x, x ∈ l -> P a -> P (f a x)) -> P (foldl f a l).
Proof.
  revert a. induction l as [|x l IH]; intros a Ha Hf; [done|].
  cbn. apply IH.
  - apply Hf; [left | done].
  - intros a' y Hy. apply Hf. by right.
Qed.

Section DictFacts.
Context {V : Type}.
Implicit Types (d : dict V) (k : string) (v : V).

Lemma dict_get_set k k' v d :
  dict_get k (dict_set k' v d) = if decide (k = k') then Some v else dict_get k d.
Proof.
  induction d as [|[k0 v0] d IH]; cbn.
  - by destruct (decide (k = k')).
  - destruct (decide (k' = k0)) as [->|Hne]; cbn.
    + destruct (decide (k = k0)); done.
    + destruct (decide (k = k0)) as [->|?].
      * by rewrite decide_False by done.
      * done.
Qed.

Lemma dict_get_is_Some k d : is_Some (dict_get k d) <-> k ∈ dict_keys d.
Proof.
  unfold dict_keys. induction d as [|[k0 v0] d IH]; cbn.
  - rewrite elem_of_nil. split; [intros [? ?]; done | done].
  - rewrite elem_of_cons. destruct (decide (k = k0)) as [->|?].
    + split; [auto | eauto].
    + rewrite IH. tauto.
Qed.

Lemma dict_get_None k d : dict_get k d = None <-> k ∉ dict_keys d.
Proof. rewrite <- dict_get_is_Some, eq_None_not_Some. done. Qed.

Lemma dict_mem_true k d : dict_mem k d = true <-> k ∈ dict_keys d.
Proof.
  unfold dict_mem. rewrite <- dict_get_is_Some.
  split; [apply bool_decide_eq_true_1 | apply bool_decide_eq_true_2].
Qed.

Lemma dict_get_elem_of k v d : dict_get k d = Some v -> (k, v) ∈ d.
Proof.
  induction d as [|[k0 v0] d IH]; cbn; [done|].
  destruct (decide (k = k0)) as [->|?].
  - intros [= ->]. left.
  - intros. right. auto.
Qed.

Lemma elem_of_dict_get k v d : NoDup (dict_keys d) -> (k, v) ∈ d -> dict_get k d = Some v.
Proof.
  unfold dict_keys. induction d as [|[k0 v0] d IH]; cbn; intros Hnd Hin.
  - by apply elem_of_nil in Hin.
  - apply NoDup_cons in Hnd as [Hk0 Hnd].
    apply elem_of_cons in Hin as [[= -> ->]|Hin].
    + by rewrite decide_True.
    + destruct (decide (k = k0)) as [->|?]; [|auto].
      exfalso. apply Hk0. apply list_elem_of_fmap. by exists (k0, v).
Qed.

Lemma dict_keys_set k v d :
  dict_keys (dict_set k v d)
  = if decide (k ∈ dict_keys d) then dict_keys d else dict_keys d ++ [k].
Proof.
  unfold dict_keys. induction d as [|[k0 v0] d IH]; cbn.
  - rewrite decide_False by apply not_elem_of_nil. done.
  - destruct (decide (k = k0)) as [->|Hne]; cbn.
    + rewrite decide_True by left. done.
    + rewrite IH. destruct (decide (k ∈ d.*1)) as [Hin|Hin].
      * rewrite decide_True by (by right). done.
      * rewrite decide_False; [done|].
        rewrite elem_of_cons. intros [?|?]; done.
Qed.

Lemma elem_of_dict_keys_set k k' v d :
  k ∈ dict_keys (dict_set k' v d) <-> k = k' \/ k ∈ dict_keys d.
Proof.
  rewrite dict_keys_set. destruct (decide (k' ∈ dict_keys d)).
  - split; [auto | intros [->|?]; done].
  - rewrite elem_of_app, list_elem_of_singleton. tauto.
Qed.

Lemma NoDup_dict_keys_set k v d :
  NoDup (dict_keys d) -> NoDup (dict_keys (dict_set k v d)).
Proof.
  intros Hnd. rewrite dict_keys_set. destruct (decide (k ∈ dict_keys d)); [done|].
  apply NoDup_app. split_and!; [done | | apply NoDup_singleton].
  intros x Hx Hx'. apply list_elem_of_singleton in Hx'. by subst.
Qed.

Lemma elem_of_dict_set k v k' v' d :
  (k, v) ∈ dict_set k' v' d -> (k = k' /\ v = v') \/ (k, v) ∈ d.
Proof.
  induction d as [|[k0 v0] d IH]; cbn.
  - rewrite list_elem_of_singleton. intros [= -> ->]. auto.
  - destruct (decide (k' = k0)) as [->|?]; rewrite !elem_of_cons.
    + intros [[= -> ->]|?]; auto.
    + intros [?|?]; [auto|]. destruct IH as [?|?]; auto.
Qed.

End DictFacts.

Lemma tables_dict_wf (tbls : list Table) :
  NoDup (dict_keys (tables_dict tbls)) /\
  forall k t, (k, t) ∈ tables_dict tbls -> k = qualified_name t.
Proof.
  unfold tables_dict.
  apply (foldl_invariant
           (fun d : dict Table => NoDup (dict_keys d) /\
              forall k t, (k, t) ∈ d -> k = qualified_name t)).
  - split; [apply NoDup_nil_2|]. intros k t Hin. by apply elem_of_nil in Hin.
  - intros d t _ [Hnd Hq]. split; [by apply NoDup_dict_keys_set|].
    intros k t' Hin. apply elem_of_dict_set in Hin as [[-> ->]|Hin]; auto.
Qed.

(** ** The dependency graph of [_build_graph] *)

Section GraphFacts.
Import Dependencies.

(** [a] declares a foreign key that references [b], and both are known. *)
Definition edge (d : dict Table) (a b : string) : Prop :=
  exists t fk, t ∈ dict_values d /\ qualified_name t = a /\
               fk ∈ foreign_keys t /\ fk_ref_table fk = b /\ b ∈ dict_keys d.

Lemma dd_get_dd_add k k' x g :
  dd_get k (dd_add k' x g) = if decide (k = k') then set_add x (dd_get k' g) else dd_get k g.
Proof.
  unfold dd_add, dd_get at 1. rewrite dict_get_set.
  destruct (decide (k = k')); done.
Qed.

Lemma elem_of_dd_add k k' x x' g :
  x ∈ dd_get k (dd_add k' x' g) <-> (k = k' /\ x = x') \/ x ∈ dd_get k g.
Proof.
  rewrite dd_get_dd_add. destruct (decide (k = k')) as [->|?].
  - rewrite elem_of_set_add. tauto.
  - tauto.
Qed.

Lemma NoDup_dd_add k k' x g :
  NoDup (dd_get k g) -> NoDup (dd_get k' g) -> NoDup (dd_get k (dd_add k' x g)).
Proof.
  intros ? ?. rewrite dd_get_dd_add. destruct (decide (k = k')); [|done].
  by apply NoDup_set_add.
Qed.

Lemma NoDup_dd_get_nil k : NoDup (dd_get k []).
Proof. apply NoDup_nil_2. Qed.

Variable d : dict Table.

Lemma build_table_spec name fks : forall g0,
  let g := foldl (build_fk d name) g0 fks in
  (forall a b, b ∈ dd_get a g.1 <->
     b ∈ dd_get a g0.1 \/
     (a = name /\ exists fk, fk ∈ fks /\ fk_ref_table fk = b /\ b ∈ dict_keys d)) /\
  (forall a b, a ∈ dd_get b g.2 <->
     a ∈ dd_get b g0.2 \/
     (a = name /\ exists fk, fk ∈ fks /\ fk_ref_table fk = b /\ b ∈ dict_keys d)).
Proof.
  induction fks as [|fk fks IH]; intros g0; cbn [foldl].
  { cbn. split; intros a b; (split; [auto|]);
      (intros [?|(_ & fk & Hfk & _)]; [done | by apply elem_of_nil in Hfk]). }
  destruct (IH (build_fk d name g0 fk)) as [IH1 IH2]. cbn zeta.
  split; intros a b; [rewrite IH1 | rewrite IH2]; clear IH IH1 IH2;
    unfold build_fk; destruct (dict_mem (fk_ref_table fk) d) eqn:Hmem; cbn [fst snd];
    rewrite ?elem_of_dd_add; setoid_rewrite elem_of_cons.
  - apply dict_mem_true in Hmem. split.
    + intros [[[-> ->]|?]|(-> & fk' & ? & ? & ?)]; [right | auto | right]; split; eauto 7.
    + intros [?|(-> & fk' & [->|?] & <- & ?)]; [auto | auto |].
      right. split; eauto.
  - split.
    + intros [?|(-> & fk' & ? & ? & ?)]; [auto|]. right. split; eauto 7.
    + intros [?|(-> & fk' & [->|?] & <- & Hk)]; [auto | | right; split; eauto].
      apply dict_mem_true in Hk. congruence.
  - apply dict_mem_true in Hmem. split.
    + intros [[[-> ->]|?]|(-> & fk' & ? & ? & ?)]; [right | auto | right]; split; eauto 7.
    + intros [?|(-> & fk' & [->|?] & <- & ?)]; [auto | auto |].
      right. split; eauto.
  - split.
    + intros [?|(-> & fk' & ? & ? & ?)]; [auto|]. right. split; eauto 7.
    + intros [?|(-> & fk' & [->|?] & <- & Hk)]; [auto | | right; split; eauto].
      apply dict_mem_true in Hk. congruence.
Qed.

Lemma build_tables_spec ts : forall g0,
  let g := foldl (build_table d) g0 ts in
  let E a b := exists t fk, t ∈ ts /\ qualified_name t = a /\
                 fk ∈ foreign_keys t /\ fk_ref_table fk = b /\ b ∈ dict_keys d in
  (forall a b, b ∈ dd_get a g.1 <-> b ∈ dd_get a g0.1 \/ E a b) /\
  (forall a b, a ∈ dd_get b g.2 <-> a ∈ dd_get b g0.2 \/ E a b).
Proof.
  induction ts as [|t ts IH]; intros g0; cbn [foldl].
  { cbn. split; intros a b; (split; [auto|]);
      (intros [?|(t & _ & Ht & _)]; [done | by apply elem_of_nil in Ht]). }
  destruct (IH (build_table d g0 t)) as [IH1 IH2]. cbn zeta.
  destruct (build_table_spec (qualified_name t) (foreign_keys t) g0) as [B1 B2].
  fold (build_table d g0 t) in B1, B2. cbn zeta in B1, B2.
  split; intros a b; [rewrite IH1, B1 | rewrite IH2, B2]; clear.
  - split.
    + intros [[?|(-> & fk & ? & ? & ?)]|(t' & fk & ? & ? & ? & ? & ?)]; [auto | |];
        right; [exists t, fk | exists t', fk]; split_and!; auto; by constructor.
    + intros [?|(t' & fk & [->|?]%elem_of_cons & <- & ? & ? & ?)]; [auto | |].
      * left. right. eauto.
      * right. exists t', fk. auto.
  - split.
    + intros [[?|(-> & fk & ? & ? & ?)]|(t' & fk & ? & ? & ? & ? & ?)]; [auto | |];
        right; [exists t, fk | exists t', fk]; split_and!; auto; by constructor.
    + intros [?|(t' & fk & [->|?]%elem_of_cons & <- & ? & ? & ?)]; [auto | |].
      * left. right. eauto.
      * right. exists t', fk. auto.
Qed.

Lemma dependency_graph_edge a b :
  b ∈ dd_get a (_build_graph d).1 <-> edge d a b.
Proof.
  unfold _build_graph. destruct (build_tables_spec (dict_values d) ([], [])) as [H1 _].
  cbn zeta in H1. rewrite H1. cbn. unfold edge.
  split; [intros [Hnil|?]; [by apply elem_of_nil in Hnil | done] | auto].
Qed.

Lemma reverse_graph_edge a b :
  a ∈ dd_get b (_build_graph d).2 <-> edge d a b.
Proof.
  unfold _build_graph. destruct (build_tables_spec (dict_values d) ([], [])) as [_ H2].
  cbn zeta in H2. rewrite H2. cbn. unfold edge.
  split; [intros [Hnil|?]; [by apply elem_of_nil in Hnil | done] | auto].
Qed.

(** Shape of the two graphs: adjacency sets hold no duplicates, and the
    keys of the forward graph are distinct known tables. *)
Definition graphs_ok (g : graphs) : Prop :=
  (forall k, NoDup (dd_get k g.1)) /\ (forall k, NoDup (dd_get k g.2)) /\
  NoDup (dict_keys g.1) /\
  (forall k, k ∈ dict_keys g.1 -> exists t, t ∈ dict_values d /\ qualified_name t = k).

Lemma build_graph_ok : graphs_ok (_build_graph d).
Proof.
  unfold _build_graph.
  apply (foldl_invariant graphs_ok).
  { split_and!; try (intros; apply NoDup_nil_2).
    intros k Hk. by apply elem_of_nil in Hk. }
  intros g t Ht Hg. unfold build_table.
  apply (foldl_invariant graphs_ok); [done|].
  clear g Hg. intros g fk _ (N1 & N2 & N3 & N4). unfold build_fk.
  destruct (dict_mem (fk_ref_table fk) d); [|done]. cbn [fst snd].
  split_and!.
  - intros k. by apply NoDup_dd_add.
  - intros k. by apply NoDup_dd_add.
  - by apply NoDup_dict_keys_set.
  - intros k Hk. apply elem_of_dict_keys_set in Hk as [->|Hk]; eauto.
Qed.

End GraphFacts.

(** ** The breadth-first walks of [DependencyResolver] *)

Section BfsFacts.
Import Dependencies.
Context `{PySetOrder}.

(** Edges that leave a table not yet visited: what the walk can still push. *)
Definition bfs_weight (graph : dict (list string)) (visited : list string) : nat :=
  sum_list ((fun p => if decide (p.1 ∈ visited) then 0%nat else length p.2) <$> graph).

Lemma bfs_weight_nil graph :
  bfs_weight graph [] = sum_list (length <$> dict_values graph).
Proof.
  unfold bfs_weight, dict_values. induction graph as [|[k s] g IH]; [done|].
  cbn. rewrite decide_False by apply not_elem_of_nil. by rewrite IH.
Qed.

Lemma bfs_weight_visit graph visited c :
  c ∉ visited ->
  (bfs_weight graph (set_add c visited) + length (dd_get c graph)
     <= bfs_weight graph visited)%nat.
Proof.
  intros Hc. unfold bfs_weight, dd_get.
  induction graph as [|[k s] g IH]; cbn [fmap list_fmap sum_list sum_list_with dict_get].
  { cbn. lia. }
  cbn [fst snd]. destruct (decide (c = k)) as [->|Hck].
  - rewrite (decide_True (P := k ∈ set_add k visited))
      by (apply elem_of_set_add; auto).
    rewrite (decide_False (P := k ∈ visited)) by done.
    cbn [default from_option id].
    assert (sum_list ((fun p => if decide (p.1 ∈ set_add k visited) then 0%nat
                                else length p.2) <$> g)
            <= sum_list ((fun p => if decide (p.1 ∈ visited) then 0%nat
                                   else length p.2) <$> g))%nat; [|lia].
    clear IH. induction g as [|[k' s'] g IHg]; cbn; [lia|].
    destruct (decide (k' ∈ set_add k visited)) as [Hin|Hin];
      destruct (decide (k' ∈ visited)) as [Hin'|Hin']; try lia.
    exfalso. apply Hin. apply elem_of_set_add. auto.
  - destruct (decide (k ∈ set_add c visited)) as [Hin|Hin];
      destruct (decide (k ∈ visited)) as [Hin'|Hin']; try lia.
    + apply elem_of_set_add in Hin as [->|?]; done.
    + exfalso. apply Hin. apply elem_of_set_add. auto.
Qed.

Lemma bfs_visit_fold visited t deps : forall found queue found' queue',
  foldl (bfs_visit visited) (found, queue) deps = (found', queue') ->
  t ∈ visited -> t ∉ found ->
  (t ∉ found') /\ (length queue' <= length queue + length deps)%nat.
Proof.
  induction deps as [|d ds IH]; intros found queue found' queue' Hf Ht Hnf.
  { cbn in Hf. inversion Hf; subst. split; [done | lia]. }
  cbn [foldl] in Hf. unfold bfs_visit at 2 in Hf.
  destruct (decide (d ∈ visited)) as [Hd|Hd].
  - destruct (IH _ _ _ _ Hf Ht Hnf) as [? ?]. split; [done | cbn; lia].
  - cbn [fst snd] in Hf. apply IH in Hf as [? Hl]; [| done |].
    + split; [done|]. rewrite length_app in Hl. cbn in *. lia.
    + rewrite elem_of_set_add. intros [->|?]; done.
Qed.

(** With enough fuel the walk returns, and it never reports the table it
    started from once that table is marked visited (or is next in line). *)
Lemma bfs_loop_excludes graph t : forall fuel visited queue found,
  (length queue + bfs_weight graph visited <= fuel)%nat ->
  t ∉ found ->
  t ∈ visited \/ head queue = Some t ->
  exists s, bfs_loop fuel graph visited queue found = Some s /\ t ∉ s.
Proof.
  induction fuel as [|fuel IH]; intros visited queue found Hfuel Hnf Ht.
  { destruct queue; [| cbn in Hfuel; lia]. cbn. eauto. }
  destruct queue as [|current queue']; [cbn; eauto|].
  cbn [bfs_loop]. destruct (decide (current ∈ visited)) as [Hcv|Hcv].
  - apply IH; [cbn in Hfuel; lia | done |].
    destruct Ht as [?|Ht]; [auto|]. cbn in Ht. inversion Ht; subst. auto.
  - destruct (foldl _ _ _) as [found' queue''] eqn:Hfold.
    assert (t ∈ set_add current visited) as Htv.
    { apply elem_of_set_add. destruct Ht as [?|Ht]; [auto|].
      cbn in Ht. inversion Ht; auto. }
    destruct (bfs_visit_fold _ t _ _ _ _ _ Hfold Htv Hnf) as [Hnf' Hlen].
    apply IH; [| done | auto].
    rewrite length_set_iter in Hlen.
    pose proof (bfs_weight_visit graph visited current Hcv). cbn in Hfuel. lia.
Qed.

Lemma bfs_from_excludes graph t :
  exists s, bfs_loop (bfs_fuel graph) graph [] [t] [] = Some s /\ t ∉ s.
Proof.
  apply bfs_loop_excludes.
  - unfold bfs_fuel. rewrite bfs_weight_nil. cbn. lia.
  - apply not_elem_of_nil.
  - by right.
Qed.

(** C10.  For every table [t], [get_dependencies t] and
    [get_dependent_tables t] both return, and neither result contains [t]
    itself: not when [t] has a self-referencing foreign key, and not when a
    dependency cycle passes through [t]. *)
Theorem closures_exclude_start (tbls : list Table) (t : string) :
  (exists s, get_dependencies (new tbls) t = Some s /\ t ∉ s) /\
  (exists s, get_dependent_tables (new tbls) t = Some s /\ t ∉ s).
Proof. split; apply bfs_from_excludes. Qed.

End BfsFacts.

(** ** Kahn's algorithm in [get_insertion_order] *)

Lemma list_difference_nil_r {A} `{EqDecision A} (l : list A) :
  list_difference l [] = l.
Proof.
  induction l as [|x l IH]; [done|]. cbn.
  destruct (decide_rel _ x []) as [Hx|_]; [by apply elem_of_nil in Hx|].
  by rewrite IH.
Qed.

Lemma list_difference_eq_nil {A} `{EqDecision A} (l k : list A) :
  list_difference l k = [] <-> forall x, x ∈ l -> x ∈ k.
Proof.
  split.
  - intros Hnil x Hx. destruct (decide (x ∈ k)) as [|Hk]; [done|].
    assert (x ∈ list_difference l k) as Hin by (by apply list_elem_of_difference).
    rewrite Hnil in Hin. by apply elem_of_nil in Hin.
  - intros Hsub. apply elem_of_nil_inv. intros x Hx.
    apply list_elem_of_difference in Hx as [? ?]. auto.
Qed.

Lemma length_list_difference_snoc {A} `{EqDecision A} (l k : list A) (t : A) :
  NoDup l -> t ∉ k ->
  length (list_difference l k)
  = (length (list_difference l (k ++ [t])) + (if decide (t ∈ l) then 1 else 0))%nat.
Proof.
  intros Hnd Ht. induction Hnd as [|x l Hx Hnd IH]; [done|].
  cbn [list_difference].
  destruct (decide_rel _ x k) as [Hxk|Hxk].
  - assert (x <> t) by congruence.
    destruct (decide_rel _ x (k ++ [t])) as [_|Hn].
    2: { exfalso. apply Hn. apply elem_of_app. auto. }
    rewrite IH. destruct (decide (t ∈ l)) as [Hl|Hl].
    + rewrite decide_True by (by right). done.
    + rewrite decide_False; [done|]. rewrite elem_of_cons. intros [?|?]; done.
  - destruct (decide (x = t)) as [->|Hne].
    + destruct (decide_rel _ t (k ++ [t])) as [_|Hn].
      2: { exfalso. apply Hn. apply elem_of_app. right. by left. }
      rewrite (decide_True (P := t ∈ t :: l)) by left.
      cbn [length]. rewrite IH. rewrite decide_False by done. lia.
    + destruct (decide_rel _ x (k ++ [t])) as [Hin|_].
      { apply elem_of_app in Hin as [?|Hin]; [done|].
        apply list_elem_of_singleton in Hin. done. }
      cbn [length]. rewrite IH. destruct (decide (t ∈ l)) as [Hl|Hl].
      * rewrite decide_True by (by right). done.
      * rewrite decide_False; [done|]. rewrite elem_of_cons. intros [?|?]; done.
Qed.

Section KahnFacts.
Import Dependencies.
Context `{PySetOrder}.

Lemma kahn_visit_spec (deg : string -> Z) (ds : list string) :
  NoDup ds ->
  forall ind q,
    (forall x, x ∈ ds -> dict_get x ind = Some (deg x)) ->
    exists ind',
      kahn_visit ds ind q = Some (ind', q ++ filter (fun x => deg x - 1 = 0) ds) /\
      forall x, dict_get x ind'
                = if decide (x ∈ ds) then Some (deg x - 1) else dict_get x ind.
Proof.
  induction 1 as [|d ds Hd Hnd IH]; intros ind q Hdeg.
  { exists ind. cbn. rewrite app_nil_r. split; [done|]. intros x.
    rewrite decide_False by apply not_elem_of_nil. done. }
  cbn [kahn_visit]. rewrite (Hdeg d) by left.
  destruct (IH (dict_set d (deg d - 1) ind)
               (if decide (deg d - 1 = 0) then q ++ [d] else q))
    as (ind' & Hrun & Hget).
  { intros x Hx. rewrite dict_get_set. rewrite decide_False by congruence.
    apply Hdeg. by right. }
  exists ind'. split.
  - rewrite Hrun. f_equal. f_equal. rewrite filter_cons.
    destruct (decide (deg d - 1 = 0)); [by rewrite <- app_assoc | done].
  - intros x. rewrite Hget, dict_get_set.
    destruct (decide (x ∈ ds)) as [Hx|Hx].
    + rewrite decide_True by (by right). done.
    + destruct (decide (x = d)) as [->|Hne].
      * rewrite decide_True by left. done.
      * rewrite decide_False; [done|]. rewrite elem_of_cons. intros [?|?]; done.
Qed.

Variable tbls : list Table.
Let r := new tbls.
Let K := dict_keys (tables r).
Let dep := _dependency_graph r.
Let rev := _reverse_graph r.

Lemma known_NoDup : NoDup K.
Proof. apply tables_dict_wf. Qed.

Lemma dep_edge a b : b ∈ dd_get a dep <-> edge (tables r) a b.
Proof. apply dependency_graph_edge. Qed.

Lemma rev_edge a b : a ∈ dd_get b rev <-> edge (tables r) a b.
Proof. apply reverse_graph_edge. Qed.

Lemma dep_NoDup a : NoDup (dd_get a dep).
Proof. apply (build_graph_ok (tables r)). Qed.

Lemma rev_NoDup a : NoDup (dd_get a rev).
Proof. apply (build_graph_ok (tables r)). Qed.

Lemma value_known t : t ∈ dict_values (tables r) -> qualified_name t ∈ K.
Proof.
  intros Ht. apply list_elem_of_fmap in Ht as ([k t'] & -> & Hin). cbn.
  destruct (tables_dict_wf tbls) as [_ Hq]. rewrite <- (Hq _ _ Hin).
  apply list_elem_of_fmap. by exists (k, t').
Qed.

Lemma edge_known a b : edge (tables r) a b -> a ∈ K /\ b ∈ K.
Proof.
  intros (t & fk & Ht & <- & _ & _ & Hb). split; [|done]. by apply value_known.
Qed.

Lemma dep_keys_known k : k ∈ dict_keys dep -> k ∈ K.
Proof.
  intros Hk. destruct (build_graph_ok (tables r)) as (_ & _ & _ & Hkeys).
  destruct (Hkeys k Hk) as (t & Ht & <-). by apply value_known.
Qed.

(** *** The initial in-degrees and queue *)

Lemma dict_get_fmap_length k (g : dict (list string)) :
  dict_get k ((fun '(name, deps) => (name, Z.of_nat (length deps))) <$> g)
  = (fun deps => Z.of_nat (length deps)) <$> dict_get k g.
Proof.
  induction g as [|[k0 s] g IH]; [done|]. cbn.
  destruct (decide (k = k0)); [done | apply IH].
Qed.

Lemma dict_keys_fmap_length (g : dict (list string)) :
  dict_keys ((fun '(name, deps) => (name, Z.of_nat (length deps))) <$> g)
  = dict_keys g.
Proof.
  unfold dict_keys. induction g as [|[k0 s] g IH]; [done|]. cbn. by rewrite IH.
Qed.

Lemma fill_in_degree_spec (ks : list string) : forall (ind : dict Z),
  let ind' := foldl (fun d table_name =>
                if dict_mem table_name d then d else dict_set table_name 0 d) ind ks in
  (NoDup (dict_keys ind) -> NoDup (dict_keys ind')) /\
  forall k, dict_get k ind'
            = match dict_get k ind with
              | Some v => Some v
              | None => if decide (k ∈ ks) then Some 0 else None
              end.
Proof.
  induction ks as [|k0 ks IH]; intros ind; cbn [foldl].
  { cbn. split; [done|]. intros k. rewrite decide_False by apply not_elem_of_nil.
    by destruct (dict_get k ind). }
  cbn zeta. destruct (dict_mem k0 ind) eqn:Hmem.
  - destruct (IH ind) as [IH1 IH2]. split; [done|]. intros k. rewrite IH2.
    destruct (dict_get k ind) eqn:Hk; [done|].
    destruct (decide (k ∈ ks)) as [Hin|Hin].
    + rewrite decide_True by (by right). done.
    + rewrite decide_False; [done|]. rewrite elem_of_cons. intros [->|?]; [|done].
      apply dict_mem_true, dict_get_is_Some in Hmem. rewrite Hk in Hmem.
      by destruct Hmem.
  - destruct (IH (dict_set k0 0 ind)) as [IH1 IH2]. split.
    { intros Hnd. apply IH1. by apply NoDup_dict_keys_set. }
    intros k. rewrite IH2, dict_get_set.
    destruct (decide (k = k0)) as [->|Hne].
    + assert (dict_get k0 ind = None) as ->.
      { apply dict_get_None. intros Hin. apply dict_mem_true in Hin. congruence. }
      rewrite decide_True by left. done.
    + destruct (dict_get k ind); [done|].
      destruct (decide (k ∈ ks)) as [Hin|Hin].
      * rewrite decide_True by (by right). done.
      * rewrite decide_False; [done|]. rewrite elem_of_cons. intros [?|?]; done.
Qed.

Lemma initial_in_degree_spec :
  NoDup (dict_keys (initial_in_degree r)) /\
  forall k, dict_get k (initial_in_degree r)
            = if decide (k ∈ K) then Some (Z.of_nat (length (dd_get k dep))) else None.
Proof.
  unfold initial_in_degree.
  match goal with |- context [foldl ?f ?i ?ks] =>
    destruct (fill_in_degree_spec ks i) as [F1 F2] end.
  cbn zeta in F1, F2. split.
  { apply F1. rewrite dict_keys_fmap_length.
    apply (build_graph_ok (tables r)). }
  intros k. rewrite F2, dict_get_fmap_length. fold dep K.
  unfold dd_get. destruct (dict_get k dep) as [s|] eqn:Hk; cbn.
  - rewrite decide_True; [done|]. apply dep_keys_known.
    apply dict_get_is_Some. by rewrite Hk.
  - by destruct (decide (k ∈ K)).
Qed.

Lemma initial_queue_spec (ind : dict Z) :
  NoDup (dict_keys ind) ->
  NoDup (initial_queue ind) /\
  forall x, x ∈ initial_queue ind <-> dict_get x ind = Some 0.
Proof.
  intros Hnd. unfold initial_queue. split.
  - eapply sublist_NoDup; [exact Hnd|]. unfold dict_keys.
    apply fmap_sublist, sublist_filter.
  - intros x. rewrite list_elem_of_fmap. split.
    + intros ([k v] & -> & [Hv Hin]%list_elem_of_filter). cbn in *. subst v.
      by apply elem_of_dict_get.
    + intros Hx. exists (x, 0). split; [done|]. apply list_elem_of_filter.
      split; [done|]. by apply dict_get_elem_of.
Qed.

(** *** The loop invariant *)

(** What holds of [in_degree], [queue] and [result] each time the [while]
    condition is tested. *)
Record kahn_inv (ind : dict Z) (queue result : list string) : Prop := {
  ki_nodup : NoDup (result ++ queue);
  ki_known : forall x, x ∈ result ++ queue -> x ∈ K;
  ki_degree : forall x, x ∈ K ->
    dict_get x ind = Some (Z.of_nat (length (list_difference (dd_get x dep) result)));
  ki_ready : forall x, x ∈ K ->
    (x ∈ result ++ queue <-> list_difference (dd_get x dep) result = []);
  ki_order : forall l1 x l2, result = l1 ++ x :: l2 ->
    forall b, b ∈ dd_get x dep -> b ∈ l1
}.

Lemma kahn_inv_initial :
  kahn_inv (initial_in_degree r) (initial_queue (initial_in_degree r)) [].
Proof.
  destruct initial_in_degree_spec as [Hnd Hget].
  destruct (initial_queue_spec _ Hnd) as [Hq1 Hq2].
  split; cbn [app].
  - done.
  - intros x Hx. apply Hq2 in Hx. rewrite Hget in Hx.
    by destruct (decide (x ∈ K)).
  - intros x Hx. rewrite Hget, decide_True by done.
    by rewrite list_difference_nil_r.
  - intros x Hx. rewrite Hq2, Hget, decide_True by done.
    rewrite list_difference_nil_r. destruct (dd_get x dep); cbn; [done|].
    split; [intros [=] | done].
  - intros l1 x l2 Heq. by destruct l1.
Qed.

Lemma snoc_split_inv {A} (l l1 l2 : list A) (t x : A) :
  l ++ [t] = l1 ++ x :: l2 ->
  (l2 = [] /\ l1 = l /\ x = t) \/ (exists l2', l2 = l2' ++ [t] /\ l = l1 ++ x :: l2').
Proof.
  destruct l2 as [|z l2 _] using rev_ind; intros Heq.
  - left. apply app_inj_tail in Heq as [-> ->]. done.
  - right. change (l ++ [t] = l1 ++ (x :: l2) ++ [z]) in Heq.
    rewrite app_assoc in Heq. apply app_inj_tail in Heq as [-> ->]. eauto.
Qed.

Lemma kahn_inv_step ind t q result :
  kahn_inv ind (t :: q) result ->
  exists ind' q',
    kahn_visit (set_iter (dd_get t rev)) ind q = Some (ind', q') /\
    kahn_inv ind' q' (result ++ [t]).
Proof.
  intros [Hnd Hknown Hdeg Hready Horder].
  set (ds := set_iter (dd_get t rev)).
  set (deg := fun x => Z.of_nat (length (list_difference (dd_get x dep) result))).
  assert (forall x, x ∈ ds <-> t ∈ dd_get x dep) as Hds.
  { intros x. unfold ds. rewrite elem_of_set_iter, rev_edge, dep_edge. done. }
  assert (forall x, x ∈ ds -> x ∈ K) as HdsK.
  { intros x Hx. apply Hds, dep_edge, edge_known in Hx. tauto. }
  assert (NoDup ds) as Hndds by (apply NoDup_set_iter, rev_NoDup).
  assert (t ∉ result) as Htr.
  { apply NoDup_app in Hnd as (_ & Hdisj & _). intros Hin.
    apply (Hdisj _ Hin). left. }
  assert (forall x, length (list_difference (dd_get x dep) result)
            = (length (list_difference (dd_get x dep) (result ++ [t]))
               + (if decide (x ∈ ds) then 1 else 0))%nat) as Hlen.
  { intros x. rewrite (length_list_difference_snoc _ result t (dep_NoDup x) Htr).
    destruct (decide (t ∈ dd_get x dep)) as [Hin|Hin].
    - rewrite decide_True by (by apply Hds). done.
    - rewrite decide_False; [done|]. by rewrite Hds. }
  destruct (kahn_visit_spec deg ds Hndds ind q) as (ind' & Hrun & Hget).
  { intros x Hx. apply Hdeg. auto. }
  exists ind', (q ++ filter (fun x => deg x - 1 = 0) ds). split; [exact Hrun|].
  assert ((result ++ [t]) ++ q ++ filter (fun x => deg x - 1 = 0) ds
          = (result ++ t :: q) ++ filter (fun x => deg x - 1 = 0) ds) as Happ.
  { by rewrite <- !app_assoc. }
  assert (forall x, x ∈ filter (fun x => deg x - 1 = 0) ds ->
            x ∈ ds /\ length (list_difference (dd_get x dep) result) = 1%nat) as HF.
  { intros x [Hz Hx]%list_elem_of_filter. split; [done|]. unfold deg in Hz. lia. }
  split.
  - rewrite Happ. apply NoDup_app. split_and!; [done | | by apply NoDup_filter].
    intros x Hx HxF. apply HF in HxF as [HxD Hone].
    apply (Hready x (HdsK x HxD)) in Hx. rewrite Hx in Hone. done.
  - rewrite Happ. intros x [Hx|Hx]%elem_of_app; [auto|].
    apply HF in Hx as [? _]. auto.
  - intros x Hx. rewrite Hget. destruct (decide (x ∈ ds)) as [HxD|HxD].
    + f_equal. unfold deg. specialize (Hlen x). rewrite decide_True in Hlen by done. lia.
    + rewrite (Hdeg x Hx). f_equal. specialize (Hlen x).
      rewrite decide_False in Hlen by done. lia.
  - intros x Hx. rewrite Happ, elem_of_app. specialize (Hlen x). split.
    + intros [Hold|HxF].
      * apply (Hready x Hx) in Hold. rewrite Hold in Hlen. cbn [length] in Hlen.
        apply nil_length_inv. lia.
      * apply HF in HxF as [HxD Hone]. rewrite decide_True in Hlen by done.
        apply nil_length_inv. lia.
    + intros Hnil. rewrite Hnil in Hlen. cbn [length] in Hlen.
      destruct (decide (x ∈ ds)) as [HxD|HxD].
      * right. apply list_elem_of_filter. split; [|done]. unfold deg. lia.
      * left. apply (Hready x Hx). apply nil_length_inv. lia.
  - intros l1 x l2 Heq b Hb.
    apply snoc_split_inv in Heq as [(-> & -> & ->)|(l2' & -> & ->)].
    + assert (t ∈ K) as HtK by (apply Hknown, elem_of_app; right; left).
      assert (t ∈ result ++ t :: q) as Hin by (apply elem_of_app; right; left).
      apply (Hready t HtK) in Hin.
      by apply (proj1 (list_difference_eq_nil _ _) Hin).
    + by apply (Horder l1 x l2').
Qed.

Lemma kahn_loop_spec : forall fuel ind queue result,
  kahn_inv ind queue result ->
  (length K <= fuel + length result)%nat ->
  exists res ind', kahn_loop fuel rev ind queue result = Some res /\
                   kahn_inv ind' [] res.
Proof.
  induction fuel as [|fuel IH]; intros ind queue result Hinv Hfuel.
  - assert (length (result ++ queue) <= length K)%nat as Hle.
    { apply submseteq_length, NoDup_submseteq; [apply Hinv | apply Hinv]. }
    rewrite length_app in Hle. destruct queue; [| cbn [length] in Hle; lia].
    cbn. eauto.
  - destruct queue as [|t q]; [cbn; eauto|].
    assert (length (result ++ t :: q) <= length K)%nat as Hle.
    { apply submseteq_length, NoDup_submseteq; [apply Hinv | apply Hinv]. }
    rewrite length_app in Hle. cbn [length] in Hle.
    destruct (kahn_inv_step _ _ _ _ Hinv) as (ind' & q' & Hrun & Hinv').
    cbn [kahn_loop]. rewrite Hrun. apply (IH _ _ _ Hinv').
    rewrite length_app. cbn [length]. lia.
Qed.

(** [kahn_result] returns: the tables it lists are distinct and known, each
    comes after everything it references, and a table is listed exactly when
    all the tables it references are. *)
Lemma kahn_result_spec :
  exists res, kahn_result r = Some res /\
    NoDup res /\ (forall x, x ∈ res -> x ∈ K) /\
    (forall x, x ∈ K -> (x ∈ res <-> forall b, b ∈ dd_get x dep -> b ∈ res)) /\
    (forall l1 x l2, res = l1 ++ x :: l2 -> forall b, b ∈ dd_get x dep -> b ∈ l1).
Proof.
  destruct (kahn_loop_spec (length (tables r)) _ _ _ kahn_inv_initial)
    as (res & ind' & Hrun & [Hnd Hknown _ Hready Horder]).
  { unfold K, dict_keys. rewrite length_fmap. cbn. lia. }
  rewrite app_nil_r in Hnd. exists res. split_and!; [done | done | | | done].
  - intros x Hx. apply Hknown. by rewrite app_nil_r.
  - intros x Hx. rewrite <- list_difference_eq_nil, <- (Hready x Hx).
    by rewrite app_nil_r.
Qed.

End KahnFacts.

(** ** The insertion order *)

(** [b] comes before [a] in [l]. *)
Definition strictly_before (b a : string) (l : list string) : Prop :=
  exists l1 l2 l3, l = l1 ++ b :: l2 ++ a :: l3.

(** [b] appears no later than [a] in [l]. *)
Definition no_later (b a : string) (l : list string) : Prop :=
  exists i j, l !! i = Some b /\ l !! j = Some a /\ (i <= j)%nat.

(** [a] and [b] lie on a common dependency cycle: each is among the
    transitive dependencies of the other. *)
Definition same_cycle `{PySetOrder} (r : Dependencies.DependencyResolver)
    (a b : string) : Prop :=
  (exists s, Dependencies.get_dependencies r a = Some s /\ b ∈ s) /\
  (exists s, Dependencies.get_dependencies r b = Some s /\ a ∈ s).

(** Python's [<=] on [str]. *)
Definition lex_le (a b : string) : Prop := String.leb a b = true.

Section InsertionOrder.
Import Dependencies.
Context `{PySetOrder}.

Lemma set_iter_nil {A} : set_iter (@nil A) = [].
Proof. apply Permutation_nil_r. apply set_iter_perm. Qed.

Lemma get_insertion_order_eq (r : DependencyResolver) (res : list string) :
  kahn_result r = Some res ->
  get_insertion_order r = Some (res ++ set_iter (remaining r res)).
Proof.
  intros Hres. unfold get_insertion_order. rewrite Hres. cbn.
  destruct (decide (remaining r res = [])) as [->|?]; [|done].
  by rewrite set_iter_nil, app_nil_r.
Qed.

Lemma elem_of_remaining (r : DependencyResolver) (res : list string) (x : string) :
  x ∈ remaining r res <-> x ∈ dict_keys (tables r) /\ x ∉ res.
Proof. apply list_elem_of_difference. Qed.

(** C5, as the code has it.  [get_insertion_order] returns a list with
    exactly one entry per known table; for every edge [a -> b] whose target
    [b] is emitted by Kahn's loop, [b] comes strictly before [a]; and every
    table that the loop leaves over references a table that is left over
    too (it lies on a dependency cycle or depends on one).  Nothing is
    promised about the relative order of two left-over tables. *)
Theorem insertion_order_respects_emitted (tbls : list Table) :
  exists res l,
    kahn_result (new tbls) = Some res /\
    get_insertion_order (new tbls) = Some l /\
    NoDup l /\ l ≡ₚ dict_keys (tables_dict tbls) /\
    (forall a b, edge (tables_dict tbls) a b -> b ∈ res -> strictly_before b a l) /\
    (forall x, x ∈ l -> x ∉ res ->
       exists b, edge (tables_dict tbls) x b /\ b ∈ l /\ b ∉ res).
Proof.
  destruct (kahn_result_spec tbls) as (res & Hres & Hnd & Hknown & Hready & Horder).
  exists res, (res ++ set_iter (remaining (new tbls) res)).
  pose proof (get_insertion_order_eq _ _ Hres) as Hget.
  assert (NoDup (res ++ set_iter (remaining (new tbls) res))) as Hndl.
  { apply NoDup_app. split_and!; [done | |].
    - intros x Hx Hx'. apply elem_of_set_iter, elem_of_remaining in Hx'. tauto.
    - apply NoDup_set_iter, NoDup_list_difference, known_NoDup. }
  assert (forall x, x ∈ res ++ set_iter (remaining (new tbls) res)
                    <-> x ∈ dict_keys (tables_dict tbls)) as Helem.
  { intros x. rewrite elem_of_app, elem_of_set_iter, elem_of_remaining. cbn.
    split; [intros [?|[? _]]; auto|]. intros Hx.
    destruct (decide (x ∈ res)); auto. }
  split_and!; [done | done | done | | |].
  - apply NoDup_Permutation; [done | apply (known_NoDup tbls) | done].
  - intros a b Hedge Hb.
    destruct (decide (a ∈ res)) as [Ha|Ha].
    + apply list_elem_of_split in Ha as (l1 & l2 & Hsplit).
      assert (b ∈ l1) as Hb1.
      { apply (Horder l1 a l2 Hsplit). by apply dep_edge. }
      apply list_elem_of_split in Hb1 as (m1 & m2 & ->).
      exists m1, m2, (l2 ++ set_iter (remaining (new tbls) res)).
      rewrite Hsplit. rewrite <- ?app_assoc. cbn. by rewrite <- ?app_assoc.
    + assert (a ∈ set_iter (remaining (new tbls) res)) as Ha'.
      { apply elem_of_set_iter, elem_of_remaining. split; [|done].
        by apply (edge_known tbls) in Hedge as [? _]. }
      apply list_elem_of_split in Ha' as (n1 & n2 & ->).
      apply list_elem_of_split in Hb as (m1 & m2 & ->).
      exists m1, (m2 ++ n1), n2. rewrite <- ?app_assoc. cbn. by rewrite <- ?app_assoc.
  - intros x Hx Hnx. apply Helem in Hx.
    destruct (list_difference (dd_get x (_dependency_graph (new tbls))) res)
      as [|b rest] eqn:Hdiff.
    + exfalso. apply Hnx. apply (Hready x Hx).
      by apply list_difference_eq_nil.
    + assert (b ∈ list_difference (dd_get x (_dependency_graph (new tbls))) res)
        as Hb by (rewrite Hdiff; left).
      apply list_elem_of_difference in Hb as [Hb Hbr].
      apply dep_edge in Hb. exists b. split_and!; [done | | done].
      apply Helem. by apply (edge_known tbls) in Hb as [_ ?].
Qed.

(** C6, as the code has it.  The tables that Kahn's loop leaves over are
    appended in the iteration order of the Python set [remaining], each of
    them once; that order need not be lexicographic.  Under one and the same
    set order, two evaluations return the same list. *)
Theorem leftover_appended_in_set_order (tbls : list Table) :
  exists res,
    kahn_result (new tbls) = Some res /\
    get_insertion_order (new tbls)
      = Some (res ++ set_iter (remaining (new tbls) res)) /\
    NoDup (set_iter (remaining (new tbls) res)) /\
    (forall x, x ∈ set_iter (remaining (new tbls) res)
               <-> x ∈ dict_keys (tables_dict tbls) /\ x ∉ res) /\
    (forall l1 l2, get_insertion_order (new tbls) = Some l1 ->
                   get_insertion_order (new tbls) = Some l2 -> l1 = l2).
Proof.
  destruct (kahn_result_spec tbls) as (res & Hres & _).
  exists res. split_and!; [done | by apply get_insertion_order_eq | | |].
  - apply NoDup_set_iter, NoDup_list_difference, known_NoDup.
  - intros x. by rewrite elem_of_set_iter, elem_of_remaining.
  - intros l1 l2 H1 H2. congruence.
Qed.

End InsertionOrder.

(** C5 as the specification states it fails: in [cyclic_schema] the table
    [a_audit] references [b_user], the two share no cycle, and with sets
    walked in insertion order [b_user] is listed after [a_audit]. *)
Lemma insertion_order_edge_counterexample :
  ~ (forall (O : PySetOrder) (tbls : list Table) (l : list string) (a b : string),
       Dependencies.get_insertion_order (Dependencies.new tbls) = Some l ->
       edge (tables_dict tbls) a b ->
       no_later b a l \/ same_cycle (Dependencies.new tbls) a b).
Proof.
  intros Hc.
  destruct (Hc insertion_order Dependencies.cyclic_schema
              ["public.a_audit"; "public.b_user"; "public.c_group"]
              "public.a_audit" "public.b_user" eq_refl) as [Hlate|[_ Hcyc]].
  - exists Dependencies.t_audit,
      (Dependencies.mk_fk "audit_user_fk" "user_id" "public" "b_user" "id").
    split_and!; [| done | | done |]; vm_compute; repeat constructor.
  - destruct Hlate as (i & j & Hi & Hj & Hle).
    destruct i as [|[|[|i]]]; try discriminate Hi.
    destruct j as [|[|[|j]]]; try discriminate Hj. lia.
  - destruct Hcyc as (s & Hs & Hin). vm_compute in Hs.
    injection Hs as <-. apply list_elem_of_singleton in Hin. discriminate Hin.
Qed.

(** C6 as the specification states it fails: with sets walked in reverse
    insertion order the three left-over tables of [cyclic_schema] come out as
    [c_group; b_user; a_audit], which is not lexicographic. *)
Lemma leftover_order_counterexample :
  ~ (forall (O : PySetOrder) (tbls : list Table) (res l : list string),
       Dependencies.kahn_result (Dependencies.new tbls) = Some res ->
       Dependencies.get_insertion_order (Dependencies.new tbls) = Some l ->
       Sorted lex_le (drop (length res) l)).
Proof.
  intros Hc.
  specialize (Hc reverse_order Dependencies.cyclic_schema []
                ["public.c_group"; "public.b_user"; "public.a_audit"]
                eq_refl eq_refl).
  cbn in Hc. apply Sorted_inv in Hc as [_ Hrel].
  apply HdRel_inv in Hrel. discriminate Hrel.
Qed.

(** ** Reasoning about runs *)

Section RunFacts.
Context {conn : Type}.
Implicit Types (P E : State conn -> Prop).

(** From a state in [P], the run [m] ends in a state in [Q a] when it
    returns [a] and in a state in [E] when it raises. *)
Definition spec {A} P (m : M conn A) (Q : A -> State conn -> Prop) E : Prop :=
  forall st, P st ->
    match m st with
    | (Ok a, st') => Q a st'
    | (Err _, st') => E st'
    end.

Lemma spec_weaken {A} P P' (m : M conn A) (Q Q' : A -> State conn -> Prop) E E' :
  spec P' m Q' E' ->
  (forall st, P st -> P' st) ->
  (forall a st, Q' a st -> Q a st) ->
  (forall st, E' st -> E st) ->
  spec P m Q E.
Proof.
  intros Hm HP HQ HE st Hst. specialize (Hm st (HP st Hst)).
  destruct (m st) as [[a|e] st']; auto.
Qed.

Lemma spec_ret {A} P (a : A) (Q : A -> State conn -> Prop) E :
  (forall st, P st -> Q a st) -> spec P (ret a) Q E.
Proof. intros HQ st Hst. cbn. auto. Qed.

Lemma spec_raise {A} P (e : exn) (Q : A -> State conn -> Prop) E :
  (forall st, P st -> E st) -> spec P (raise e) Q E.
Proof. intros HE st Hst. cbn. auto. Qed.

Lemma spec_lift {A} P (r : result A) (Q : A -> State conn -> Prop) E :
  (forall st a, P st -> r = Ok a -> Q a st) ->
  (forall st, P st -> E st) ->
  spec P (lift r) Q E.
Proof. intros HQ HE st Hst. unfold lift. destruct r; eauto. Qed.

Lemma spec_bind {A B} P (m : M conn A) (k : A -> M conn B)
    (Q : A -> State conn -> Prop) (R : B -> State conn -> Prop) E :
  spec P m Q E ->
  (forall a, spec (Q a) (k a) R E) ->
  spec P (bind m k) R E.
Proof.
  intros Hm Hk st Hst. unfold bind. specialize (Hm st Hst).
  destruct (m st) as [[a|e] st']; [|done]. by apply Hk.
Qed.

Lemma spec_try_except {A} P (m : M conn A) (h : exn -> M conn A)
    (Q : A -> State conn -> Prop) E E' :
  spec P m Q E' ->
  (forall e, spec E' (h e) Q E) ->
  spec P (try_except m h) Q E.
Proof.
  intros Hm Hh st Hst. unfold try_except. specialize (Hm st Hst).
  destruct (m st) as [[a|e] st']; [done|]. by apply Hh.
Qed.

Lemma spec_for_each {A} P (l : list A) (body : A -> M conn unit) E :
  (forall x, x ∈ l -> spec P (body x) (fun _ => P) E) ->
  spec P (for_each l body) (fun _ => P) E.
Proof.
  induction l as [|x l IH]; intros Hbody.
  - by apply spec_ret.
  - cbn [for_each]. eapply spec_bind.
    + apply Hbody. left.
    + intros ?. apply IH. intros y Hy. apply Hbody. by right.
Qed.

Lemma spec_get_state P (Q : State conn -> State conn -> Prop) E :
  (forall st, P st -> Q st st) -> spec P get_state Q E.
Proof. intros HQ st Hst. cbn. auto. Qed.

(** *** Runs that leave [results] alone *)

Definition keeps_results {A} (m : M conn A) : Prop :=
  forall st, results (m st).2 = results st.

Lemma keeps_results_spec {A} (I : dict SamplingResult -> Prop) (m : M conn A) :
  keeps_results m ->
  spec (fun st => I (results st)) m (fun _ st => I (results st))
       (fun st => I (results st)).
Proof.
  intros Hm st Hst. specialize (Hm st).
  destruct (m st) as [[a|e] st']; cbn in Hm; by rewrite Hm.
Qed.

Lemma keeps_results_ret {A} (a : A) : keeps_results (ret (conn := conn) a).
Proof. done. Qed.

Lemma keeps_results_raise {A} (e : exn) : keeps_results (raise (conn := conn) (A := A) e).
Proof. done. Qed.

Lemma keeps_results_lift {A} (r : result A) : keeps_results (lift (conn := conn) r).
Proof. done. Qed.

Lemma keeps_results_get_state : keeps_results (get_state (conn := conn)).
Proof. done. Qed.

Lemma keeps_results_log l msg : keeps_results (log (conn := conn) l msg).
Proof. done. Qed.

Lemma keeps_results_set_sampled_rows s :
  keeps_results (set_sampled_rows (conn := conn) s).
Proof. done. Qed.

Lemma keeps_results_set_schema_created b :
  keeps_results (set_schema_created (conn := conn) b).
Proof. done. Qed.

Lemma keeps_results_on_conn {A} (f : conn -> result A * conn) :
  keeps_results (on_conn f).
Proof. intros st. unfold on_conn. by destruct (f (st_conn st)). Qed.

Lemma keeps_results_bind {A B} (m : M conn A) (k : A -> M conn B) :
  keeps_results m -> (forall a, keeps_results (k a)) -> keeps_results (bind m k).
Proof.
  intros Hm Hk st. unfold bind. specialize (Hm st).
  destruct (m st) as [[a|e] st']; cbn in *; [|done]. by rewrite Hk.
Qed.

Lemma keeps_results_try_except {A} (m : M conn A) (h : exn -> M conn A) :
  keeps_results m -> (forall e, keeps_results (h e)) ->
  keeps_results (try_except m h).
Proof.
  intros Hm Hh st. unfold try_except. specialize (Hm st).
  destruct (m st) as [[a|e] st']; cbn in *; [done|]. by rewrite Hh.
Qed.

Lemma keeps_results_for_each {A} (l : list A) (body : A -> M conn unit) :
  (forall x, keeps_results (body x)) -> keeps_results (for_each l body).
Proof.
  intros Hbody. induction l as [|x l IH]; [done|].
  cbn [for_each]. apply keeps_results_bind; auto.
Qed.

Lemma keeps_results_execute `{!Connection conn} s params :
  keeps_results (execute s params).
Proof. apply keeps_results_on_conn. Qed.

End RunFacts.

Create HintDb keeps.
#[local] Hint Resolve keeps_results_ret keeps_results_raise keeps_results_lift
  keeps_results_get_state keeps_results_log keeps_results_set_sampled_rows
  keeps_results_set_schema_created keeps_results_on_conn keeps_results_execute
  : keeps.

(** Splits a run into its steps, each of which must keep [results]. *)
Ltac keeps_step :=
  lazymatch goal with
  | |- forall _, _ => intros ?
  | |- keeps_results (bind _ _) => apply keeps_results_bind; [|intros ?]
  | |- keeps_results (try_except _ _) => apply keeps_results_try_except; [|intros ?]
  | |- keeps_results (for_each _ _) => apply keeps_results_for_each; intros ?
  | |- keeps_results (if ?b then _ else _) => destruct b
  | |- keeps_results (match ?x with _ => _ end) => destruct x
  | |- keeps_results _ => solve [auto with keeps]
  end.

Ltac keeps := repeat keeps_step.

Section RunFactsResults.
Context {conn : Type}.

Lemma spec_bind_keeps {A B} (J JE : dict SamplingResult -> Prop)
    (m : M conn A) (k : A -> M conn B) (Q : B -> State conn -> Prop) :
  keeps_results m ->
  (forall d, J d -> JE d) ->
  (forall a, spec (fun st => J (results st)) (k a) Q (fun st => JE (results st))) ->
  spec (fun st => J (results st)) (bind m k) Q (fun st => JE (results st)).
Proof.
  intros Hm HJ Hk. eapply spec_bind; [|exact Hk].
  eapply spec_weaken; [apply (keeps_results_spec J), Hm | | |]; cbn; auto.
Qed.

Lemma spec_pure_pre {A} (P : State conn -> Prop) (F : Prop) (m : M conn A)
    (Q : A -> State conn -> Prop) (E : State conn -> Prop) :
  (F -> spec P m Q E) -> spec (fun st => P st /\ F) m Q E.
Proof. intros Hm st [Hst HF]. by apply Hm. Qed.

End RunFactsResults.

(** ** C9: [row_count] and [rows] *)

Section RowCounts.
Import Sampling.
Context `{PySetOrder} `{Connection conn}.
Variable self : SamplingEngine.

Definition count_ok (r : SamplingResult) : Prop :=
  row_count r = Z.of_nat (length (rows r)).

(** Every result of the map has [row_count == len(rows)]. *)
Definition counts_ok (d : dict SamplingResult) : Prop :=
  forall table_name r, dict_get table_name d = Some r -> count_ok r.

Local Notation "'Icounts'" := (fun st : State conn => counts_ok (results st)).

Lemma counts_ok_nil : counts_ok [].
Proof. intros name r Hget. discriminate Hget. Qed.

Lemma counts_ok_set table_name r d :
  count_ok r -> counts_ok d -> counts_ok (dict_set table_name r d).
Proof.
  intros Hr Hd name r' Hget. rewrite dict_get_set in Hget.
  destruct (decide (name = table_name)); [by inversion Hget; subst | eauto].
Qed.

Lemma store_result_counts table_name r :
  count_ok r -> spec Icounts (store_result table_name r) (fun _ => Icounts) Icounts.
Proof. intros Hr st Hst. cbn. by apply counts_ok_set. Qed.

Lemma result_of_counts table_name :
  spec Icounts (result_of table_name) (fun r st => counts_ok (results st) /\ count_ok r) Icounts.
Proof.
  intros st Hst. unfold result_of, bind, get_state.
  destruct (dict_get table_name (results st)) as [r|] eqn:Hget; cbn; eauto.
Qed.

Lemma keeps_build_query table limit_rule :
  keeps_results (_build_query self table limit_rule).
Proof.
  unfold _build_query. destruct limit_rule as [rule|]; [|keeps].
  destruct (limit rule); keeps.
Qed.

Lemma keeps_store_sampled table_name s : keeps_results (store_sampled table_name s : M conn unit).
Proof. unfold store_sampled. keeps. Qed.

Lemma keeps_insertion_order :
  keeps_results (insertion_order_of_resolver (conn := conn) self).
Proof. unfold insertion_order_of_resolver. keeps. Qed.

Lemma sample_table_counts table :
  spec Icounts (_sample_table self table)
       (fun r st => counts_ok (results st) /\ count_ok r) Icounts.
Proof.
  unfold _sample_table.
  apply (spec_bind_keeps counts_ok counts_ok); [apply keeps_build_query | done |].
  intros qp.
  apply (spec_bind_keeps counts_ok counts_ok); [apply keeps_results_execute | done |].
  intros cur. apply spec_ret. intros st Hst. split; [done|]. reflexivity.
Qed.

Lemma sample_one_counts table_name :
  spec Icounts (sample_one self table_name) (fun _ => Icounts) Icounts.
Proof.
  unfold sample_one. destruct (dict_get table_name (tables self)) as [table|].
  2: { by apply spec_ret. }
  eapply spec_try_except with (E' := Icounts); [|intros e; by apply spec_raise].
  eapply spec_bind; [apply sample_table_counts|]. intros sampled.
  apply spec_pure_pre. intros Hsampled.
  eapply spec_bind; [by apply store_result_counts|]. intros ?.
  destruct (has_primary_key table); [|by apply spec_ret].
  apply (keeps_results_spec counts_ok). keeps. apply keeps_store_sampled.
Qed.

(** The closure step keeps the equality: it appends [new_rows] to [rows]
    and adds [len(new_rows)] to [row_count]. *)
Lemma fetch_missing_rows_counts table cols values :
  spec Icounts (_fetch_missing_rows table cols values) (fun _ => Icounts) Icounts.
Proof.
  unfold _fetch_missing_rows. destruct values as [|v values]; [by apply spec_ret|].
  apply (spec_bind_keeps counts_ok counts_ok); [apply keeps_results_execute | done |].
  intros cur.
  apply (spec_bind_keeps counts_ok counts_ok); [apply keeps_results_get_state | done |].
  intros st0.
  eapply spec_bind.
  { instantiate (1 := fun _ => Icounts).
    destruct (dict_mem _ _); [by apply spec_ret|].
    apply store_result_counts. reflexivity. }
  intros ?.
  eapply spec_bind; [apply result_of_counts|]. intros current.
  apply spec_pure_pre. intros Hcurrent.
  apply (spec_bind_keeps counts_ok counts_ok); [keeps | done |].
  intros existing_pks.
  apply (spec_bind_keeps counts_ok counts_ok); [keeps | done |].
  intros new_rows.
  eapply spec_bind.
  { apply store_result_counts. unfold count_ok in *. cbn.
    rewrite length_app. lia. }
  intros ?.
  destruct (has_primary_key table); [|by apply spec_ret].
  apply (keeps_results_spec counts_ok). keeps. apply keeps_store_sampled.
Qed.

Lemma resolve_fk_counts table_name table fk :
  spec Icounts (resolve_fk self table_name table fk) (fun _ => Icounts) Icounts.
Proof.
  unfold resolve_fk. destruct (dict_get _ (tables self)) as [ref_table_obj|].
  2: { by apply spec_ret. }
  destruct (negb _); [by apply spec_ret|].
  eapply spec_bind; [apply result_of_counts|]. intros current.
  apply spec_pure_pre. intros ?.
  apply (spec_bind_keeps counts_ok counts_ok); [keeps | done |]. intros projected.
  apply (spec_bind_keeps counts_ok counts_ok); [keeps | done |]. intros st.
  destruct (match dict_get _ (sampled_rows st) with Some _ => _ | None => _ end).
  - by apply spec_ret.
  - apply fetch_missing_rows_counts.
Qed.

Lemma resolve_foreign_keys_counts :
  spec Icounts (_resolve_foreign_keys self) (fun _ => Icounts) Icounts.
Proof.
  unfold _resolve_foreign_keys. apply spec_for_each. intros entry _.
  unfold resolve_table.
  apply (spec_bind_keeps counts_ok counts_ok); [keeps | done |]. intros st.
  destruct (dict_mem _ _); [|by apply spec_ret].
  apply spec_for_each. intros fk _. apply resolve_fk_counts.
Qed.

Lemma sample_direct_counts :
  spec Icounts (_sample_direct self)
       (fun d st => counts_ok (results st) /\ d = results st) Icounts.
Proof.
  unfold _sample_direct.
  apply (spec_bind_keeps counts_ok counts_ok); [apply keeps_insertion_order | done |].
  intros insertion_order.
  eapply spec_bind.
  { apply spec_for_each. intros x _. apply sample_one_counts. }
  intros ?. eapply spec_bind.
  { eapply spec_try_except; [apply resolve_foreign_keys_counts|].
    intros e. by apply spec_raise. }
  intros ?.
  eapply spec_bind with (Q := fun a st => counts_ok (results st) /\ a = st);
    [by apply spec_get_state|].
  intros st. apply spec_ret. intros st' [Hst ->]. auto.
Qed.

(** *** Staging mode *)

Lemma keeps_safe_rollback : keeps_results (Staging.safe_rollback (conn := conn)).
Proof. unfold Staging.safe_rollback. keeps. Qed.

Lemma keeps_commit : keeps_results (Staging.commit (conn := conn)).
Proof. unfold Staging.commit. keeps. Qed.

Hint Resolve keeps_safe_rollback keeps_commit keeps_build_query : keeps.

Lemma keeps_guarded {A} (m : M conn A) :
  keeps_results m -> keeps_results (Staging.guarded m).
Proof. intros Hm. unfold Staging.guarded. keeps. Qed.

Lemma keeps_stage_one schema_name table_name :
  keeps_results (stage_one self schema_name table_name).
Proof.
  unfold stage_one, Staging.create_staging_table, Staging.copy_data_to_staging,
    Staging.create_staging_indexes.
  destruct (dict_get table_name (tables self)) as [table|]; [|keeps].
  apply keeps_results_try_except; [|keeps].
  apply keeps_results_bind.
  { apply keeps_results_bind; [|keeps]. apply keeps_guarded. keeps. }
  intros staging_table.
  apply keeps_results_bind; [apply keeps_build_query|]. intros qp.
  apply keeps_results_bind.
  { apply keeps_guarded. keeps. }
  intros ?. destruct (indexes table); keeps.
Qed.

Lemma keeps_resolve_staging schema_name :
  keeps_results (_resolve_foreign_keys_staging self schema_name).
Proof. unfold _resolve_foreign_keys_staging, staging_fk. keeps. Qed.

Lemma read_one_counts schema_name table_name :
  spec Icounts (read_one self schema_name table_name) (fun _ => Icounts) Icounts.
Proof.
  unfold read_one. destruct (dict_get table_name (tables self)) as [table|].
  2: { by apply spec_ret. }
  eapply spec_try_except with (E' := Icounts); [|intros e; by apply spec_raise].
  apply (spec_bind_keeps counts_ok counts_ok); [| done |].
  { unfold Staging.get_staging_data. apply keeps_guarded. keeps. }
  intros staged. apply store_result_counts. reflexivity.
Qed.

Lemma sample_with_staging_counts schema_name :
  spec Icounts (_sample_with_staging self schema_name)
       (fun d st => counts_ok (results st) /\ d = results st) Icounts.
Proof.
  unfold _sample_with_staging.
  apply (spec_bind_keeps counts_ok counts_ok); [apply keeps_insertion_order | done |].
  intros insertion_order.
  apply (spec_bind_keeps counts_ok counts_ok); [| done |].
  { apply keeps_results_for_each. intros x. apply keeps_stage_one. }
  intros ?.
  apply (spec_bind_keeps counts_ok counts_ok); [| done |].
  { apply keeps_results_try_except; [apply keeps_resolve_staging | keeps]. }
  intros ?. eapply spec_bind.
  { apply spec_for_each. intros x _. apply read_one_counts. }
  intros ?.
  eapply spec_bind with (Q := fun a st => counts_ok (results st) /\ a = st);
    [by apply spec_get_state|].
  intros st. apply spec_ret. intros st' [Hst ->]. auto.
Qed.

Lemma sample_all_counts :
  spec Icounts (sample_all self)
       (fun d st => counts_ok (results st) /\ d = results st) Icounts.
Proof.
  unfold sample_all. destruct (use_staging self), (staging_manager self);
    auto using sample_direct_counts, sample_with_staging_counts.
Qed.

(** C9.  In either mode, and whether [sample_all] returns or raises, every
    result it leaves in [self.results] has [row_count] equal to the length
    of [rows]; the map it returns is [self.results].  The closure step
    [_fetch_missing_rows], which appends the fetched rows, keeps the
    equality as well. *)
Theorem row_count_matches_rows (c : conn) :
  counts_ok (results (sample_all self (initial_state c)).2) /\
  (forall d, (sample_all self (initial_state c)).1 = Ok d ->
     d = results (sample_all self (initial_state c)).2 /\
     forall table_name r, dict_get table_name d = Some r ->
       row_count r = Z.of_nat (length (rows r))) /\
  (forall table cols values st,
     counts_ok (results st) ->
     counts_ok (results (_fetch_missing_rows table cols values st).2)).
Proof.
  pose proof (sample_all_counts (initial_state c) counts_ok_nil) as Hall.
  destruct (sample_all self (initial_state c)) as [[d|e] st'] eqn:Hrun; cbn.
  - destruct Hall as [Hst ->]. split_and!; [done | |].
    + intros d [= <-]. split; [done|]. apply Hst.
    + intros table cols values st Hst'.
      pose proof (fetch_missing_rows_counts table cols values st Hst') as Hf.
      by destruct (_fetch_missing_rows _ _ _ _) as [[?|?] ?].
  - split_and!; [done | intros d [=] |].
    intros table cols values st Hst'.
    pose proof (fetch_missing_rows_counts table cols values st Hst') as Hf.
    by destruct (_fetch_missing_rows _ _ _ _) as [[?|?] ?].
Qed.

End RowCounts.

(** ** Queries on the reference database *)

Section DbRuns.
Import Sampling.
Context `{Db.Server}.
Implicit Types st : State Db.Database.

(** The state after one more statement has been run. *)
Definition traced st (s : statement) (params : list pyval) : State Db.Database :=
  {| st_conn := {| Db.relations := Db.relations (st_conn st);
                   Db.trace := Db.trace (st_conn st) ++ [(s, params)] |};
     st_log := st_log st; _schema_created := _schema_created st;
     results := results st; sampled_rows := sampled_rows st |}.

Lemma execute_db s params st :
  placeholders s = length params ->
  execute s params st = (Db.run (st_conn st) s params, traced st s params).
Proof.
  intros Hp. unfold execute, on_conn, cursor_execute.
  rewrite decide_True by done. reflexivity.
Qed.

Lemma eval_rows_elem cols es rs out r :
  Db.eval_rows cols es rs = Ok out -> r ∈ out ->
  exists src, src ∈ rs /\ Db.eval_exprs cols src es = Ok r.
Proof.
  revert out. induction rs as [|src rs IH]; intros out Heval Hr; cbn in Heval.
  - inversion Heval; subst. by apply elem_of_nil in Hr.
  - destruct (Db.eval_exprs cols src es) as [v|] eqn:Hv; [|done].
    destruct (Db.eval_rows cols es rs) as [vs|] eqn:Hvs; [|done].
    inversion Heval; subst. apply elem_of_cons in Hr as [->|Hr].
    + exists src. split; [left | done].
    + destruct (IH vs eq_refl Hr) as (src' & ? & ?). exists src'. split; [by right | done].
Qed.

Lemma eval_exprs_lookup cols src es r :
  Db.eval_exprs cols src es = Ok r ->
  length r = length es /\
  forall i e, es !! i = Some e ->
    exists v, Db.eval_expr cols src e = Ok v /\ r !! i = Some v.
Proof.
  revert r. induction es as [|e es IH]; intros r Heval; cbn in Heval.
  - inversion Heval; subst. split; [done|]. intros i e Hi. by destruct i.
  - destruct (Db.eval_expr cols src e) as [v|] eqn:Hv; [|done].
    destruct (Db.eval_exprs cols src es) as [vs|] eqn:Hvs; [|done].
    inversion Heval; subst. destruct (IH vs eq_refl) as [Hlen Hlook].
    split; [cbn; by rewrite Hlen|]. intros [|i] e' Hi; cbn in Hi.
    + inversion Hi; subst. eauto.
    + apply Hlook in Hi. done.
Qed.

Lemma column_index_lookup (cols : list string) i c :
  NoDup cols -> cols !! i = Some c -> Db.column_index cols c = Some i.
Proof.
  intros Hnd. revert i. induction Hnd as [|c0 cols Hc0 Hnd IH]; intros i Hi.
  - by destruct i.
  - cbn. destruct i as [|i]; cbn in Hi.
    + inversion Hi; subst. by rewrite decide_True.
    + rewrite decide_False.
      * by rewrite (IH i Hi).
      * intros ->. apply Hc0. by eapply list_elem_of_lookup_2.
Qed.

Lemma elem_of_apply_limit n (l : list row) r : r ∈ Db.apply_limit n l -> r ∈ l.
Proof. destruct n as [k|]; cbn; [apply subseteq_take | done]. Qed.

Lemma length_apply_limit k (l : list row) :
  (length (Db.apply_limit (Some k) l) <= k)%nat.
Proof. cbn. rewrite length_take. lia. Qed.

Lemma elem_of_scan o (l : list row) r : r ∈ Db.scan o l <-> r ∈ l.
Proof. by rewrite (Db.scan_perm o l). Qed.

(** Every row a SELECT returns is the SELECT list evaluated on a stored row
    of the relation. *)
Lemma run_select_rows db q params cur rel r :
  Db.run_select db q params = Ok cur ->
  dict_get (q_schema q +:+ "." +:+ q_table q) (Db.relations db) = Some rel ->
  r ∈ fetched cur ->
  exists src, src ∈ Db.rel_rows rel /\
              Db.eval_exprs (Db.rel_columns rel) src (q_exprs q) = Ok r.
Proof.
  unfold Db.run_select, Db.relation_of. intros Hrun Hrel Hr. rewrite Hrel in Hrun.
  destruct (Db.limit_of _ _) as [n|]; [|done].
  destruct (Db.eval_rows _ _ _) as [rs|] eqn:Heval; [|done].
  inversion Hrun; subst. cbn in Hr.
  destruct (eval_rows_elem _ _ _ _ _ Heval Hr) as (src & Hsrc & Hev).
  exists src. split; [|done].
  apply elem_of_apply_limit, elem_of_scan in Hsrc.
  destruct (q_where q); [|done]. by apply list_elem_of_filter in Hsrc as [_ ?].
Qed.

Variable self : SamplingEngine.

(** What [_build_query] returns, and that it leaves the relations alone. *)
Lemma build_query_db table limit_rule st q params st1 :
  _build_query self table limit_rule st = (Ok (q, params), st1) ->
  (exists l, q = mk_query self table limit_rule l) /\
  Db.relations (st_conn st1) = Db.relations (st_conn st) /\
  results st1 = results st /\ sampled_rows st1 = sampled_rows st.
Proof.
  unfold _build_query. destruct limit_rule as [rule|].
  2: { intros [= <- <- <-]. eauto. }
  destruct (limit rule) eqn:Hlimit.
  - intros [= <- <- <-]. eauto.
  - unfold bind. rewrite execute_db by done.
    destruct (Db.run _ _ _) as [cur|]; [|done].
    unfold lift. destruct (fetchone_0 cur) as [total|]; [|done].
    destruct (as_int total) as [n|]; [|done].
    destruct (percentage_limit n _) as [lim|]; [|done].
    intros [= <- <- <-]. eauto.
  - intros [= <- <- <-]. eauto.
  - intros [= <- <- <-]. eauto.
Qed.

(** C7, as the code has it.  For a table governed by a PERCENTAGE(p) rule,
    [_build_query] first runs SELECT COUNT and then asks for
    LIMIT max(1, int(total * p / 100)), where the product and the quotient
    are taken in binary64 floating point and [int] truncates.  The limit is
    at least 1; for 7 rows at 10 percent it is 1. *)
Theorem percentage_limit_from_count table rule p rel st :
  limit rule = PERCENTAGE p ->
  dict_get (qualified_name table) (Db.relations (st_conn st)) = Some rel ->
  let total := Z.of_nat (length (Db.rel_rows rel)) in
  Db.trace (st_conn (_build_query self table (Some rule) st).2)
    = Db.trace (st_conn st) ++ [(SelectCount (schema table) (name table), [])] /\
  (_build_query self table (Some rule) st).1
    = match percentage_limit total p with
      | Ok lim => Ok (mk_query self table (Some rule) LimitPlaceholder, [PInt lim])
      | Err e => Err e
      end /\
  (forall lim, percentage_limit total p = Ok lim -> 1 <= lim) /\
  percentage_limit 7 10 = Ok 1.
Proof.
  intros Hlimit Hrel total. unfold _build_query. rewrite Hlimit.
  unfold bind. rewrite execute_db by done.
  cbn [Db.run]. unfold Db.run_count, Db.relation_of.
  change (schema table +:+ "." +:+ name table) with (qualified_name table).
  rewrite Hrel. cbn [fetchone_0 fetched Db.rows_cursor lift as_int].
  fold total. split_and!.
  - by destruct (percentage_limit total p).
  - by destruct (percentage_limit total p).
  - intros lim. unfold percentage_limit.
    destruct (float_of_int total); [|done].
    destruct (int_of_float _); [|done]. intros [= <-]. lia.
  - reflexivity.
Qed.

(** C3, as the code has it.  The SELECT list of the sampling query keeps one
    expression per column, in column order: NULL for an excluded column and
    the column itself otherwise; a lone NULL is selected only for a table
    without columns, so a table whose columns are all excluded gets one NULL
    per column.  Every row the sampling query returns has NULL at the
    position of each excluded column and the value of a stored row at every
    other position. *)
Theorem excluded_columns_read_null table rel st sampled st' :
  NoDup (col_name <$> columns table) ->
  dict_get (qualified_name table) (Db.relations (st_conn st)) = Some rel ->
  Db.rel_columns rel = col_name <$> columns table ->
  _sample_table self table st = (Ok sampled, st') ->
  column_exprs self table
    = match columns table with
      | [] => [ENull]
      | cols => (fun col => if decide (col_name col ∈ _get_excluded_columns self table)
                            then ENull else EColumn (col_name col)) <$> cols
      end /\
  ((forall col, col ∈ columns table ->
      col_name col ∈ _get_excluded_columns self table) ->
   column_exprs self table = replicate (Nat.max 1 (length (columns table))) ENull) /\
  forall r, r ∈ rows sampled ->
    exists src, src ∈ Db.rel_rows rel /\
      length r = length (column_exprs self table) /\
      forall i col, columns table !! i = Some col ->
        r !! i = if decide (col_name col ∈ _get_excluded_columns self table)
                 then Some PNone else src !! i.
Proof.
  intros Hnd Hrel Hcols Hrun.
  assert (column_exprs self table
          = match columns table with
            | [] => [ENull]
            | cols => (fun col => if decide (col_name col ∈ _get_excluded_columns self table)
                                  then ENull else EColumn (col_name col)) <$> cols
            end) as Hexprs.
  { unfold column_exprs. by destruct (columns table). }
  split_and!; [done | |].
  - intros Hall. rewrite Hexprs.
    assert (forall l : list Column,
              (forall col, col ∈ l -> col_name col ∈ _get_excluded_columns self table) ->
              (fun col => if decide (col_name col ∈ _get_excluded_columns self table)
                          then ENull else EColumn (col_name col)) <$> l
              = replicate (length l) ENull) as Hrep.
    { induction l as [|c' cs' IH]; intros Hl; [done|].
      cbn. rewrite decide_True by (apply Hl; left). f_equal.
      apply IH. intros col Hcol. apply Hl. by right. }
    specialize (Hrep (columns table) Hall).
    destruct (columns table) as [|c cs]; [done|]. rewrite Hrep. done.
  - unfold _sample_table, bind in Hrun.
    destruct (_build_query _ _ _ _) as [[[q params]|] st1] eqn:Hq; [|done].
    destruct (build_query_db _ _ _ _ _ _ Hq) as ([l ->] & Hrels & _ & _).
    cbn [fst snd] in Hrun.
    destruct (execute _ _ _) as [[cur|] st2] eqn:Hexec; [|done].
    cbn in Hrun. inversion Hrun; subst sampled st'. clear Hrun. cbn [rows].
    unfold execute, on_conn, cursor_execute in Hexec.
    destruct (decide _) as [_|_]; [|done]. cbn in Hexec.
    inversion Hexec as [[Hcur Hst2]]. clear Hexec Hst2.
    intros r Hr.
    destruct (run_select_rows _ _ _ _ rel r Hcur) as (src & Hsrc & Heval); [| done |].
    { cbn [q_schema q_table mk_query]. by rewrite Hrels. }
    cbn [q_exprs mk_query] in Heval.
    apply eval_exprs_lookup in Heval as [Hlen Hlook].
    exists src. split_and!; [done | done |].
    intros i col Hi. rewrite Hexprs in Hlook.
    destruct (columns table) as [|c cs] eqn:Hcs; [by destruct i|].
    rewrite <- Hcs in *.
    destruct (Hlook i (if decide (col_name col ∈ _get_excluded_columns self table)
                       then ENull else EColumn (col_name col))) as (v & Hv & Hri).
    { rewrite list_lookup_fmap, Hi. done. }
    transitivity (Some v); [exact Hri|]. clear Hri.
    destruct (decide _); cbn in Hv; [by inversion Hv|].
    rewrite Hcols in Hv.
    rewrite (column_index_lookup _ i (col_name col) Hnd) in Hv.
    2: { by rewrite list_lookup_fmap, Hi. }
    destruct (src !! i); by inversion Hv.
Qed.

End DbRuns.

(** ** C2: the default limit *)

Section DefaultLimit.
Import Sampling.
Context `{PySetOrder} `{Connection conn}.

(** C2 fails on the code.  For a table that no limit rule matches,
    [_build_query] writes [LIMIT 100] into the query text and also passes 100
    as a parameter: the query has no placeholder for it, so on every
    connection [cursor.execute] raises before the query reaches the server,
    and [_sample_direct] gives up on the table. *)
Theorem default_limit_rejected (self : SamplingEngine) (table : Table)
    (table_name : string) (st : State conn) :
  _find_limit_rule self table = None ->
  dict_get table_name (tables self) = Some table ->
  let q := mk_query self table None (LimitLiteral 100) in
  _build_query self table None st = (Ok (q, [PInt 100]), st) /\
  placeholders (Select q) = 0%nat /\
  (exists msg, (_sample_table self table st).1 = Err (ProgrammingError msg)) /\
  (exists msg cause, (sample_one self table_name st).1 = Err (RuntimeError msg cause)).
Proof.
  intros Hrule Htable q. split_and!; [done | done | |].
  - unfold _sample_table. rewrite Hrule. unfold bind at 1. cbn [_build_query ret].
    unfold bind, execute, on_conn, cursor_execute. cbn. eauto.
  - unfold sample_one. rewrite Htable. unfold try_except, bind at 1.
    unfold _sample_table. rewrite Hrule. unfold bind at 1. cbn [_build_query ret].
    unfold bind, execute, on_conn, cursor_execute. cbn. eauto.
Qed.

End DefaultLimit.

(** ** The queries on the sample databases *)

Section QueryExamples.
Import Sampling Examples.
#[local] Existing Instance insertion_order.
#[local] Existing Instance Db.stored_order.

(** The query text for a table that no rule matches. *)
Example default_query_text :
  render_select (mk_query (direct_engine shop [] []) users None (LimitLiteral 100))
  = "SELECT " +:+ quoted "id" +:+ " FROM " +:+ quoted "public" +:+ "."
    +:+ quoted "a_users" +:+ " LIMIT 100"
  /\ count_placeholders
       (render_select (mk_query (direct_engine shop [] []) users None (LimitLiteral 100)))
     = placeholders (Select (mk_query (direct_engine shop [] []) users None
                                      (LimitLiteral 100))).
Proof. split; reflexivity. Qed.

(** One placeholder for a NUMERIC rule. *)
Example numeric_query_text :
  let q := mk_query (direct_engine shop one_row_each []) orders
                    (Some (mk_rule "*" (NUMERIC 1))) LimitPlaceholder in
  render_select q
  = "SELECT " +:+ quoted "id" +:+ ", " +:+ quoted "user_id" +:+ " FROM "
    +:+ quoted "public" +:+ "." +:+ quoted "b_orders" +:+ " LIMIT %s"
  /\ count_placeholders (render_select q) = placeholders (Select q).
Proof. split; reflexivity. Qed.

Lemma default_limit_rejected_witness :
  exists msg cause,
    (sample_one (direct_engine shop [] []) "public.a_users"
                (initial_state shop_db)).1 = Err (RuntimeError msg cause).
Proof.
  apply (default_limit_rejected (direct_engine shop [] []) users
           "public.a_users" (initial_state shop_db)); reflexivity.
Defined.

(** Without a rule, the whole run in direct mode stops at the first table. *)
Example default_limit_run_fails :
  exists msg cause,
    (sample_all (direct_engine shop [] []) (initial_state shop_db)).1
    = Err (RuntimeError msg cause).
Proof. vm_compute. eauto. Qed.

(** S2: seven rows at ten percent. *)
Lemma percentage_limit_from_count_witness :
  (_build_query (direct_engine [t_table] [ten_percent] []) t_table
                (Some ten_percent) (initial_state (t_db 7))).1
  = Ok (mk_query (direct_engine [t_table] [ten_percent] []) t_table
                 (Some ten_percent) LimitPlaceholder, [PInt 1]).
Proof.
  destruct (percentage_limit_from_count
              (direct_engine [t_table] [ten_percent] []) t_table ten_percent
              10%float
              {| Db.rel_columns := ["id"];
                 Db.rel_rows := (fun i => [PInt (Z.of_nat i)]) <$> seq 1 7 |}
              (initial_state (t_db 7)) eq_refl eq_refl) as (_ & Hrun & _).
  exact Hrun.
Defined.

Example seven_rows_ten_percent :
  view_run (sample_all (direct_engine [t_table] [ten_percent] [])
                       (initial_state (t_db 7)))
  = Ok [("public.t", [[PInt 1]], 1)].
Proof. vm_compute. reflexivity. Qed.

(** C7 as the specification states it fails: for 1000 rows at 0.7 percent
    the product [1000 * 0.7] rounds to 700.0, so the code asks for 7 rows,
    while [floor(1000 * p / 100)] is 6 for the value [p] the rule holds. *)
Lemma percentage_limit_counterexample :
  (_build_query (direct_engine [t_table] [point_seven_percent] []) t_table
                (Some point_seven_percent) (initial_state (t_db 1000))).1
  = Ok (mk_query (direct_engine [t_table] [point_seven_percent] []) t_table
                 (Some point_seven_percent) LimitPlaceholder, [PInt 7])
  /\ Z.max 1 <$> exact_percent_floor 1000 point_seven = Some 6.
Proof. split; vm_compute; reflexivity. Qed.

(** The foreign-key pass does not hide excluded columns: [_fetch_missing_rows]
    selects every column as it is stored.  With [secret] excluded and one
    account sampled, the account fetched for the second login is kept in the
    sample with its [secret]. *)
Example closure_row_keeps_excluded_value :
  _get_excluded_columns (direct_engine [accounts; logins] one_account ["secret"]) accounts
  = ["secret"] /\
  view_run (sample_all (direct_engine [accounts; logins] one_account ["secret"])
                       (initial_state accounts_db))
  = Ok [("public.a_accounts", [[PInt 1; PNone]; [PInt 2; PStr "pw2"]], 2);
        ("public.b_logins", [[PInt 1; PInt 1]; [PInt 2; PInt 2]], 2)].
Proof. split; vm_compute; reflexivity. Qed.

(** C3 as the specification states it fails twice.  With both columns of
    [secrets] excluded the query selects two NULLs, not one.  And not every
    sampled row has NULL at the position of an excluded column: in the run
    above the sample of [a_accounts] holds the row (2, pw2), whose second
    column is excluded. *)
Lemma excluded_columns_counterexample :
  ~ (forall (self : SamplingEngine) (table : Table),
       (forall col, col ∈ columns table ->
          col_name col ∈ _get_excluded_columns self table) ->
       column_exprs self table = [ENull]) /\
  exists (d : dict SamplingResult) (st' : State Db.Database) (sampled : SamplingResult),
    sample_all (direct_engine [accounts; logins] one_account ["secret"])
               (initial_state accounts_db) = (Ok d, st') /\
    columns accounts !! 1%nat = Some (Dependencies.mk_col "secret") /\
    "secret" ∈ _get_excluded_columns
                 (direct_engine [accounts; logins] one_account ["secret"]) accounts /\
    dict_get "public.a_accounts" d = Some sampled /\
    [PInt 2; PStr "pw2"] ∈ rows sampled.
Proof.
  split.
  - intros Hc. specialize (Hc (direct_engine [secrets] [] ["t.*"]) secrets).
    assert (column_exprs (direct_engine [secrets] [] ["t.*"]) secrets = [ENull; ENull])
      as Hexprs by reflexivity.
    rewrite Hexprs in Hc. discriminate Hc.
    intros col Hcol. change (columns secrets) with [Dependencies.mk_col "id";
                                                     Dependencies.mk_col "secret"] in Hcol.
    change (_get_excluded_columns (direct_engine [secrets] [] ["t.*"]) secrets)
      with ["id"; "secret"].
    apply elem_of_cons in Hcol as [->|Hcol]; [left|].
    apply list_elem_of_singleton in Hcol as ->. right. left.
  - pose proof closure_row_keeps_excluded_value as [Hexcluded Hview].
    unfold view_run in Hview.
    destruct (sample_all (direct_engine [accounts; logins] one_account ["secret"])
                         (initial_state accounts_db)) as [[d|e] st'] eqn:Hrun;
      cbn [fst] in Hview; [|discriminate Hview].
    injection Hview as Hview.
    destruct d as [|[k sampled] d']; [discriminate Hview|].
    unfold view in Hview. rewrite fmap_cons in Hview. cbn [fst snd] in Hview.
    injection Hview as Hk Hrows _ _. subst k.
    exists (("public.a_accounts", sampled) :: d'), st', sampled.
    split_and!.
    + reflexivity.
    + reflexivity.
    + rewrite Hexcluded. left.
    + reflexivity.
    + rewrite Hrows. right. left.
Qed.

(** S5: the [secret] column is read as NULL, [id] as stored. *)
Example secret_column_excluded :
  view_run (sample_all (direct_engine [secrets] [mk_rule "t" FULL] ["t.secret"])
                       (initial_state secrets_db))
  = Ok [("public.t", [[PInt 1; PNone]; [PInt 2; PNone]; [PInt 3; PNone]], 3)].
Proof. vm_compute. reflexivity. Qed.

Lemma excluded_columns_read_null_witness :
  exists src : row,
    src ∈ [[PInt 1; PStr "a"]; [PInt 2; PStr "b"]; [PInt 3; PStr "c"]] /\
    [PInt 2; PNone] !! 0%nat = src !! 0%nat /\
    [PInt 2; PNone] !! 1%nat = Some PNone.
Proof.
  destruct (excluded_columns_read_null
              (direct_engine [secrets] [mk_rule "t" FULL] ["t.secret"]) secrets
              {| Db.rel_columns := ["id"; "secret"];
                 Db.rel_rows := [[PInt 1; PStr "a"]; [PInt 2; PStr "b"];
                                 [PInt 3; PStr "c"]] |}
              (initial_state secrets_db)
              {| table_schema := "public"; table_name := "t";
                 rows := [[PInt 1; PNone]; [PInt 2; PNone]; [PInt 3; PNone]];
                 row_count := 3; limit_applied := Some (mk_rule "t" FULL) |}
              (_sample_table (direct_engine [secrets] [mk_rule "t" FULL] ["t.secret"])
                             secrets (initial_state secrets_db)).2)
    as (_ & _ & Hrows).
  - apply (bool_decide_unpack _). exact I.
  - reflexivity.
  - reflexivity.
  - reflexivity.
  - destruct (Hrows [PInt 2; PNone]) as (src & Hsrc & Hlen & Hpos).
    + right. left.
    + exists src. split_and!; [exact Hsrc | |].
      * exact (Hpos 0%nat (Dependencies.mk_col "id") eq_refl).
      * exact (Hpos 1%nat (Dependencies.mk_col "secret") eq_refl).
Defined.

End QueryExamples.

(** ** C8: a staging schema that cannot be created *)

Section StagingDowngrade.
Import Sampling.
Context `{PySetOrder} `{Connection conn}.
Implicit Types st : State conn.

Lemma safe_rollback_run st :
  exists c, Staging.safe_rollback st
            = (Ok tt, {| st_conn := c; st_log := st_log st;
                         _schema_created := _schema_created st;
                         results := results st;
                         sampled_rows := sampled_rows st |}).
Proof.
  unfold Staging.safe_rollback, try_except, on_conn.
  destruct (conn_rollback (st_conn st)) as [[[]|e] c]; eauto.
Qed.

(** [create_schema] catches every exception: it always returns. *)
Lemma create_schema_returns schema_name force st :
  exists b, (Staging.create_schema schema_name force st).1 = Ok b.
Proof.
  unfold Staging.create_schema, try_except.
  destruct (Staging.create_schema_body schema_name force st) as [[b|e] st1]; [eauto|].
  destruct e; unfold bind;
    destruct (safe_rollback_run st1) as [c ->]; cbn; eauto.
Qed.


End StagingDowngrade.

Section StagingDowngradeExample.
Import Sampling Examples.
#[local] Existing Instance insertion_order.
#[local] Existing Instance Db.stored_order.


Example staging_refused_run_completes :
  view_run (Cli.sample (options shop one_row_each [] true) (initial_state shop_db))
  = Ok [("public.a_users", [[PInt 1]], 1);
        ("public.b_orders", [[PInt 1; PInt 1]; [PInt 2; PInt 2]], 2);
        ("public.c_items", [[PInt 1; PInt 2]], 1)]
  /\ st_log (Cli.sample (options shop one_row_each [] true) (initial_state shop_db)).2
     = [(INFO, "Attempting to use staging schema for improved performance...");
        (INFO, "Creating staging schema: _dbsample");
        (ERROR, "Insufficient privileges to create staging schema: "
                +:+ "permission denied for database. Falling back to direct query mode.");
        (WARNING, "Could not create staging schema - falling back to direct query mode");
        (INFO, "Sampling data directly from source tables...");
        (INFO, "Sampled rows")].
Proof. split; vm_compute; reflexivity. Qed.

End StagingDowngradeExample.

(** ** C4: verify_referential_integrity *)

Section SetOfList.
Context {A : Type} `{EqDecision A}.

Lemma set_of_list_spec (l : list A) :
  NoDup (set_of_list l) /\ forall x, x ∈ set_of_list l <-> x ∈ l.
Proof.
  unfold set_of_list.
  assert (forall acc, NoDup acc ->
            NoDup (foldl (fun s x => set_add x s) acc l) /\
            forall x, x ∈ foldl (fun s x => set_add x s) acc l <-> x ∈ acc \/ x ∈ l)
    as Hgen.
  { induction l as [|y l IH]; intros acc Hacc; cbn.
    - split; [done|]. intros x. rewrite elem_of_nil. tauto.
    - destruct (IH (set_add y acc) (NoDup_set_add _ _ Hacc)) as [Hnd Hin].
      split; [done|]. intros x. rewrite Hin, elem_of_set_add, elem_of_cons. tauto. }
  destruct (Hgen [] (NoDup_nil_2)) as [Hnd Hin]. split; [done|].
  intros x. rewrite Hin, elem_of_nil. tauto.
Qed.

Lemma elem_of_set_of_list (l : list A) x : x ∈ set_of_list l <-> x ∈ l.
Proof. apply set_of_list_spec. Qed.

Lemma NoDup_set_of_list (l : list A) : NoDup (set_of_list l).
Proof. apply set_of_list_spec. Qed.

Lemma elem_of_set_diff (a b : list A) x : x ∈ set_diff a b <-> x ∈ a /\ x ∉ b.
Proof. apply list_elem_of_difference. Qed.

Lemma NoDup_set_diff (a b : list A) : NoDup a -> NoDup (set_diff a b).
Proof. apply NoDup_list_difference. Qed.

End SetOfList.

Section ProjectFacts.
Import Sampling.

Lemma project_all_elem idx rs out r :
  project_all idx rs = Ok out -> r ∈ rs -> exists v, project idx r = Ok v /\ v ∈ out.
Proof.
  revert out. induction rs as [|r0 rs IH]; intros out Hp Hr; cbn in Hp.
  - by apply elem_of_nil in Hr.
  - destruct (project idx r0) as [v0|] eqn:Hv0; [|done].
    destruct (project_all idx rs) as [vs|]; [|done].
    inversion Hp; subst. apply elem_of_cons in Hr as [->|Hr].
    + exists v0. split; [done | left].
    + destruct (IH vs eq_refl Hr) as (v & ? & ?). exists v. split; [done | by right].
Qed.

Lemma project_all_elem_inv idx rs out v :
  project_all idx rs = Ok out -> v ∈ out -> exists r, r ∈ rs /\ project idx r = Ok v.
Proof.
  revert out. induction rs as [|r0 rs IH]; intros out Hp Hv; cbn in Hp.
  - inversion Hp; subst. by apply elem_of_nil in Hv.
  - destruct (project idx r0) as [v0|] eqn:Hv0; [|done].
    destruct (project_all idx rs) as [vs|]; [|done].
    inversion Hp; subst. apply elem_of_cons in Hv as [->|Hv].
    + exists r0. split; [left | done].
    + destruct (IH vs eq_refl Hv) as (r & ? & ?). exists r. split; [by right | done].
Qed.

Lemma project_all_length idx rs out :
  project_all idx rs = Ok out -> length out = length rs.
Proof.
  revert out. induction rs as [|r0 rs IH]; intros out Hp; cbn in Hp.
  - by inversion Hp.
  - destruct (project idx r0); [|done].
    destruct (project_all idx rs) as [vs|]; [|done].
    inversion Hp; subst. cbn. by rewrite (IH vs).
Qed.

End ProjectFacts.

Section Verify.
Import Sampling.
Context `{PySetOrder}.
Variable self : SamplingEngine.

(** [v] is a foreign-key tuple of the sample without NULL. *)
Definition fk_value (sampled : SamplingResult) (table : Table) (fk : ForeignKey)
    (v : row) : Prop :=
  (exists r, r ∈ rows sampled /\
             project (column_indices (columns table) (fk_columns fk)) r = Ok v) /\
  no_null v.

(** [v] is the projection of a sampled row of the referenced table onto
    the columns at [idx]. *)
Definition key_present (ref_sampled : SamplingResult) (idx : list nat) (v : row) : Prop :=
  exists r', r' ∈ rows ref_sampled /\ project idx r' = Ok v.

(** The record [verify_referential_integrity] adds for a foreign key. *)
Definition reports (viol : Violation) (table_name : string) (table : Table)
    (sampled : SamplingResult) (fk : ForeignKey) (ref_table_obj : Table)
    (ref_sampled : SamplingResult) : Prop :=
  constraint viol = fk_name fk /\
  v_table viol = table_name /\
  v_columns viol = fk_columns fk /\
  v_referenced_table viol = fk_ref_table fk /\
  v_referenced_columns viol = referenced_columns fk /\
  exists missing,
    NoDup missing /\
    (forall x, x ∈ missing <->
       fk_value sampled table fk x /\
       ~ key_present ref_sampled
           (column_indices (columns ref_table_obj) (referenced_columns fk)) x) /\
    violation_count viol = Z.of_nat (length missing) /\
    sample_violations viol = take 10 (set_iter missing).

Lemma verify_fk_offending res table_name table sampled fk ref_table_obj ref_sampled o v :
  verify_fk self res table_name table sampled fk = Ok o ->
  dict_get (fk_ref_table fk) (tables self) = Some ref_table_obj ->
  has_primary_key ref_table_obj = true ->
  dict_get (fk_ref_table fk) res = Some ref_sampled ->
  rows ref_sampled <> [] ->
  column_indices (columns ref_table_obj) (referenced_columns fk) <> [] ->
  column_indices (columns table) (fk_columns fk) <> [] ->
  fk_value sampled table fk v ->
  ~ key_present ref_sampled
      (column_indices (columns ref_table_obj) (referenced_columns fk)) v ->
  exists viol, o = Some viol /\
               reports viol table_name table sampled fk ref_table_obj ref_sampled.
Proof.
  intros Hrun Href Hpk Hres Hrows Hridx Hfidx [(r & Hr & Hrv) Hnn] Habsent.
  unfold verify_fk in Hrun. rewrite Href, Hpk, Hres in Hrun. cbn [negb] in Hrun.
  destruct (rows ref_sampled) as [|r0 rs0] eqn:Hrs; [done|]. rewrite <- Hrs in *.
  destruct (column_indices (columns table) (fk_columns fk)) as [|i0 is0] eqn:Hfi; [done|].
  rewrite <- Hfi in *.
  destruct (column_indices (columns ref_table_obj) (referenced_columns fk))
    as [|j0 js0] eqn:Hri; [done|].
  rewrite <- Hri in *.
  destruct (project_all _ (rows sampled)) as [projected|] eqn:Hproj; [|done].
  destruct (project_all_elem _ _ _ _ Hproj Hr) as (v' & Hv' & Hvin).
  assert (v' = v) as -> by congruence.
  assert (v ∈ set_of_list (filter no_null projected)) as Hvset.
  { apply elem_of_set_of_list, list_elem_of_filter. done. }
  destruct (set_of_list (filter no_null projected)) as [|f0 fs0] eqn:Hfk.
  { by apply elem_of_nil in Hvset. }
  rewrite <- Hfk in *.
  destruct (project_all _ (rows ref_sampled)) as [ref_projected|] eqn:Hrproj; [|done].
  assert (forall x, x ∈ set_diff (set_of_list (filter no_null projected))
                                 (set_of_list ref_projected)
                    <-> fk_value sampled table fk x /\
                        ~ key_present ref_sampled
                            (column_indices (columns ref_table_obj)
                                            (referenced_columns fk)) x) as Hmissing.
  { intros x. rewrite elem_of_set_diff, !elem_of_set_of_list, list_elem_of_filter.
    unfold fk_value, key_present. split.
    - intros [[Hx Hxin] Hxabs]. split_and!; [|done|].
      + by apply (project_all_elem_inv _ _ _ _ Hproj).
      + intros (r' & Hr' & Hr'x). apply Hxabs.
        destruct (project_all_elem _ _ _ _ Hrproj Hr') as (x' & ? & ?). congruence.
    - intros [[(rx & Hrx & Hrxv) Hx] Hxabs]. split_and!; [done | |].
      + destruct (project_all_elem _ _ _ _ Hproj Hrx) as (x' & ? & ?). congruence.
      + intros Hxin. apply Hxabs. by apply (project_all_elem_inv _ _ _ _ Hrproj). }
  destruct (set_diff _ _) as [|m0 ms0] eqn:Hdiff.
  { exfalso. assert (v ∈ @nil row) as Hnil; [|by apply elem_of_nil in Hnil].
    apply Hmissing. unfold fk_value. eauto. }
  inversion Hrun; subst o. eexists. split; [reflexivity|].
  unfold reports. cbn. split_and!; try reflexivity.
  exists (m0 :: ms0). split_and!; [| done | done | done].
  rewrite <- Hdiff. apply NoDup_set_diff, NoDup_set_of_list.
Qed.

Lemma verify_fks_spec res table_name table sampled fks : forall acc out,
  verify_fks self res table_name table sampled fks acc = Ok out ->
  (forall x, x ∈ acc -> x ∈ out) /\
  forall fk, fk ∈ fks ->
    exists o, verify_fk self res table_name table sampled fk = Ok o /\
              forall viol, o = Some viol -> viol ∈ out.
Proof.
  induction fks as [|fk fks IH]; intros acc out Hrun; cbn in Hrun.
  - inversion Hrun; subst. split; [done|]. intros fk Hfk. by apply elem_of_nil in Hfk.
  - destruct (verify_fk self res table_name table sampled fk) as [[viol|]|] eqn:Hfk;
      [| |done].
    + destruct (IH _ _ Hrun) as [Hacc Hrest]. split.
      * intros x Hx. apply Hacc, elem_of_app. auto.
      * intros fk' [->|Hfk']%elem_of_cons; [|auto].
        exists (Some viol). split; [done|]. intros viol' [= <-].
        apply Hacc, elem_of_app. right. left.
    + destruct (IH _ _ Hrun) as [Hacc Hrest]. split; [done|].
      intros fk' [->|Hfk']%elem_of_cons; [|auto].
      exists None. split; [done | done].
Qed.

Lemma verify_tables_spec res entries : forall acc out,
  verify_tables self res entries acc = Ok out ->
  (forall x, x ∈ acc -> x ∈ out) /\
  forall table_name table sampled fk,
    (table_name, table) ∈ entries ->
    dict_get table_name res = Some sampled ->
    rows sampled <> [] ->
    fk ∈ foreign_keys table ->
    exists o, verify_fk self res table_name table sampled fk = Ok o /\
              forall viol, o = Some viol -> viol ∈ out.
Proof.
  induction entries as [|[name0 table0] entries IH]; intros acc out Hrun; cbn in Hrun.
  - inversion Hrun; subst. split; [done|]. intros ? ? ? ? Hin. by apply elem_of_nil in Hin.
  - destruct (dict_get name0 res) as [sampled0|] eqn:Hget.
    2: { destruct (IH _ _ Hrun) as [Hacc Hrest]. split; [done|].
         intros table_name table sampled fk [[= -> ->]|Hin]%elem_of_cons ? ? ?;
           [congruence | eauto]. }
    destruct (rows sampled0) as [|r0 rs0] eqn:Hrows.
    { destruct (IH _ _ Hrun) as [Hacc Hrest]. split; [done|].
      intros table_name table sampled fk [[= -> ->]|Hin]%elem_of_cons Hs ? ?;
        [|eauto]. rewrite Hget in Hs. inversion Hs; subst. congruence. }
    destruct (verify_fks _ _ _ _ _ _ _) as [acc'|] eqn:Hfks; [|done].
    destruct (verify_fks_spec _ _ _ _ _ _ _ Hfks) as [Hacc1 Hfk1].
    destruct (IH _ _ Hrun) as [Hacc Hrest]. split; [auto|].
    intros table_name table sampled fk [[= -> ->]|Hin]%elem_of_cons Hs Hne Hfk;
      [|eauto].
    rewrite Hget in Hs. inversion Hs; subst sampled.
    destruct (Hfk1 fk Hfk) as (o & Ho & Hin). exists o. split; [done|]. auto.
Qed.

(** C4, as the code has it.  When [verify_referential_integrity] returns
    [(ok, violations)], [ok] is true exactly when the list is empty.  For a
    sampled table A with a foreign key to a table B that is known, has a
    primary key and has a non-empty sample, and whose columns are found in
    the two tables, every NULL-free foreign-key tuple of A's sample that is not the projection of a sampled row of B
    onto the referenced columns has a violation record in the list.  The
    record carries the constraint name, the tables and the columns, the
    number of distinct offending tuples, and the first ten of them in the
    order the set yields them.  (Both projections follow the column order of
    their own table.) *)
Theorem verify_reports_missing_references {conn} (st : State conn)
    (ok : bool) (violations : list Violation) :
  (verify_referential_integrity self st).1 = Ok (ok, violations) ->
  (ok = true <-> violations = []) /\
  forall table_name table sampled fk ref_table_obj ref_sampled v,
    (table_name, table) ∈ tables self ->
    dict_get table_name (results st) = Some sampled ->
    fk ∈ foreign_keys table ->
    dict_get (fk_ref_table fk) (tables self) = Some ref_table_obj ->
    has_primary_key ref_table_obj = true ->
    dict_get (fk_ref_table fk) (results st) = Some ref_sampled ->
    rows ref_sampled <> [] ->
    column_indices (columns table) (fk_columns fk) <> [] ->
    column_indices (columns ref_table_obj) (referenced_columns fk) <> [] ->
    fk_value sampled table fk v ->
    ~ key_present ref_sampled
        (column_indices (columns ref_table_obj) (referenced_columns fk)) v ->
    exists viol, viol ∈ violations /\
                 reports viol table_name table sampled fk ref_table_obj ref_sampled.
Proof.
  unfold verify_referential_integrity, bind, get_state, lift. cbn [fst].
  destruct (verify_tables self (results st) (tables self) []) as [out|] eqn:Hrun; [|done].
  cbn. intros [= <- <-]. split.
  { destruct out; cbn; split; done. }
  intros table_name table sampled fk ref_table_obj ref_sampled v
         Hentry Hsampled Hfk Href Hpk Hrefs Hrows Hfidx Hridx Hv Habsent.
  destruct (verify_tables_spec _ _ _ _ Hrun) as [_ Hall].
  assert (rows sampled <> []) as Hne.
  { destruct Hv as [(r & Hr & _) _]. intros Hnil. rewrite Hnil in Hr.
    by apply elem_of_nil in Hr. }
  destruct (Hall _ _ _ _ Hentry Hsampled Hne Hfk) as (o & Ho & Hin).
  destruct (verify_fk_offending _ _ _ _ _ _ _ _ _ Ho Href Hpk Hrefs Hrows Hridx Hfidx
              Hv Habsent) as (viol & -> & Hrep).
  exists viol. split; [by apply Hin | done].
Qed.

End Verify.

Section VerifyExamples.
Import Sampling Examples.
#[local] Existing Instance insertion_order.
#[local] Existing Instance Db.stored_order.

(** The chain sampled with one row per table: the order fetched for the
    item refers to a user that is not sampled, and the verifier says so. *)
Example shop_run :
  view_run (sample_all (direct_engine shop one_row_each []) (initial_state shop_db))
  = Ok [("public.a_users", [[PInt 1]], 1);
        ("public.b_orders", [[PInt 1; PInt 1]; [PInt 2; PInt 2]], 2);
        ("public.c_items", [[PInt 1; PInt 2]], 1)].
Proof. vm_compute. reflexivity. Qed.

Lemma verify_reports_missing_references_witness :
  exists viol,
    viol ∈ [{| constraint := "orders_user_fk"; v_table := "public.b_orders";
               v_columns := ["user_id"]; v_referenced_table := "public.a_users";
               v_referenced_columns := ["id"]; violation_count := 1;
               sample_violations := [[PInt 2]] |}] /\
    constraint viol = "orders_user_fk" /\ v_table viol = "public.b_orders".
Proof.
  destruct (verify_reports_missing_references
              (direct_engine shop one_row_each [])
              (sample_all (direct_engine shop one_row_each [])
                          (initial_state shop_db)).2
              false
              [{| constraint := "orders_user_fk"; v_table := "public.b_orders";
                  v_columns := ["user_id"]; v_referenced_table := "public.a_users";
                  v_referenced_columns := ["id"]; violation_count := 1;
                  sample_violations := [[PInt 2]] |}])
    as [_ Hall].
  { vm_compute. reflexivity. }
  destruct (Hall "public.b_orders" orders
              {| table_schema := "public"; table_name := "b_orders";
                 rows := [[PInt 1; PInt 1]; [PInt 2; PInt 2]]; row_count := 2;
                 limit_applied := Some (mk_rule "*" (NUMERIC 1)) |}
              orders_user_fk users
              {| table_schema := "public"; table_name := "a_users";
                 rows := [[PInt 1]]; row_count := 1;
                 limit_applied := Some (mk_rule "*" (NUMERIC 1)) |}
              [PInt 2]) as (viol & Hin & Hname & Htable & _).
  - right. left.
  - vm_compute. reflexivity.
  - left.
  - reflexivity.
  - reflexivity.
  - vm_compute. reflexivity.
  - discriminate.
  - discriminate.
  - discriminate.
  - split.
    + exists [PInt 2; PInt 2]. split; [right; left | reflexivity].
    + intros Hin. apply list_elem_of_singleton in Hin. discriminate Hin.
  - intros (r' & Hr' & Hp). apply list_elem_of_singleton in Hr'. subst r'.
    discriminate Hp.
  - exists viol. split_and!; [exact Hin | exact Hname | exact Htable].
Defined.

(** C4 as the specification states it fails: with [items_only] the order
    fetched for the item refers to user 2, the sample of [a_users] is empty,
    and the verifier skips the foreign key and returns [(True, [])]. *)
Lemma verify_skips_empty_reference :
  ~ (forall (self : SamplingEngine) (st : State Db.Database)
            (ok : bool) (violations : list Violation),
       (verify_referential_integrity self st).1 = Ok (ok, violations) ->
       forall table_name table sampled fk ref_table_obj ref_sampled v,
         (table_name, table) ∈ tables self ->
         dict_get table_name (results st) = Some sampled ->
         fk ∈ foreign_keys table ->
         dict_get (fk_ref_table fk) (tables self) = Some ref_table_obj ->
         has_primary_key ref_table_obj = true ->
         dict_get (fk_ref_table fk) (results st) = Some ref_sampled ->
         fk_value sampled table fk v ->
         ~ key_present ref_sampled (pk_indices ref_table_obj) v ->
         exists viol, viol ∈ violations /\ constraint viol = fk_name fk).
Proof.
  intros Hc.
  assert ((verify_referential_integrity (direct_engine shop items_only [])
             (sample_all (direct_engine shop items_only [])
                         (initial_state shop_db)).2).1 = Ok (true, [])) as Hrun.
  { vm_compute. reflexivity. }
  specialize (Hc _ _ _ _ Hrun "public.b_orders" orders
                {| table_schema := "public"; table_name := "b_orders";
                   rows := [[PInt 2; PInt 2]]; row_count := 1;
                   limit_applied := Some (mk_rule "*" (NUMERIC 0)) |}
                orders_user_fk users
                {| table_schema := "public"; table_name := "a_users";
                   rows := []; row_count := 0;
                   limit_applied := Some (mk_rule "*" (NUMERIC 0)) |}
                [PInt 2]).
  destruct Hc as (viol & Hin & _).
  - right. left.
  - vm_compute. reflexivity.
  - left.
  - reflexivity.
  - reflexivity.
  - vm_compute. reflexivity.
  - split.
    + exists [PInt 2; PInt 2]. split; [left | reflexivity].
    + intros Hin. apply list_elem_of_singleton in Hin. discriminate Hin.
  - intros (r' & Hr' & _). by apply elem_of_nil in Hr'.
  - by apply elem_of_nil in Hin.
Qed.

End VerifyExamples.

(** ** C1: closure under foreign keys in direct mode *)

Section RunDecomposition.
Context {conn : Type}.

Lemma bind_ok {A B} (m : M conn A) (k : A -> M conn B) st b st' :
  bind m k st = (Ok b, st') ->
  exists a st1, m st = (Ok a, st1) /\ k a st1 = (Ok b, st').
Proof.
  unfold bind. destruct (m st) as [[a|e] st1]; [eauto | done].
Qed.

Lemma try_raise_ok {A} (m : M conn A) (f : exn -> exn) st a st' :
  try_except m (fun e => raise (f e)) st = (Ok a, st') -> m st = (Ok a, st').
Proof.
  unfold try_except. destruct (m st) as [[a'|e] st1]; [done|]. cbn. done.
Qed.

Lemma for_each_cons_ok {A} (x : A) (l : list A) (body : A -> M conn unit) st u st' :
  for_each (x :: l) body st = (Ok u, st') ->
  exists st1, body x st = (Ok tt, st1) /\ for_each l body st1 = (Ok u, st').
Proof.
  cbn [for_each]. intros (a & st1 & Hx & Hl)%bind_ok. destruct a. eauto.
Qed.

Lemma for_each_app_ok {A} (l1 l2 : list A) (body : A -> M conn unit) st u st' :
  for_each (l1 ++ l2) body st = (Ok u, st') ->
  exists st1, for_each l1 body st = (Ok tt, st1) /\ for_each l2 body st1 = (Ok u, st').
Proof.
  revert st. induction l1 as [|x l1 IH]; intros st Hrun.
  - exists st. done.
  - cbn [app] in Hrun. apply for_each_cons_ok in Hrun as (st1 & Hx & Hrest).
    destruct (IH _ Hrest) as (st2 & H1 & H2). exists st2. split; [|done].
    cbn [for_each]. unfold bind. by rewrite Hx.
Qed.

(** A run that, when it returns, keeps the invariant [Pre] and relates the
    states by [R]. *)
Definition step_ok {A} (m : M conn A) (Pre : State conn -> Prop)
    (R : State conn -> State conn -> Prop) : Prop :=
  forall st a st', Pre st -> m st = (Ok a, st') -> Pre st' /\ R st st'.

Lemma step_ok_for_each {A} (l : list A) (body : A -> M conn unit) Pre R :
  (forall st, R st st) ->
  (forall s1 s2 s3, R s1 s2 -> R s2 s3 -> R s1 s3) ->
  (forall x, x ∈ l -> step_ok (body x) Pre R) ->
  step_ok (for_each l body) Pre R.
Proof.
  intros Hrefl Htrans. induction l as [|x l IH]; intros Hbody st u st' Hpre Hrun.
  - cbn in Hrun. inversion Hrun; subst. auto.
  - apply for_each_cons_ok in Hrun as (st1 & Hx & Hrest).
    destruct (Hbody x ltac:(left) _ _ _ Hpre Hx) as [Hpre1 HR1].
    destruct (IH (fun y Hy => Hbody y ltac:(by right)) _ _ _ Hpre1 Hrest) as [Hpre' HR'].
    eauto.
Qed.

End RunDecomposition.

Section RowFacts.
Import Sampling.

(** [r] is [src] with some of its values replaced by NULL. *)
Definition masks (r src : row) : Prop :=
  forall i x, r !! i = Some x -> x = PNone \/ src !! i = Some x.

Lemma masks_refl r : masks r r.
Proof. intros i x Hx. auto. Qed.

Lemma project_masks idx r src v :
  masks r src -> project idx r = Ok v -> no_null v -> project idx src = Ok v.
Proof.
  intros Hm. revert v. induction idx as [|i idx IH]; intros v Hp Hnn; cbn in *.
  - done.
  - destruct (r !! i) as [x|] eqn:Hx; [|done].
    destruct (project idx r) as [vs|]; [|done]. inversion Hp; subst v.
    assert (x <> PNone) as Hxn.
    { intros ->. apply Hnn. left. }
    destruct (Hm i x Hx) as [?|Hsrc]; [done|]. rewrite Hsrc.
    rewrite (IH vs eq_refl); [done|].
    intros Hin. apply Hnn. by right.
Qed.

Lemma regroup_concat (l : list row) : Db.regroup (length <$> l) (concat l) = l.
Proof.
  induction l as [|r l IH]; [done|].
  cbn. rewrite take_app_length, drop_app_length. by rewrite IH.
Qed.

Lemma eval_rows_complete cols es rs out src :
  Db.eval_rows cols es rs = Ok out -> src ∈ rs ->
  exists r, Db.eval_exprs cols src es = Ok r /\ r ∈ out.
Proof.
  revert out. induction rs as [|r0 rs IH]; intros out Heval Hsrc; cbn in Heval.
  - by apply elem_of_nil in Hsrc.
  - destruct (Db.eval_exprs cols r0 es) as [v|] eqn:Hv; [|done].
    destruct (Db.eval_rows cols es rs) as [vs|] eqn:Hvs; [|done].
    inversion Heval; subst. apply elem_of_cons in Hsrc as [->|Hsrc].
    + exists v. split; [done | left].
    + destruct (IH vs eq_refl Hsrc) as (r & ? & ?). exists r. split; [done | by right].
Qed.

(** Selecting every column of a row, in order, gives the row back. *)
Lemma eval_exprs_all_columns (cols : list string) (src r : row) :
  NoDup cols -> length src = length cols ->
  Db.eval_exprs cols src (EColumn <$> cols) = Ok r -> r = src.
Proof.
  intros Hnd Hlen Heval. apply eval_exprs_lookup in Heval as [Hlr Hlook].
  rewrite length_fmap in Hlr. apply list_eq. intros i.
  destruct (cols !! i) as [c|] eqn:Hc.
  - destruct (Hlook i (EColumn c)) as (v & Hv & Hri).
    { by rewrite list_lookup_fmap, Hc. }
    unfold Db.eval_expr in Hv. rewrite (column_index_lookup _ _ _ Hnd Hc) in Hv.
    transitivity (Some v); [exact Hri|].
    by case_match; simplify_eq.
  - apply lookup_ge_None in Hc.
    transitivity (@None pyval); [|symmetry]; apply lookup_ge_None; lia.
Qed.

(** A row of the sampling query masks the stored row it was read from. *)
Lemma eval_exprs_masks (cols : list Column) (excluded : list string) (src r : row) :
  NoDup (col_name <$> cols) ->
  Db.eval_exprs (col_name <$> cols) src
    ((fun col => if decide (col_name col ∈ excluded)
                 then ENull else EColumn (col_name col)) <$> cols) = Ok r ->
  masks r src.
Proof.
  intros Hnd Heval. apply eval_exprs_lookup in Heval as [Hlr Hlook].
  rewrite length_fmap in Hlr. intros i x Hx.
  destruct (cols !! i) as [col|] eqn:Hc.
  - destruct (Hlook i (if decide (col_name col ∈ excluded)
                       then ENull else EColumn (col_name col))) as (v & Hv & Hri).
    { by rewrite list_lookup_fmap, Hc. }
    assert (v = x) as -> by congruence.
    destruct (decide _); unfold Db.eval_expr in Hv; [left; by inversion Hv|].
    rewrite (column_index_lookup _ i (col_name col) Hnd) in Hv.
    2: { by rewrite list_lookup_fmap, Hc. }
    right. by case_match; simplify_eq.
  - apply lookup_ge_None in Hc. apply lookup_lt_Some in Hx. lia.
Qed.

End RowFacts.


Section Closure.
Import Sampling.
Context `{PySetOrder} `{Db.Server}.
Variable self : SamplingEngine.

(** The source database the run starts from. *)
Variable db0 : Db.Database.
Implicit Types st : State Db.Database.

(** The rows the source database stores for a table. *)
Definition stored (t : Table) : list row :=
  match dict_get (qualified_name t) (Db.relations db0) with
  | Some rel => Db.rel_rows rel
  | None => []
  end.

(** The database has the table as its descriptor says: the same columns,
    each named once, and one value per column in every row. *)
Definition relation_ok (t : Table) : Prop :=
  exists rel,
    dict_get (qualified_name t) (Db.relations db0) = Some rel /\
    Db.rel_columns rel = col_name <$> columns t /\
    NoDup (col_name <$> columns t) /\
    forall src, src ∈ Db.rel_rows rel -> length src = length (columns t).

(** [self.tables] is keyed by qualified name, and the database has every
    table of it. *)
Definition tables_ok : Prop :=
  NoDup (dict_keys (tables self)) /\
  forall k t, (k, t) ∈ tables self -> k = qualified_name t /\ relation_ok t.

Hypothesis Htables : tables_ok.

Lemma table_lookup k t :
  dict_get k (tables self) = Some t -> k = qualified_name t /\ relation_ok t.
Proof using Htables. intros Hget. apply Htables. by apply dict_get_elem_of. Qed.

Lemma table_entry k t : (k, t) ∈ tables self -> dict_get k (tables self) = Some t.
Proof using Htables. intros Hin. apply elem_of_dict_get; [apply Htables | done]. Qed.

(** What holds of the engine between two steps of a run in direct mode:
    the database is unchanged, every sampled row masks a stored row of its
    table, and every tuple of a presence set is the key of a sampled row. *)
Record inv st : Prop := {
  inv_db : Db.relations (st_conn st) = Db.relations db0;
  inv_source : forall k t sampled r,
    dict_get k (tables self) = Some t ->
    dict_get k (results st) = Some sampled ->
    r ∈ rows sampled ->
    exists src, src ∈ stored t /\ masks r src;
  inv_present : forall k t present v,
    dict_get k (tables self) = Some t ->
    has_primary_key t = true ->
    dict_get k (sampled_rows st) = Some present ->
    v ∈ present ->
    exists sampled, dict_get k (results st) = Some sampled /\
                    key_present sampled (pk_indices t) v
}.

Lemma inv_initial : inv (initial_state db0).
Proof. split; [done | |]; intros; discriminate. Qed.

(** Samples only grow. *)
Definition grows st st' : Prop :=
  forall k sampled, dict_get k (results st) = Some sampled ->
    exists sampled', dict_get k (results st') = Some sampled' /\
                     forall r, r ∈ rows sampled -> r ∈ rows sampled'.

(** Samples only grow, and only those of the tables in [T] change. *)
Definition touches (T : string -> Prop) st st' : Prop :=
  grows st st' /\
  forall k, ~ T k -> dict_get k (results st') = dict_get k (results st).

Lemma touches_refl T st : touches T st st.
Proof. split; [|done]. intros k sampled Hk. eauto. Qed.

Lemma touches_trans T s1 s2 s3 : touches T s1 s2 -> touches T s2 s3 -> touches T s1 s3.
Proof.
  intros [G1 U1] [G2 U2]. split.
  - intros k sampled Hk. destruct (G1 k sampled Hk) as (sampled1 & Hk1 & Hr1).
    destruct (G2 k sampled1 Hk1) as (sampled2 & Hk2 & Hr2). eauto.
  - intros k Hk. rewrite (U2 k Hk). auto.
Qed.

Lemma touches_weaken (T T' : string -> Prop) st st' :
  (forall k, T k -> T' k) -> touches T st st' -> touches T' st st'.
Proof. intros HT [G U]. split; [done|]. intros k Hk. apply U. auto. Qed.

Lemma key_present_grows sampled sampled' idx v :
  (forall r, r ∈ rows sampled -> r ∈ rows sampled') ->
  key_present sampled idx v -> key_present sampled' idx v.
Proof. intros Hsub (r & Hr & Hp). exists r. auto. Qed.

Lemma execute_ok_db s params st cur st1 :
  execute s params st = (Ok cur, st1) ->
  Db.run (st_conn st) s params = Ok cur /\ st1 = traced st s params.
Proof.
  unfold execute, on_conn, cursor_execute.
  destruct (decide _) as [_|_]; cbn; [|done].
  destruct (Db.run _ _ _) as [cur'|]; [|done]. by intros [= <- <-].
Qed.

(** *** The first samples *)

Lemma sample_table_db table k st sampled st' :
  inv st -> dict_get k (tables self) = Some table ->
  _sample_table self table st = (Ok sampled, st') ->
  Db.relations (st_conn st') = Db.relations db0 /\
  results st' = results st /\ sampled_rows st' = sampled_rows st /\
  forall r, r ∈ rows sampled -> exists src, src ∈ stored table /\ masks r src.
Proof using Htables.
  intros Hinv Htable Hrun.
  destruct (table_lookup _ _ Htable) as (_ & rel & Hrel & Hcols & Hnd & _).
  unfold _sample_table in Hrun.
  apply bind_ok in Hrun as ([q params] & st1 & Hq & Hrun).
  destruct (build_query_db _ _ _ _ _ _ _ Hq) as ([l ->] & Hrels & Hres & Hsam).
  cbn [fst snd] in Hrun.
  apply bind_ok in Hrun as (cur & st2 & Hexec & Hret).
  apply execute_ok_db in Hexec as [Hcur ->]. cbn in Hret. inversion Hret; subst.
  cbn [st_conn traced Db.relations results sampled_rows rows].
  rewrite Hrels, (inv_db _ Hinv). split_and!; [done | done | done |].
  intros r Hr. cbn [Db.run] in Hcur.
  destruct (run_select_rows _ _ _ _ rel r Hcur) as (src & Hsrc & Heval); [| done |].
  { cbn [q_schema q_table mk_query]. rewrite Hrels, (inv_db _ Hinv). exact Hrel. }
  exists src. split.
  { unfold stored. by rewrite Hrel. }
  cbn [q_exprs mk_query] in Heval. rewrite Hcols in Heval.
  unfold column_exprs in Heval.
  destruct (columns table) as [|c cs] eqn:Hcs.
  - cbn in Heval. inversion Heval; subst r.
    intros [|i] x Hx; cbn in Hx; [left; by inversion Hx | by destruct i].
  - rewrite <- Hcs in *. 
    match type of Heval with
    | Db.eval_exprs _ _ (match ?e with _ => _ end) = _ =>
        assert (match e with [] => [ENull] | _ => e end = e) as Hsame
    end.
    { rewrite Hcs. done. }
    rewrite Hsame in Heval. by eapply eval_exprs_masks.
Qed.

Lemma sample_one_inv table_name :
  step_ok (sample_one self table_name) inv (fun _ _ => True).
Proof using Htables.
  intros st u st' Hinv Hrun. split; [|done]. unfold sample_one in Hrun.
  destruct (dict_get table_name (tables self)) as [table|] eqn:Htable.
  2: { cbn in Hrun. by inversion Hrun; subst. }
  apply try_raise_ok in Hrun.
  apply bind_ok in Hrun as (sampled & s1 & Hsample & Hrun).
  destruct (sample_table_db _ _ _ _ _ Hinv Htable Hsample)
    as (Hdb & Hres & Hsam & Hrows).
  apply bind_ok in Hrun as ([] & s2 & Hstore & Hrun).
  unfold store_result, bind, get_state, set_results in Hstore. cbn in Hstore.
  inversion Hstore; subst s2. clear Hstore.
  destruct (has_primary_key table) eqn:Hpk.
  - apply bind_ok in Hrun as (pks & s3 & Hpks & Hrun).
    unfold lift in Hpks.
    destruct (project_all _ _) as [pks'|] eqn:Hproj; [|done].
    inversion Hpks; subst pks' s3. clear Hpks.
    unfold store_sampled, bind, get_state, set_sampled_rows in Hrun. cbn in Hrun.
    inversion Hrun; subst st'. clear Hrun.
    split; cbn [st_conn results sampled_rows].
    + done.
    + intros k t sampled' r Hk Hget Hr. rewrite dict_get_set in Hget.
      destruct (decide (k = table_name)) as [->|Hne].
      * inversion Hget; subst sampled'. rewrite Htable in Hk.
        inversion Hk; subst t. auto.
      * rewrite Hres in Hget. by eapply (inv_source _ Hinv).
    + intros k t present v Hk Hkpk Hget Hv. rewrite !dict_get_set in *.
      destruct (decide (k = table_name)) as [->|Hne].
      * inversion Hget; subst present. rewrite Htable in Hk.
        inversion Hk; subst t. exists sampled. split; [done|].
        apply (proj1 (elem_of_set_of_list _ _)) in Hv.
        unfold key_present. eapply project_all_elem_inv; eauto.
      * rewrite Hsam in Hget. rewrite Hres.
        by eapply (inv_present _ Hinv).
  - cbn in Hrun. inversion Hrun; subst st'. clear Hrun.
    split; cbn [st_conn results sampled_rows].
    + done.
    + intros k t sampled' r Hk Hget Hr. rewrite dict_get_set in Hget.
      destruct (decide (k = table_name)) as [->|Hne].
      * inversion Hget; subst sampled'. rewrite Htable in Hk.
        inversion Hk; subst t. auto.
      * rewrite Hres in Hget. by eapply (inv_source _ Hinv).
    + intros k t present v Hk Hkpk Hget Hv. rewrite dict_get_set.
      destruct (decide (k = table_name)) as [->|Hne].
      * rewrite Htable in Hk. inversion Hk; subst t. congruence.
      * rewrite Hsam in Hget. rewrite Hres. by eapply (inv_present _ Hinv).
Qed.

(** *** Fetching the missing rows *)

Lemma new_rows_of_sub B existing rs out :
  new_rows_of B existing rs = Ok out -> forall r, r ∈ out -> r ∈ rs.
Proof.
  revert existing out. induction rs as [|r0 rs IH]; intros existing out Hnew r Hr;
    cbn in Hnew.
  - inversion Hnew; subst. by apply elem_of_nil in Hr.
  - destruct (has_primary_key B).
    + destruct (project (pk_indices B) r0) as [pk|]; [|done].
      destruct (decide (pk ∈ existing)).
      * right. eauto.
      * destruct (new_rows_of B (set_add pk existing) rs) as [l|] eqn:Hl; [|done].
        inversion Hnew; subst. apply elem_of_cons in Hr as [->|Hr]; [left|right; eauto].
    + destruct (new_rows_of B existing rs) as [l|] eqn:Hl; [|done].
      inversion Hnew; subst. apply elem_of_cons in Hr as [->|Hr]; [left|right; eauto].
Qed.

(** The key of every fetched row is already present or is that of a row
    that is added. *)
Lemma new_rows_of_keys B existing rs out :
  has_primary_key B = true ->
  new_rows_of B existing rs = Ok out ->
  forall r, r ∈ rs ->
    exists pk, project (pk_indices B) r = Ok pk /\
               (pk ∈ existing \/ exists r', r' ∈ out /\ project (pk_indices B) r' = Ok pk).
Proof.
  intros Hpk. revert existing out.
  induction rs as [|r0 rs IH]; intros existing out Hnew r Hr; cbn in Hnew.
  - by apply elem_of_nil in Hr.
  - rewrite Hpk in Hnew.
    destruct (project (pk_indices B) r0) as [pk0|] eqn:Hpk0; [|done].
    destruct (decide (pk0 ∈ existing)) as [Hin|Hnin].
    + apply elem_of_cons in Hr as [->|Hr]; [eauto | eauto].
    + destruct (new_rows_of B (set_add pk0 existing) rs) as [l|] eqn:Hl; [|done].
      inversion Hnew; subst out.
      apply elem_of_cons in Hr as [->|Hr].
      * exists pk0. split; [done|]. right. exists r0. split; [left | done].
      * destruct (IH _ _ Hl r Hr) as (pk & Hp & [Hex | (r' & Hr' & Hp')]).
        -- exists pk. split; [done|].
           apply elem_of_set_add in Hex as [->|Hex]; [|by left].
           right. exists r0. split; [left | done].
        -- exists pk. split; [done|]. right. exists r'. split; [by right | done].
Qed.

(** What the IN query returns: the stored rows that match a tuple. *)
Lemma select_in_rows B cols shape params st cur st1 :
  inv st -> relation_ok B ->
  execute (SelectIn (col_name <$> columns B) (schema B) (name B) cols shape) params st
    = (Ok cur, st1) ->
  st1 = traced st (SelectIn (col_name <$> columns B) (schema B) (name B) cols shape)
               params /\
  (forall r, r ∈ fetched cur -> r ∈ stored B) /\
  (forall src, src ∈ stored B ->
     Db.in_list (col_name <$> columns B) cols (Db.regroup shape params) src = true ->
     src ∈ fetched cur).
Proof.
  intros Hinv (rel & Hrel & Hcols & Hnd & Hlen) Hrun.
  apply execute_ok_db in Hrun as [Hrun ->]. split; [done|].
  cbn [Db.run] in Hrun. unfold Db.run_select_in, Db.relation_of in Hrun.
  rewrite (inv_db _ Hinv) in Hrun. fold (qualified_name B) in Hrun.
  rewrite Hrel in Hrun. destruct (decide _) as [_|_]; [|done].
  destruct (Db.eval_rows _ _ _) as [rs|] eqn:Hrs; [|done].
  inversion Hrun; subst cur. cbn [fetched Db.rows_cursor].
  unfold stored. rewrite Hrel. rewrite Hcols in *. split.
  - intros r Hr. destruct (eval_rows_elem _ _ _ _ _ Hrs Hr) as (src & Hsrc & Heval).
    apply elem_of_scan, list_elem_of_filter in Hsrc as [_ Hsrc].
    apply eval_exprs_all_columns in Heval; [by subst | done |].
    rewrite length_fmap. auto.
  - intros src Hsrc Hin.
    destruct (eval_rows_complete _ _ _ _ src Hrs) as (r & Heval & Hr).
    { apply elem_of_scan, list_elem_of_filter. done. }
    apply eval_exprs_all_columns in Heval; [by subst | done |].
    rewrite length_fmap. auto.
Qed.

Lemma store_result_run k r st :
  store_result k r st
  = (Ok tt, {| st_conn := st_conn st; st_log := st_log st;
               _schema_created := _schema_created st;
               results := dict_set k r (results st);
               sampled_rows := sampled_rows st |}).
Proof. done. Qed.

Lemma store_sampled_run k s st :
  store_sampled k s st
  = (Ok tt, {| st_conn := st_conn st; st_log := st_log st;
               _schema_created := _schema_created st;
               results := results st;
               sampled_rows := dict_set k s (sampled_rows st) |}).
Proof. done. Qed.

Lemma elem_of_foldl_set_add (acc l : list row) x :
  x ∈ foldl (fun s pk => set_add pk s) acc l <-> x ∈ acc \/ x ∈ l.
Proof.
  revert acc. induction l as [|y l IH]; intros acc; cbn.
  - rewrite elem_of_nil. tauto.
  - rewrite IH, elem_of_set_add, elem_of_cons. tauto.
Qed.

(** [_fetch_missing_rows] keeps the invariant, changes the sample of its
    table only, and leaves in it a row with the key of every stored row
    that matches one of the values. *)
Lemma fetch_spec B cols values st u st' :
  inv st -> dict_get (qualified_name B) (tables self) = Some B ->
  _fetch_missing_rows B cols values st = (Ok u, st') ->
  inv st' /\ touches (eq (qualified_name B)) st st' /\
  (has_primary_key B = true ->
   forall v src pk, v ∈ values -> src ∈ stored B ->
     Db.eval_exprs (col_name <$> columns B) src (EColumn <$> cols) = Ok v ->
     no_null v -> project (pk_indices B) src = Ok pk ->
     exists sampled', dict_get (qualified_name B) (results st') = Some sampled' /\
                      key_present sampled' (pk_indices B) pk).
Proof using Htables.
  intros Hinv HB Hrun.
  destruct (table_lookup _ _ HB) as [_ HrelB].
  unfold _fetch_missing_rows in Hrun.
  destruct values as [|v0 vs] eqn:Hvalues.
  { cbn in Hrun. inversion Hrun; subst st'. split_and!; [done | apply touches_refl |].
    intros _ v src pk Hv. by apply elem_of_nil in Hv. }
  rewrite <- Hvalues in *. clear Hvalues v0 vs.
  cbn zeta in Hrun.
  apply bind_ok in Hrun as (cur & s1 & Hexec & Hrun).
  destruct (select_in_rows _ _ _ _ _ _ _ Hinv HrelB Hexec) as (-> & Hsound & Hcomplete).
  rewrite regroup_concat in Hcomplete.
  apply bind_ok in Hrun as (s1' & s1'' & Hget & Hrun).
  inversion Hget; subst s1' s1''. clear Hget.
  cbn [results traced] in Hrun.
  apply bind_ok in Hrun as ([] & s2 & Hinit & Hrun).
  apply bind_ok in Hrun as (current & s2' & Hcur & Hrun).
  apply bind_ok in Hcur as (s2'' & s2''' & Hget & Hcur).
  inversion Hget; subst s2'' s2'''. clear Hget.
  destruct (dict_get (qualified_name B) (results s2)) as [current'|] eqn:Hcurrent; [|done].
  inversion Hcur; subst current' s2'. clear Hcur.
  (* the sample of the table before the rows are added *)
  assert (Db.relations (st_conn s2) = Db.relations db0 /\
          sampled_rows s2 = sampled_rows st /\
          (forall k, k <> qualified_name B ->
                     dict_get k (results s2) = dict_get k (results st)) /\
          (forall r, r ∈ rows current ->
                     exists src, src ∈ stored B /\ masks r src) /\
          (forall sampled, dict_get (qualified_name B) (results st) = Some sampled ->
                           sampled = current)) as (Hdb2 & Hsam2 & Hother2 & Hsrc2 & Hsame2).
  { destruct (dict_mem (qualified_name B) (results st)) eqn:Hmem.
    - inversion Hinit; subst s2. cbn [traced st_conn results sampled_rows Db.relations] in *.
      split_and!; [apply Hinv | done | done | | congruence].
      intros r Hr. by eapply (inv_source _ Hinv).
    - rewrite store_result_run in Hinit. inversion Hinit; subst s2.
      cbn [traced st_conn results sampled_rows Db.relations] in *.
      rewrite dict_get_set, decide_True in Hcurrent by done.
      inversion Hcurrent; subst current. cbn [rows].
      split_and!; [apply Hinv | done | | |].
      + intros k Hk. by rewrite dict_get_set, decide_False.
      + intros r Hr. by apply elem_of_nil in Hr.
      + intros sampled Hs. apply not_true_iff_false in Hmem.
        exfalso. apply Hmem. apply dict_mem_true, dict_get_is_Some. eauto. }
  apply bind_ok in Hrun as (existing_pks & s3 & Hexisting & Hrun).
  apply bind_ok in Hrun as (new_rows & s3' & Hnew & Hrun).
  unfold lift in Hnew.
  destruct (new_rows_of B existing_pks (fetched cur)) as [new_rows'|] eqn:Hnewrows; [|done].
  inversion Hnew; subst new_rows' s3'. clear Hnew.
  assert (s3 = s2 /\
          (has_primary_key B = true ->
           forall pk, pk ∈ existing_pks ->
                      exists r, r ∈ rows current /\ project (pk_indices B) r = Ok pk))
    as [-> Hexist].
  { destruct (has_primary_key B).
    - apply bind_ok in Hexisting as (pks & s & Hpks & Hret).
      unfold lift in Hpks.
      destruct (project_all (pk_indices B) (rows current)) as [pks'|] eqn:Hproj; [|done].
      inversion Hpks; subst pks' s. inversion Hret; subst existing_pks s3.
      split; [done|]. intros _ pk Hpk.
      apply (proj1 (elem_of_set_of_list _ _)) in Hpk.
      by eapply project_all_elem_inv.
    - inversion Hexisting; subst. split; [done | done]. }
  apply bind_ok in Hrun as ([] & s4 & Hstore & Hrun).
  rewrite store_result_run in Hstore. inversion Hstore; subst s4. clear Hstore.
  set (updated := {| table_schema := table_schema current;
                     table_name := table_name current;
                     rows := rows current ++ new_rows;
                     row_count := row_count current + Z.of_nat (length new_rows);
                     limit_applied := limit_applied current |}) in *.
  assert (forall r, r ∈ rows updated -> exists src, src ∈ stored B /\ masks r src)
    as Hsrc_updated.
  { intros r Hr. cbn [rows updated] in Hr. apply elem_of_app in Hr as [Hr|Hr]; [auto|].
    exists r. split; [|apply masks_refl].
    apply Hsound. by eapply new_rows_of_sub. }
  assert (forall k sampled, dict_get k (results st) = Some sampled ->
            exists sampled', dict_get k (dict_set (qualified_name B) updated (results s2))
                             = Some sampled' /\
                             forall r, r ∈ rows sampled -> r ∈ rows sampled') as Hgrows.
  { intros k sampled Hk. rewrite dict_get_set.
    destruct (decide (k = qualified_name B)) as [->|Hne].
    - exists updated. split; [done|]. intros r Hr. cbn [rows updated].
      apply elem_of_app. left. by rewrite <- (Hsame2 _ Hk).
    - exists sampled. by rewrite Hother2. }
  assert (forall k, qualified_name B <> k ->
            dict_get k (dict_set (qualified_name B) updated (results s2))
            = dict_get k (results st)) as Hothers.
  { intros k Hk. rewrite dict_get_set, decide_False by done. by apply Hother2. }
  destruct (has_primary_key B) eqn:Hpk.
  - apply bind_ok in Hrun as (s5 & s5' & Hget & Hrun).
    inversion Hget; subst s5 s5'. clear Hget.
    apply bind_ok in Hrun as (new_pks & s6 & Hpks & Hrun).
    unfold lift in Hpks.
    destruct (project_all (pk_indices B) new_rows) as [new_pks'|] eqn:Hproj; [|done].
    inversion Hpks; subst new_pks' s6. clear Hpks.
    rewrite store_sampled_run in Hrun. inversion Hrun; subst st'. clear Hrun.
    cbn [st_conn results sampled_rows].
    split_and!.
    + split; cbn [st_conn results sampled_rows].
      * done.
      * intros k t sampled r Hk Hget Hr. rewrite dict_get_set in Hget.
        destruct (decide (k = qualified_name B)) as [->|Hne].
        -- inversion Hget; subst sampled. rewrite HB in Hk. inversion Hk; subst t. auto.
        -- rewrite Hother2 in Hget by done. by eapply (inv_source _ Hinv).
      * intros k t present v Hk Hkpk Hget Hv. rewrite dict_get_set in Hget. rewrite dict_get_set.
        destruct (decide (k = qualified_name B)) as [->|Hne].
        -- inversion Hget; subst present. rewrite HB in Hk. inversion Hk; subst t.
           exists updated. split; [done|].
           apply elem_of_foldl_set_add in Hv as [Hv|Hv].
           ++ rewrite Hsam2 in Hv.
              destruct (dict_get (qualified_name B) (sampled_rows st)) as [present|] eqn:Hp;
                cbn in Hv; [|by apply elem_of_nil in Hv].
              destruct (inv_present _ Hinv _ _ _ _ HB Hkpk Hp Hv) as (sampled & Hs & Hkp).
              eapply key_present_grows; [|exact Hkp].
              intros r Hr. cbn [rows updated]. apply elem_of_app. left.
              by rewrite <- (Hsame2 _ Hs).
           ++ destruct (project_all_elem_inv _ _ _ _ Hproj Hv) as (r & Hr & Hp).
              exists r. split; [|done]. cbn [rows updated]. apply elem_of_app. by right.
        -- rewrite Hsam2 in Hget. rewrite Hother2 by done.
           by eapply (inv_present _ Hinv).
    + split; [exact Hgrows | intros k Hk; by apply Hothers].
    + intros _ v src pk Hv Hsrc Heval Hnn Hproj_src.
      exists updated. rewrite dict_get_set, decide_True by done. split; [done|].
      assert (src ∈ fetched cur) as Hfetched.
      { apply Hcomplete; [done|]. unfold Db.in_list. rewrite Heval.
        apply bool_decide_eq_true_2. split; [done|]. by apply elem_of_set_iter. }
      destruct (new_rows_of_keys _ _ _ _ Hpk Hnewrows _ Hfetched)
        as (pk' & Hpk' & Hcases).
      assert (pk' = pk) as -> by congruence.
      destruct Hcases as [Hex | (r' & Hr' & Hp')].
      * destruct (Hexist eq_refl _ Hex) as (r & Hr & Hp).
        exists r. split; [|done]. cbn [rows updated]. apply elem_of_app. by left.
      * exists r'. split; [|done]. cbn [rows updated]. apply elem_of_app. by right.
  - inversion Hrun; subst st'. clear Hrun. cbn [st_conn results sampled_rows].
    split_and!.
    + split; cbn [st_conn results sampled_rows].
      * done.
      * intros k t sampled r Hk Hget Hr. rewrite dict_get_set in Hget.
        destruct (decide (k = qualified_name B)) as [->|Hne].
        -- inversion Hget; subst sampled. rewrite HB in Hk. inversion Hk; subst t. auto.
        -- rewrite Hother2 in Hget by done. by eapply (inv_source _ Hinv).
      * intros k t present v Hk Hkpk Hget Hv. rewrite dict_get_set.
        destruct (decide (k = qualified_name B)) as [->|Hne].
        -- rewrite HB in Hk. inversion Hk; subst t. congruence.
        -- rewrite Hsam2 in Hget. rewrite Hother2 by done.
           by eapply (inv_present _ Hinv).
    + split; [exact Hgrows | intros k Hk; by apply Hothers].
    + done.
Qed.

(** *** One foreign key *)

(** In the source database every row of [A] whose foreign-key values are
    not NULL has a row of [B] it refers to, and the referenced columns of
    that row are its primary key. *)
Definition fk_sound (A : Table) (fk : ForeignKey) (B : Table) : Prop :=
  forall src v, src ∈ stored A ->
    project (column_indices (columns A) (fk_columns fk)) src = Ok v -> no_null v ->
    exists tgt, tgt ∈ stored B /\
      Db.eval_exprs (col_name <$> columns B) tgt (EColumn <$> referenced_columns fk)
        = Ok v /\
      project (pk_indices B) tgt = Ok v.

(** The closure law for one foreign key of table [A], stored under [k]:
    every sampled row of [A] has a NULL among its foreign-key values, or
    these are the key of a sampled row of [B]. *)
Definition closed (k : string) (A : Table) (fk : ForeignKey) (B : Table)
    (d : dict SamplingResult) : Prop :=
  forall sampled r v,
    dict_get k d = Some sampled -> r ∈ rows sampled ->
    project (column_indices (columns A) (fk_columns fk)) r = Ok v ->
    PNone ∈ v \/
    exists ref_sampled, dict_get (fk_ref_table fk) d = Some ref_sampled /\
                        key_present ref_sampled (pk_indices B) v.

Lemma closed_touches (T : string -> Prop) k A fk B st st' :
  touches T st st' -> ~ T k ->
  closed k A fk B (results st) -> closed k A fk B (results st').
Proof.
  intros [Hgrows Hsame] Hk Hclosed sampled r v Hs Hr Hp.
  rewrite (Hsame k Hk) in Hs.
  destruct (Hclosed sampled r v Hs Hr Hp) as [?|(ref_sampled & Href & Hkp)]; [by left|].
  right. destruct (Hgrows _ _ Href) as (ref_sampled' & Href' & Hsub).
  exists ref_sampled'. split; [done|]. by eapply key_present_grows.
Qed.

(** The values [resolve_fk] asks [_fetch_missing_rows] for. *)
Definition missing_of (fk : ForeignKey) (projected : list row) st : list row :=
  let referenced_values := set_of_list (filter no_null projected) in
  match dict_get (fk_ref_table fk) (sampled_rows st) with
  | Some present => set_diff referenced_values present
  | None => referenced_values
  end.

Lemma resolve_fk_run k A fk B st u st' :
  dict_get (fk_ref_table fk) (tables self) = Some B -> has_primary_key B = true ->
  resolve_fk self k A fk st = (Ok u, st') ->
  exists current projected,
    dict_get k (results st) = Some current /\
    project_all (column_indices (columns A) (fk_columns fk)) (rows current)
      = Ok projected /\
    _fetch_missing_rows B (referenced_columns fk) (missing_of fk projected st) st
      = (Ok u, st').
Proof.
  intros HB Hpk Hrun. unfold resolve_fk in Hrun. rewrite HB, Hpk in Hrun.
  cbn [negb] in Hrun. cbn zeta in Hrun.
  apply bind_ok in Hrun as (current & s1 & Hcur & Hrun).
  apply bind_ok in Hcur as (s0 & s0' & Hget & Hcur).
  inversion Hget; subst s0 s0'. clear Hget.
  destruct (dict_get k (results st)) as [current'|] eqn:Hcurrent; [|done].
  inversion Hcur; subst current' s1. clear Hcur.
  apply bind_ok in Hrun as (projected & s1 & Hproj & Hrun).
  unfold lift in Hproj.
  destruct (project_all _ (rows current)) as [projected'|] eqn:Hprojected; [|done].
  inversion Hproj; subst projected' s1. clear Hproj.
  apply bind_ok in Hrun as (s0 & s0' & Hget & Hrun).
  inversion Hget; subst s0 s0'. clear Hget.
  exists current, projected. split_and!; [done | done |].
  fold (missing_of fk projected st) in Hrun.
  destruct (missing_of fk projected st); done.
Qed.

Lemma resolve_fk_step k A fk :
  step_ok (resolve_fk self k A fk) inv (touches (eq (fk_ref_table fk))).
Proof using Htables.
  intros st u st' Hinv Hrun.
  destruct (dict_get (fk_ref_table fk) (tables self)) as [B|] eqn:HB.
  2: { unfold resolve_fk in Hrun. rewrite HB in Hrun. inversion Hrun; subst.
       split; [done | apply touches_refl]. }
  destruct (has_primary_key B) eqn:Hpk.
  2: { unfold resolve_fk in Hrun. rewrite HB, Hpk in Hrun. inversion Hrun; subst.
       split; [done | apply touches_refl]. }
  destruct (resolve_fk_run _ _ _ _ _ _ _ HB Hpk Hrun) as (current & projected & _ & _ & Hfetch).
  destruct (table_lookup _ _ HB) as [Hname _].
  rewrite Hname in HB.
  destruct (fetch_spec _ _ _ _ _ _ Hinv HB Hfetch) as (Hinv' & Htouch & _).
  rewrite Hname. done.
Qed.

(** Right after [resolve_fk] the closure law holds for its foreign key,
    unless the key refers to the table itself. *)
Lemma resolve_fk_closes k A fk B st u st' :
  inv st -> dict_get k (tables self) = Some A ->
  dict_get (fk_ref_table fk) (tables self) = Some B -> has_primary_key B = true ->
  fk_sound A fk B -> fk_ref_table fk <> k ->
  resolve_fk self k A fk st = (Ok u, st') ->
  closed k A fk B (results st').
Proof using Htables.
  intros Hinv HA HB Hpk Hsound Hne Hrun.
  destruct (resolve_fk_run _ _ _ _ _ _ _ HB Hpk Hrun)
    as (current & projected & Hcurrent & Hprojected & Hfetch).
  destruct (table_lookup _ _ HB) as [Hname _].
  assert (dict_get (qualified_name B) (tables self) = Some B) as HB' by by rewrite <- Hname.
  destruct (fetch_spec _ _ _ _ _ _ Hinv HB' Hfetch) as (Hinv' & [Hgrows Hsame] & Hkeys).
  rewrite <- Hname in *.
  intros sampled r v Hs Hr Hp.
  rewrite (Hsame k Hne), Hcurrent in Hs. inversion Hs; subst sampled. clear Hs.
  destruct (decide (PNone ∈ v)) as [Hnull|Hnn]; [by left | right].
  destruct (project_all_elem _ _ _ _ Hprojected Hr) as (v' & Hp' & Hv).
  assert (v' = v) as -> by congruence. clear Hp'.
  assert (v ∈ set_of_list (filter no_null projected)) as Hreferenced.
  { apply elem_of_set_of_list, list_elem_of_filter. done. }
  assert (v ∈ missing_of fk projected st ->
          exists ref_sampled, dict_get (fk_ref_table fk) (results st') = Some ref_sampled /\
                              key_present ref_sampled (pk_indices B) v) as Hmissing.
  { intros Hv_missing.
    destruct (inv_source _ Hinv _ _ _ _ HA Hcurrent Hr) as (src & Hsrc & Hmasks).
    pose proof (project_masks _ _ _ _ Hmasks Hp Hnn) as Hp_src.
    destruct (Hsound _ _ Hsrc Hp_src Hnn) as (tgt & Htgt & Heval & Hpk_tgt).
    by apply (Hkeys Hpk v tgt v). }
  unfold missing_of in Hmissing.
  destruct (dict_get (fk_ref_table fk) (sampled_rows st)) as [present|] eqn:Hpresent;
    [|by auto].
  destruct (decide (v ∈ present)) as [Hin|Hnin].
  - destruct (inv_present _ Hinv _ _ _ _ HB Hpk Hpresent Hin) as (sampled & Hs & Hkp).
    destruct (Hgrows _ _ Hs) as (sampled' & Hs' & Hsub).
    exists sampled'. split; [done|]. by eapply key_present_grows.
  - apply Hmissing. by apply elem_of_set_diff.
Qed.

(** *** The pass over the tables *)

(** Some foreign key of the list refers to table [k]. *)
Definition refers (fks : list ForeignKey) (k : string) : Prop :=
  exists fk, fk ∈ fks /\ fk_ref_table fk = k.

Lemma resolve_fks_step k A fks :
  step_ok (for_each fks (resolve_fk self k A)) inv (touches (refers fks)).
Proof using Htables.
  apply step_ok_for_each; [apply touches_refl | apply touches_trans |].
  intros fk Hfk st u st' Hinv Hrun.
  destruct (resolve_fk_step k A fk _ _ _ Hinv Hrun) as [Hinv' Htouch].
  split; [done|]. eapply touches_weaken; [|done].
  intros k' <-. by exists fk.
Qed.

Lemma resolve_table_step entry :
  step_ok (resolve_table self entry) inv (touches (refers (foreign_keys entry.2))).
Proof using Htables.
  intros st u st' Hinv Hrun. unfold resolve_table in Hrun.
  apply bind_ok in Hrun as (s0 & s0' & Hget & Hrun).
  inversion Hget; subst s0 s0'. clear Hget.
  destruct (dict_mem entry.1 (results st)).
  - by eapply resolve_fks_step.
  - inversion Hrun; subst. split; [done | apply touches_refl].
Qed.

(** Some foreign key of a table of the list refers to table [k]. *)
Definition referred (entries : list (string * Table)) (k : string) : Prop :=
  exists entry, entry ∈ entries /\ refers (foreign_keys entry.2) k.

Lemma resolve_tables_step entries :
  step_ok (for_each entries (resolve_table self)) inv (touches (referred entries)).
Proof using Htables.
  apply step_ok_for_each; [apply touches_refl | apply touches_trans |].
  intros entry Hentry st u st' Hinv Hrun.
  destruct (resolve_table_step entry _ _ _ Hinv Hrun) as [Hinv' Htouch].
  split; [done|]. eapply touches_weaken; [|done].
  intros k' Hk'. by exists entry.
Qed.

Lemma sample_phase_inv order :
  step_ok (for_each order (sample_one self)) inv (fun _ _ => True).
Proof using Htables.
  apply step_ok_for_each; [done | done |].
  intros table_name _. apply sample_one_inv.
Qed.

(** The pass closes a foreign key of [A] when no foreign key that is
    processed from then on, this one included, refers to [A]. *)
Lemma resolve_foreign_keys_closes pre_t A post_t pre_f fk post_f B st u st' :
  inv st ->
  tables self = pre_t ++ (qualified_name A, A) :: post_t ->
  foreign_keys A = pre_f ++ fk :: post_f ->
  dict_get (fk_ref_table fk) (tables self) = Some B -> has_primary_key B = true ->
  fk_sound A fk B ->
  ~ refers (fk :: post_f) (qualified_name A) ->
  ~ referred post_t (qualified_name A) ->
  _resolve_foreign_keys self st = (Ok u, st') ->
  closed (qualified_name A) A fk B (results st').
Proof using Htables.
  intros Hinv Htabs Hfks HB Hpk Hsound Hlater_f Hlater_t Hrun.
  assert (dict_get (qualified_name A) (tables self) = Some A) as HA.
  { apply table_entry. rewrite Htabs. apply elem_of_app. right. left. }
  unfold _resolve_foreign_keys in Hrun. rewrite Htabs in Hrun.
  apply for_each_app_ok in Hrun as (s1 & Hpre & Hrun).
  destruct (resolve_tables_step pre_t _ _ _ Hinv Hpre) as [Hinv1 _].
  apply for_each_cons_ok in Hrun as (s2 & Htable & Hpost).
  assert (inv s2 /\ closed (qualified_name A) A fk B (results s2)) as [Hinv2 Hclosed2].
  { unfold resolve_table in Htable.
    apply bind_ok in Htable as (s0 & s0' & Hget & Htable).
    inversion Hget; subst s0 s0'. clear Hget. cbn [fst snd] in Htable.
    destruct (dict_mem (qualified_name A) (results s1)) eqn:Hmem.
    - rewrite Hfks in Htable.
      apply for_each_app_ok in Htable as (sa & Hpre_f & Htable).
      destruct (resolve_fks_step _ _ pre_f _ _ _ Hinv1 Hpre_f) as [Hinva _].
      apply for_each_cons_ok in Htable as (sb & Hfk & Hpost_f).
      destruct (resolve_fk_step _ _ _ _ _ _ Hinva Hfk) as [Hinvb _].
      destruct (resolve_fks_step _ _ post_f _ _ _ Hinvb Hpost_f) as [Hinv2 Htouch].
      split; [done|]. eapply closed_touches; [exact Htouch | |].
      + intros (fk' & Hfk' & Href). apply Hlater_f. exists fk'. split; [by right | done].
      + apply (resolve_fk_closes _ _ _ _ sa tt sb Hinva HA HB Hpk Hsound); [|exact Hfk].
        intros Href. apply Hlater_f. exists fk. split; [left | done].
    - inversion Htable; subst s2. split; [done|].
      intros sampled r v Hs. apply not_true_iff_false in Hmem.
      exfalso. apply Hmem. apply dict_mem_true, dict_get_is_Some. eauto. }
  destruct (resolve_tables_step post_t _ _ _ Hinv2 Hpost) as [_ Htouch].
  by eapply closed_touches.
Qed.

(** C1, as the code has it.  In direct mode [sample_all] resolves the
    foreign keys in a single pass over [self.tables], in the order of the
    dictionary and without iterating to a fixpoint.  On a database that has
    the tables as described and satisfies the foreign key [fk] of [A] to
    [B], whose referenced columns are the primary key of [B], a run that
    succeeds returns samples in which every row of [A] has a NULL among its
    values for [fk], or these values are the primary key of a sampled row
    of [B] -- provided no foreign key the pass handles from [fk] on ([fk]
    itself, the later keys of [A], the keys of the tables after [A]) refers
    to [A]. *)
Theorem single_pass_closure pre_t A post_t pre_f fk post_f B d st' :
  use_staging self = false ->
  tables self = pre_t ++ (qualified_name A, A) :: post_t ->
  foreign_keys A = pre_f ++ fk :: post_f ->
  dict_get (fk_ref_table fk) (tables self) = Some B ->
  has_primary_key B = true ->
  fk_sound A fk B ->
  ~ refers (fk :: post_f) (qualified_name A) ->
  ~ referred post_t (qualified_name A) ->
  sample_all self (initial_state db0) = (Ok d, st') ->
  closed (qualified_name A) A fk B d.
Proof using Htables.
  intros Hmode Htabs Hfks HB Hpk Hsound Hlater_f Hlater_t Hrun.
  unfold sample_all in Hrun. rewrite Hmode in Hrun. unfold _sample_direct in Hrun.
  apply bind_ok in Hrun as (order & s0 & Horder & Hrun).
  assert (s0 = initial_state db0) as ->.
  { unfold insertion_order_of_resolver in Horder.
    destruct (Dependencies.get_insertion_order _); by inversion Horder. }
  apply bind_ok in Hrun as ([] & s1 & Hsample & Hrun).
  destruct (sample_phase_inv order _ _ _ inv_initial Hsample) as [Hinv1 _].
  apply bind_ok in Hrun as ([] & s2 & Hresolve & Hrun).
  apply try_raise_ok in Hresolve.
  apply bind_ok in Hrun as (s3 & s3' & Hget & Hret).
  inversion Hget; subst s3 s3'. inversion Hret; subst d st'.
  by eapply (resolve_foreign_keys_closes pre_t A post_t pre_f fk post_f B s1 tt s2).
Qed.

End Closure.

Section ClosureExamples.
Import Sampling Examples.
#[local] Existing Instance insertion_order.
#[local] Existing Instance Db.stored_order.

Lemma shop_tables_ok : tables_ok (direct_engine shop one_row_each []) shop_db.
Proof.
  split; [apply tables_dict_wf|].
  intros k t Hin. vm_compute in Hin.
  repeat (apply elem_of_cons in Hin as [Hin|Hin]); [| | |by apply elem_of_nil in Hin].
  all: inversion Hin; subst k t; clear Hin; split; [reflexivity|].
  all: eexists; split; [vm_compute; reflexivity|]; split; [reflexivity|].
  all: split; [apply (bool_decide_unpack _); vm_compute; exact I|].
  all: intros src Hsrc; cbn in Hsrc.
  all: repeat (apply elem_of_cons in Hsrc as [->|Hsrc]; [reflexivity|]).
  all: by apply elem_of_nil in Hsrc.
Qed.

(** The chain sampled with one row per table: the order fetched for the
    item is the only row that is added, so the key from [c_items] to
    [b_orders], the last the pass handles, is closed. *)
Lemma single_pass_closure_witness :
  exists d st',
    sample_all (direct_engine shop one_row_each []) (initial_state shop_db)
      = (Ok d, st') /\
    closed "public.c_items" items items_order_fk orders d.
Proof.
  eexists _, _. split; [vm_compute; reflexivity|].
  eapply (single_pass_closure (direct_engine shop one_row_each []) shop_db
           shop_tables_ok
           [("public.a_users", users); ("public.b_orders", orders)] items []
           [] items_order_fk [] orders).
  - reflexivity.
  - vm_compute. reflexivity.
  - reflexivity.
  - vm_compute. reflexivity.
  - reflexivity.
  - intros src v Hsrc Hp Hnn. cbn in Hsrc.
    apply elem_of_cons in Hsrc as [->|Hsrc]; [|by apply elem_of_nil in Hsrc].
    vm_compute in Hp. inversion Hp; subst v.
    exists [PInt 2; PInt 2]. split_and!; [right; left | reflexivity | reflexivity].
  - intros (fk' & Hin & Href).
    apply elem_of_cons in Hin as [->|Hin]; [|by apply elem_of_nil in Hin].
    vm_compute in Href. discriminate.
  - intros (entry & Hin & _). by apply elem_of_nil in Hin.
  - vm_compute. reflexivity.
Defined.

(** The same run breaks the closure law for the key from [b_orders] to
    [a_users]: the pass handles it before the key of [c_items], which then
    adds the order (2, 2), and user 2 is not sampled.  The tables form a
    chain, without a cycle. *)
Lemma single_pass_breaks_closure :
  exists d st',
    sample_all (direct_engine shop one_row_each []) (initial_state shop_db)
      = (Ok d, st') /\
    ~ closed "public.b_orders" orders orders_user_fk users d.
Proof.
  eexists _, _. split; [vm_compute; reflexivity|].
  intros Hc.
  match type of Hc with
  | closed _ _ _ _ ?d =>
      assert (exists sampled, dict_get "public.b_orders" d = Some sampled /\
                rows sampled = [[PInt 1; PInt 1]; [PInt 2; PInt 2]])
        as (sampled & Hs & Hrows) by (vm_compute; eauto)
  end.
  destruct (Hc sampled [PInt 2; PInt 2] [PInt 2] Hs)
    as [Hnull | (ref_sampled & Href & r' & Hr' & Hp')].
  - rewrite Hrows. right. left.
  - reflexivity.
  - apply elem_of_cons in Hnull as [?|Hnull]; [done | by apply elem_of_nil in Hnull].
  - vm_compute in Href. inversion Href; subst ref_sampled. cbn in Hr'.
    apply elem_of_cons in Hr' as [->|Hr']; [|by apply elem_of_nil in Hr'].
    vm_compute in Hp'. discriminate.
Qed.

End ClosureExamples.

(** * Further properties *)

(** ** The dependency graphs *)

Section GraphShape.
Import Dependencies.

(** [_build_graph] records an edge from [a] to [b] exactly when the known
    table [a] declares a foreign key that references the known table [b];
    the reverse graph holds the same edges the other way round, and no
    adjacency set lists a table twice. *)
Theorem graphs_are_converse (tbls : list Table) (a b : string) :
  (b ∈ dd_get a (_dependency_graph (new tbls)) <-> edge (tables_dict tbls) a b) /\
  (a ∈ dd_get b (_reverse_graph (new tbls))
   <-> b ∈ dd_get a (_dependency_graph (new tbls))) /\
  NoDup (dd_get a (_dependency_graph (new tbls))) /\
  NoDup (dd_get b (_reverse_graph (new tbls))).
Proof.
  split_and!.
  - apply dependency_graph_edge.
  - etransitivity; [apply reverse_graph_edge | symmetry; apply dependency_graph_edge].
  - apply (build_graph_ok (tables_dict tbls)).
  - apply (build_graph_ok (tables_dict tbls)).
Qed.

End GraphShape.

(** ** [has_circular_dependencies] *)

Section CircularFlag.
Import Dependencies.
Context `{PySetOrder}.

(** The insertion order lists the known tables, each of them once. *)
Lemma insertion_order_perm (tbls : list Table) :
  exists res,
    kahn_result (new tbls) = Some res /\
    get_insertion_order (new tbls)
      = Some (res ++ set_iter (remaining (new tbls) res)) /\
    res ++ set_iter (remaining (new tbls) res) ≡ₚ dict_keys (tables_dict tbls).
Proof.
  destruct (kahn_result_spec tbls) as (res & Hres & Hnd & Hknown & _).
  exists res. split_and!; [done | by apply get_insertion_order_eq |].
  apply NoDup_Permutation; [| apply (known_NoDup tbls) |].
  - apply NoDup_app. split_and!; [done | |].
    + intros x Hx Hx'. apply elem_of_set_iter, elem_of_remaining in Hx'. tauto.
    + apply NoDup_set_iter, NoDup_list_difference, known_NoDup.
  - intros x. rewrite elem_of_app, elem_of_set_iter, elem_of_remaining. cbn.
    split; [intros [?|[? _]]; auto|]. intros Hx.
    destruct (decide (x ∈ res)); auto.
Qed.

(** [has_circular_dependencies] answers [False] for every list of tables,
    with or without a cycle among them: the tables Kahn's loop leaves over
    are appended to the insertion order, which is therefore never shorter
    than [self.tables]. *)
Theorem has_circular_dependencies_false (tbls : list Table) :
  has_circular_dependencies (new tbls) = Some false.
Proof.
  destruct (insertion_order_perm tbls) as (res & _ & Hget & Hperm).
  unfold has_circular_dependencies. rewrite Hget. cbn. f_equal.
  apply bool_decide_eq_false_2. rewrite Hperm.
  unfold dict_keys. rewrite length_fmap. lia.
Qed.

End CircularFlag.

(** ** The breadth-first walks compute reachability *)

Section Reachability.
Import Dependencies.
Context `{PySetOrder}.

Lemma tc_iff {A} (R S : relation A) :
  (forall a b, R a b <-> S a b) -> forall a b, tc R a b <-> tc S a b.
Proof.
  intros HRS a b. split; induction 1 as [x y Hxy|x y z Hxy _ IH].
  - apply tc_once. by apply HRS.
  - eapply tc_l; [by apply HRS | done].
  - apply tc_once. by apply HRS.
  - eapply tc_l; [by apply HRS | done].
Qed.

Lemma tc_flip {A} (R : relation A) a b : tc (flip R) a b <-> tc R b a.
Proof.
  split; induction 1 as [x y Hxy|x y z Hxy _ IH].
  - by apply tc_once.
  - eapply tc_r; [exact IH | exact Hxy].
  - by apply tc_once.
  - eapply tc_r; [exact IH | exact Hxy].
Qed.

Variable graph : dict (list string).
Variable t : string.

(** [b] is in the adjacency set of [a]. *)
Let E : relation string := fun a b => b ∈ dd_get a graph.

Lemma bfs_visit_fold_spec visited deps : forall found queue found' queue',
  foldl (bfs_visit visited) (found, queue) deps = (found', queue') ->
  (forall x, x ∈ found' <-> x ∈ found \/ (x ∈ deps /\ x ∉ visited)) /\
  (forall x, x ∈ queue' <-> x ∈ queue \/ (x ∈ deps /\ x ∉ visited)) /\
  (NoDup found -> NoDup found').
Proof.
  induction deps as [|d ds IH]; intros found queue found' queue' Hf.
  { cbn in Hf. inversion Hf; subst. split_and!; [| | done];
      intros x; rewrite elem_of_nil; tauto. }
  cbn [foldl] in Hf. unfold bfs_visit at 2 in Hf.
  destruct (decide (d ∈ visited)) as [Hd|Hd].
  - destruct (IH _ _ _ _ Hf) as (Hfound & Hqueue & Hnd).
    split_and!; [| | done]; intros x; rewrite ?Hfound, ?Hqueue, elem_of_cons.
    + split; [tauto|]. intros [?|[[->|?] ?]]; tauto.
    + split; [tauto|]. intros [?|[[->|?] ?]]; tauto.
  - cbn [fst snd] in Hf. destruct (IH _ _ _ _ Hf) as (Hfound & Hqueue & Hnd).
    split_and!.
    + intros x. rewrite Hfound, elem_of_set_add, elem_of_cons.
      split; [intros [[->|?]|[? ?]]; eauto | intros [?|[[->|?] ?]]; eauto].
    + intros x. rewrite Hqueue, elem_of_app, list_elem_of_singleton, elem_of_cons.
      split; [intros [[?| ->]|[? ?]]; eauto | intros [?|[[->|?] ?]]; eauto].
    + intros Hn. apply Hnd. by apply NoDup_set_add.
Qed.

(** What holds each time the [while queue] condition is tested. *)
Record bfs_inv (visited queue found : list string) : Prop := {
  bi_start : t ∈ visited \/ head queue = Some t;
  bi_not_found : t ∉ found;
  bi_nodup : NoDup found;
  bi_sound : forall x, x ∈ found -> tc E t x;
  bi_reach : forall x, x ∈ visited ++ queue -> rtc E t x;
  bi_covered : forall x, x ∈ visited ++ queue -> x = t \/ x ∈ found;
  bi_closed : forall v w, v ∈ visited -> E v w -> w ∈ visited \/ w ∈ queue
}.

Lemma bfs_inv_initial : bfs_inv [] [t] [].
Proof.
  split.
  - by right.
  - apply not_elem_of_nil.
  - apply NoDup_nil_2.
  - intros x Hx. by apply elem_of_nil in Hx.
  - intros x Hx. apply list_elem_of_singleton in Hx as ->. done.
  - intros x Hx. apply list_elem_of_singleton in Hx as ->. by left.
  - intros v w Hv. by apply elem_of_nil in Hv.
Qed.

Lemma bfs_inv_skip visited current queue found :
  bfs_inv visited (current :: queue) found -> current ∈ visited ->
  bfs_inv visited queue found.
Proof.
  intros [Hstart Hnf Hnd Hsound Hreach Hcov Hclosed] Hcur. split; try done.
  - destruct Hstart as [?|Hhead]; [by left|]. cbn in Hhead. inversion Hhead; subst.
    by left.
  - intros x Hx. apply Hreach. rewrite elem_of_app, elem_of_cons.
    apply elem_of_app in Hx. tauto.
  - intros x Hx. apply Hcov. rewrite elem_of_app, elem_of_cons.
    apply elem_of_app in Hx. tauto.
  - intros v w Hv Hvw. destruct (Hclosed v w Hv Hvw) as [?|Hw]; [by left|].
    apply elem_of_cons in Hw as [->|?]; auto.
Qed.

Lemma bfs_inv_step visited current queue found found' queue' :
  bfs_inv visited (current :: queue) found -> current ∉ visited ->
  foldl (bfs_visit (set_add current visited)) (found, queue)
        (set_iter (dd_get current graph)) = (found', queue') ->
  bfs_inv (set_add current visited) queue' found'.
Proof.
  intros [Hstart Hnf Hnd Hsound Hreach Hcov Hclosed] Hcur Hfold.
  destruct (bfs_visit_fold_spec _ _ _ _ _ _ Hfold) as (Hfound & Hqueue & Hnd').
  assert (t ∈ set_add current visited) as Htv.
  { apply elem_of_set_add. destruct Hstart as [?|Hhead]; [by right|].
    cbn in Hhead. inversion Hhead. by left. }
  assert (rtc E t current) as Hrc.
  { apply Hreach. rewrite elem_of_app, elem_of_cons. auto. }
  split.
  - by left.
  - rewrite Hfound. intros [?|[_ ?]]; done.
  - auto.
  - intros x Hx. apply Hfound in Hx as [?|[Hx _]]; [auto|].
    apply (proj1 (elem_of_set_iter _ _)) in Hx. eapply tc_rtc_l; [exact Hrc | apply tc_once; exact Hx].
  - intros x Hx. apply elem_of_app in Hx as [Hx|Hx].
    + apply elem_of_set_add in Hx as [->|Hx]; [done|].
      apply Hreach. apply elem_of_app. by left.
    + apply Hqueue in Hx as [Hx|[Hx _]].
      * apply Hreach. rewrite elem_of_app, elem_of_cons. auto.
      * apply (proj1 (elem_of_set_iter _ _)) in Hx. eapply rtc_r; [exact Hrc | exact Hx].
  - intros x Hx. apply elem_of_app in Hx as [Hx|Hx].
    + assert (x ∈ visited ++ current :: queue) as Hx'.
      { rewrite elem_of_app, elem_of_cons.
        apply elem_of_set_add in Hx as [->|?]; auto. }
      destruct (Hcov x Hx') as [?|?]; [by left | right]. apply Hfound. by left.
    + apply Hqueue in Hx as [Hx|[Hx Hxv]].
      * destruct (Hcov x) as [?|?]; [| by left |].
        { rewrite elem_of_app, elem_of_cons. auto. }
        right. apply Hfound. by left.
      * right. apply Hfound. by right.
  - intros v w Hv Hvw. destruct (decide (w ∈ set_add current visited)); [by left|].
    right. apply Hqueue. apply elem_of_set_add in Hv as [->|Hv].
    + right. split; [|done]. by apply elem_of_set_iter.
    + destruct (Hclosed v w Hv Hvw) as [Hw|Hw].
      * exfalso. apply n. apply elem_of_set_add. by right.
      * apply elem_of_cons in Hw as [->|?]; [|by left].
        exfalso. apply n. apply elem_of_set_add. by left.
Qed.

Lemma bfs_inv_final visited found :
  bfs_inv visited [] found ->
  NoDup found /\ forall x, x ∈ found <-> x <> t /\ tc E t x.
Proof.
  intros [Hstart Hnf Hnd Hsound Hreach Hcov Hclosed]. split; [done|].
  assert (t ∈ visited) as Ht by (destruct Hstart as [?|?]; done).
  intros x. split.
  - intros Hx. split; [intros ->; done | auto].
  - intros [Hne Htc].
    assert (forall a b, rtc E a b -> a ∈ visited -> b ∈ visited) as Hclos.
    { induction 1 as [|a b c Hab _ IH]; [done|]. intros Ha. apply IH.
      destruct (Hclosed a b Ha Hab) as [?|Hq]; [done | by apply elem_of_nil in Hq]. }
    assert (x ∈ visited) as Hx by (eapply Hclos; [by apply tc_rtc | done]).
    destruct (Hcov x) as [?|?]; [| done | done].
    rewrite app_nil_r. done.
Qed.

(** With enough fuel the walk returns the tables other than the start that
    can be reached from it. *)
Lemma bfs_loop_reach : forall fuel visited queue found,
  (length queue + bfs_weight graph visited <= fuel)%nat ->
  bfs_inv visited queue found ->
  exists s, bfs_loop fuel graph visited queue found = Some s /\
            NoDup s /\ forall x, x ∈ s <-> x <> t /\ tc E t x.
Proof.
  induction fuel as [|fuel IH]; intros visited queue found Hfuel Hinv.
  { destruct queue; [| cbn in Hfuel; lia]. cbn. exists found.
    split; [done | by apply bfs_inv_final with visited]. }
  destruct queue as [|current queue'].
  { cbn. exists found. split; [done | by apply bfs_inv_final with visited]. }
  cbn [bfs_loop]. destruct (decide (current ∈ visited)) as [Hcv|Hcv].
  - apply IH; [cbn in Hfuel; lia | by eapply bfs_inv_skip].
  - destruct (foldl _ _ _) as [found' queue''] eqn:Hfold.
    pose proof (bfs_inv_step _ _ _ _ _ _ Hinv Hcv Hfold) as Hinv'.
    apply IH; [|done].
    destruct (bfs_visit_fold _ t _ _ _ _ _ Hfold) as [_ Hlen].
    { apply elem_of_set_add. destruct (bi_start _ _ _ Hinv) as [?|Hhead]; [by right|].
      cbn in Hhead. inversion Hhead. by left. }
    { apply Hinv. }
    rewrite length_set_iter in Hlen.
    pose proof (bfs_weight_visit graph visited current Hcv). cbn in Hfuel. lia.
Qed.

Lemma bfs_from_reach :
  exists s, bfs_loop (bfs_fuel graph) graph [] [t] [] = Some s /\
            NoDup s /\ forall x, x ∈ s <-> x <> t /\ tc E t x.
Proof.
  apply bfs_loop_reach; [|apply bfs_inv_initial].
  unfold bfs_fuel. rewrite bfs_weight_nil. cbn. lia.
Qed.

End Reachability.

Section Closures.
Import Dependencies.
Context `{PySetOrder}.

Lemma dependencies_spec (tbls : list Table) (t : string) :
  exists s, get_dependencies (new tbls) t = Some s /\ NoDup s /\
            forall x, x ∈ s <-> x <> t /\ tc (edge (tables_dict tbls)) t x.
Proof.
  destruct (bfs_from_reach (_dependency_graph (new tbls)) t) as (s & Hs & Hnd & Hx).
  exists s. split_and!; [done | done |]. intros x. rewrite Hx.
  assert (tc (fun a b => b ∈ dd_get a (_dependency_graph (new tbls))) t x
          <-> tc (edge (tables_dict tbls)) t x) as ->; [|done].
  apply tc_iff. intros a b. apply dependency_graph_edge.
Qed.

Lemma dependent_tables_spec (tbls : list Table) (t : string) :
  exists s, get_dependent_tables (new tbls) t = Some s /\ NoDup s /\
            forall x, x ∈ s <-> x <> t /\ tc (edge (tables_dict tbls)) x t.
Proof.
  destruct (bfs_from_reach (_reverse_graph (new tbls)) t) as (s & Hs & Hnd & Hx).
  exists s. split_and!; [done | done |]. intros x. rewrite Hx.
  assert (tc (fun a b => b ∈ dd_get a (_reverse_graph (new tbls))) t x
          <-> tc (edge (tables_dict tbls)) x t) as ->; [|done].
  etransitivity; [|apply tc_flip].
  apply tc_iff. intros a b. apply reverse_graph_edge.
Qed.

(** [get_dependencies(t)] returns, each once, exactly the tables other than
    [t] that [t] reaches through one or more foreign keys between known
    tables. *)
Theorem get_dependencies_reachable (tbls : list Table) (t : string) :
  exists s, get_dependencies (new tbls) t = Some s /\ NoDup s /\
            forall x, x ∈ s <-> x <> t /\ tc (edge (tables_dict tbls)) t x.
Proof. apply dependencies_spec. Qed.

(** [get_dependent_tables(t)] returns, each once, exactly the tables other
    than [t] that reach [t] through one or more foreign keys between known
    tables. *)
Theorem get_dependent_tables_reachable (tbls : list Table) (t : string) :
  exists s, get_dependent_tables (new tbls) t = Some s /\ NoDup s /\
            forall x, x ∈ s <-> x <> t /\ tc (edge (tables_dict tbls)) x t.
Proof. apply dependent_tables_spec. Qed.

(** The two walks agree: [b] is a dependency of [a] exactly when [a] is a
    dependent table of [b]. *)
Theorem dependencies_dependents_dual (tbls : list Table) (a b : string) :
  (exists s, get_dependencies (new tbls) a = Some s /\ b ∈ s) <->
  (exists s, get_dependent_tables (new tbls) b = Some s /\ a ∈ s).
Proof.
  destruct (dependencies_spec tbls a) as (s1 & Hs1 & _ & Hx1).
  destruct (dependent_tables_spec tbls b) as (s2 & Hs2 & _ & Hx2).
  split.
  - intros (s & Hs & Hb). rewrite Hs1 in Hs. inversion Hs; subst s.
    exists s2. split; [done|]. apply Hx2. apply Hx1 in Hb as [? ?]. split; [congruence | done].
  - intros (s & Hs & Ha). rewrite Hs2 in Hs. inversion Hs; subst s.
    exists s1. split; [done|]. apply Hx1. apply Hx2 in Ha as [? ?]. split; [congruence | done].
Qed.

End Closures.

(** ** Schemas without cycles *)

Section Walks.
Context {A : Type} {eq_dec : EqDecision A}.
Variable R : relation A.

(** Consecutive elements of the list are related. *)
Definition walk (p : list A) : Prop :=
  forall i a b, p !! i = Some a -> p !! S i = Some b -> R a b.

Lemma walk_cons_inv a p : walk (a :: p) -> walk p.
Proof. intros Hw i x y Hx Hy. by apply (Hw (S i)). Qed.

Lemma walk_app_inv p q : walk (p ++ q) -> walk q.
Proof. induction p as [|a p IH]; [done|]. intros Hw. apply IH. by eapply walk_cons_inv. Qed.

Lemma walk_prefix p q : walk (p ++ q) -> walk p.
Proof.
  intros Hw i a b Ha Hb. apply (Hw i); by apply lookup_app_l_Some.
Qed.

Lemma walk_cons a b p : R a b -> walk (b :: p) -> walk (a :: b :: p).
Proof.
  intros Hab Hw [|i] x y Hx Hy; cbn in *.
  - by inversion Hx; inversion Hy; subst.
  - by apply (Hw i).
Qed.

Lemma walk_tc a p b : walk (a :: p ++ [b]) -> tc R a b.
Proof.
  revert a. induction p as [|c p IH]; intros a Hw.
  - apply tc_once. by apply (Hw 0%nat).
  - eapply tc_l; [by apply (Hw 0%nat) | apply IH; by eapply walk_cons_inv].
Qed.

Lemma tc_walk a b : tc R a b -> exists p, walk (a :: p ++ [b]).
Proof.
  induction 1 as [x y Hxy|x y z Hxy _ (p & Hp)].
  - exists []. intros [|[|i]] a b Ha Hb; cbn in *; try done.
    by inversion Ha; inversion Hb; subst.
  - exists (y :: p). by apply walk_cons.
Qed.

Lemma dup_split (l : list A) :
  ~ NoDup l -> exists l1 z l2 l3, l = l1 ++ z :: l2 ++ z :: l3.
Proof using eq_dec.
  induction l as [|a l IH]; intros Hn.
  { destruct Hn. apply NoDup_nil_2. }
  destruct (decide (a ∈ l)) as [Ha|Ha].
  - apply list_elem_of_split in Ha as (l2 & l3 & ->). by exists [], a, l2, l3.
  - destruct IH as (l1 & z & l2 & l3 & ->).
    { intros Hnd. apply Hn. by apply NoDup_cons. }
    by exists (a :: l1), z, l2, l3.
Qed.

(** A finite set in which every element has a successor holds a cycle. *)
Lemma no_sink_cycle (L : list A) :
  L <> [] -> (forall x, x ∈ L -> exists y, y ∈ L /\ R x y) -> exists x, tc R x x.
Proof using eq_dec.
  intros Hne Hsucc.
  assert (forall n x, x ∈ L ->
            exists p, length p = n /\ walk (x :: p) /\ forall y, y ∈ x :: p -> y ∈ L)
    as Hwalk.
  { induction n as [|n IH]; intros x Hx.
    - exists []. split_and!; [done | |].
      + intros [|i] a b Ha Hb; cbn in *; done.
      + intros y Hy. apply list_elem_of_singleton in Hy as ->. done.
    - destruct (Hsucc x Hx) as (y & Hy & Hxy).
      destruct (IH y Hy) as (p & Hlen & Hw & Hin).
      exists (y :: p). split_and!; [cbn; by rewrite Hlen | by apply walk_cons |].
      intros z Hz. apply elem_of_cons in Hz as [->|Hz]; auto. }
  destruct L as [|x0 L0]; [done|].
  destruct (Hwalk (length (x0 :: L0)) x0 ltac:(left)) as (p & Hlen & Hw & Hin).
  destruct (decide (NoDup (x0 :: p))) as [Hnd|Hnd].
  { assert (length (x0 :: p) <= length (x0 :: L0))%nat as Hle.
    { apply submseteq_length, NoDup_submseteq; [done|]. intros y Hy. auto. }
    cbn in Hle, Hlen. lia. }
  apply dup_split in Hnd as (l1 & z & l2 & l3 & Heq).
  exists z. apply (walk_tc z l2 z).
  rewrite Heq in Hw. apply walk_app_inv in Hw.
  replace (z :: l2 ++ z :: l3) with ((z :: l2 ++ [z]) ++ l3) in Hw.
  - by apply walk_prefix in Hw.
  - cbn. by rewrite <- app_assoc.
Qed.

(** A relation that strictly decreases a rank has no cycle. *)
Lemma ranked_acyclic (rank : A -> nat) :
  (forall a b, R a b -> (rank b < rank a)%nat) -> forall x, ~ tc R x x.
Proof.
  intros Hrank x Hx.
  assert (forall a b, tc R a b -> (rank b < rank a)%nat) as Htc.
  { induction 1 as [a b Hab|a b c Hab _ IH]; [auto|]. 
    pose proof (Hrank a b Hab). lia. }
  pose proof (Htc x x Hx). lia.
Qed.

End Walks.

Section Acyclic.
Import Dependencies.
Context `{PySetOrder}.

Lemma strictly_before_reverse (a b : string) (l : list string) :
  strictly_before b a l -> strictly_before a b (reverse l).
Proof.
  intros (l1 & l2 & l3 & ->). exists (reverse l3), (reverse l2), (reverse l1).
  rewrite reverse_app, reverse_cons, reverse_app, reverse_cons.
  rewrite <- !app_assoc. cbn. done.
Qed.

(** A table Kahn's loop leaves over references a table it leaves over. *)
Lemma leftover_references_leftover (tbls : list Table) (res : list string) (x : string) :
  kahn_result (new tbls) = Some res ->
  x ∈ remaining (new tbls) res ->
  exists b, b ∈ remaining (new tbls) res /\ edge (tables_dict tbls) x b.
Proof.
  intros Hres Hx.
  destruct (kahn_result_spec tbls) as (res' & Hres' & _ & _ & Hready & _).
  rewrite Hres in Hres'. inversion Hres'; subst res'. clear Hres'.
  apply elem_of_remaining in Hx as [Hx Hnx].
  destruct (list_difference (dd_get x (_dependency_graph (new tbls))) res)
    as [|b rest] eqn:Hdiff.
  - exfalso. apply Hnx. apply (Hready x Hx). by apply list_difference_eq_nil.
  - assert (b ∈ list_difference (dd_get x (_dependency_graph (new tbls))) res)
      as Hb by (rewrite Hdiff; left).
    apply list_elem_of_difference in Hb as [Hb Hbr].
    apply dep_edge in Hb. exists b. split; [|done].
    apply elem_of_remaining. split; [|done].
    by apply (edge_known tbls) in Hb as [_ ?].
Qed.

(** Without a cycle Kahn's loop emits every table, each after the tables it
    references. *)
Lemma acyclic_insertion_order (tbls : list Table) :
  (forall x, ~ tc (edge (tables_dict tbls)) x x) ->
  exists l, get_insertion_order (new tbls) = Some l /\
            l ≡ₚ dict_keys (tables_dict tbls) /\
            forall a b, edge (tables_dict tbls) a b -> strictly_before b a l.
Proof.
  intros Hacyclic.
  destruct (kahn_result_spec tbls) as (res & Hres & Hnd & Hknown & Hready & Horder).
  destruct (insertion_order_perm tbls) as (res' & Hres' & Hget & Hperm).
  rewrite Hres in Hres'. inversion Hres'; subst res'. clear Hres'.
  assert (remaining (new tbls) res = []) as Hempty.
  { destruct (remaining (new tbls) res) as [|x0 L] eqn:HL; [done|]. exfalso.
    destruct (no_sink_cycle (edge (tables_dict tbls)) (x0 :: L)) as (x & Hx); [done | |].
    - intros x Hx. rewrite <- HL in Hx |- *.
      destruct (leftover_references_leftover _ _ _ Hres Hx) as (b & ? & ?). eauto.
    - by apply (Hacyclic x). }
  rewrite Hempty, set_iter_nil, app_nil_r in Hget, Hperm.
  exists res. split_and!; [done | done |].
  intros a b Hedge.
  assert (a ∈ res) as Ha.
  { rewrite Hperm. by apply (edge_known tbls) in Hedge as [? _]. }
  apply list_elem_of_split in Ha as (l1 & l2 & Hsplit).
  assert (b ∈ l1) as Hb.
  { apply (Horder l1 a l2 Hsplit). by apply dep_edge. }
  apply list_elem_of_split in Hb as (m1 & m2 & ->).
  exists m1, m2, l2. rewrite Hsplit. by rewrite <- app_assoc.
Qed.

(** When no foreign-key cycle runs through the known tables (a table that
    references itself counts as one), [get_insertion_order] returns every
    table once and each table after all the tables it references. *)
Theorem insertion_order_topological (tbls : list Table) :
  (forall x, ~ tc (edge (tables_dict tbls)) x x) ->
  exists l, get_insertion_order (new tbls) = Some l /\
            l ≡ₚ dict_keys (tables_dict tbls) /\
            forall a b, edge (tables_dict tbls) a b -> strictly_before b a l.
Proof. apply acyclic_insertion_order. Qed.

(** [get_constraint_creation_order] returns every known table once, and a
    table that references a table emitted by Kahn's loop comes before it;
    without a foreign-key cycle every table comes before all the tables it
    references. *)
Theorem constraint_creation_order_reversed (tbls : list Table) :
  exists res l,
    kahn_result (new tbls) = Some res /\
    get_constraint_creation_order (new tbls) = Some l /\
    l ≡ₚ dict_keys (tables_dict tbls) /\
    (forall a b, edge (tables_dict tbls) a b -> b ∈ res -> strictly_before a b l) /\
    ((forall x, ~ tc (edge (tables_dict tbls)) x x) ->
     forall a b, edge (tables_dict tbls) a b -> strictly_before a b l).
Proof.
  destruct (kahn_result_spec tbls) as (res & Hres & Hnd & Hknown & Hready & Horder).
  destruct (insertion_order_perm tbls) as (res' & Hres' & Hget & Hperm).
  rewrite Hres in Hres'. inversion Hres'; subst res'. clear Hres'.
  exists res, (reverse (res ++ set_iter (remaining (new tbls) res))).
  split_and!; [done | | | |].
  - unfold get_constraint_creation_order. by rewrite Hget.
  - by rewrite reverse_Permutation.
  - intros a b Hedge Hb. apply strictly_before_reverse.
    destruct (decide (a ∈ res)) as [Ha|Ha].
    + apply list_elem_of_split in Ha as (l1 & l2 & Hsplit).
      assert (b ∈ l1) as Hb1.
      { apply (Horder l1 a l2 Hsplit). by apply dep_edge. }
      apply list_elem_of_split in Hb1 as (m1 & m2 & ->).
      exists m1, m2, (l2 ++ set_iter (remaining (new tbls) res)).
      rewrite Hsplit. rewrite <- ?app_assoc. cbn. by rewrite <- ?app_assoc.
    + assert (a ∈ set_iter (remaining (new tbls) res)) as Ha'.
      { apply elem_of_set_iter, elem_of_remaining. split; [|done].
        by apply (edge_known tbls) in Hedge as [? _]. }
      apply list_elem_of_split in Ha' as (n1 & n2 & ->).
      apply list_elem_of_split in Hb as (m1 & m2 & ->).
      exists m1, (m2 ++ n1), n2. rewrite <- ?app_assoc. cbn. by rewrite <- ?app_assoc.
  - intros Hacyclic a b Hedge. apply strictly_before_reverse.
    destruct (acyclic_insertion_order tbls Hacyclic) as (l & Hl & _ & Hbefore).
    rewrite Hget in Hl. inversion Hl; subst l. by apply Hbefore.
Qed.

End Acyclic.

Section AcyclicExample.
Import Dependencies Examples.
#[local] Existing Instance insertion_order.

Lemma shop_edges a b :
  edge (tables_dict shop) a b ->
  (a = "public.b_orders" /\ b = "public.a_users") \/
  (a = "public.c_items" /\ b = "public.b_orders").
Proof.
  intros (t & fk & Ht & <- & Hfk & <- & _). vm_compute in Ht.
  repeat (apply elem_of_cons in Ht as [->|Ht]); [| | |by apply elem_of_nil in Ht];
    cbn in Hfk.
  - by apply elem_of_nil in Hfk.
  - apply list_elem_of_singleton in Hfk as ->. by left.
  - apply list_elem_of_singleton in Hfk as ->. by right.
Qed.

Lemma shop_acyclic x : ~ tc (edge (tables_dict shop)) x x.
Proof.
  apply (ranked_acyclic _ (fun k => if decide (k = "public.a_users") then 0
                                    else if decide (k = "public.b_orders") then 1
                                    else 2)%nat).
  intros a b [[-> ->]|[-> ->]]%shop_edges; vm_compute; lia.
Qed.

(** The chain [c_items -> b_orders -> a_users] has no cycle: the users come
    first and the items last. *)
Lemma insertion_order_topological_witness :
  exists l, get_insertion_order (new shop) = Some l /\
            l ≡ₚ dict_keys (tables_dict shop) /\
            forall a b, edge (tables_dict shop) a b -> strictly_before b a l.
Proof. apply (insertion_order_topological shop). apply shop_acyclic. Defined.

End AcyclicExample.

(** ** [get_circular_groups] *)

Section StringOrder.

Lemma ascii_compare_lt_trans (a b c : ascii) :
  Ascii.compare a b = Lt -> Ascii.compare b c = Lt -> Ascii.compare a c = Lt.
Proof.
  unfold Ascii.compare. rewrite !N.compare_lt_iff. apply N.lt_trans.
Qed.

Lemma string_compare_lt_trans (s1 s2 s3 : string) :
  String.compare s1 s2 = Lt -> String.compare s2 s3 = Lt -> String.compare s1 s3 = Lt.
Proof.
  revert s2 s3. induction s1 as [|a s1 IH]; intros [|b s2] [|c s3]; cbn; try done.
  destruct (Ascii.compare a b) eqn:Hab; [| |done].
  - apply Ascii.compare_eq_iff in Hab as ->.
    destruct (Ascii.compare b c); [apply IH | done | done].
  - intros _. destruct (Ascii.compare b c) eqn:Hbc; [| |done].
    + apply Ascii.compare_eq_iff in Hbc as ->. by rewrite Hab.
    + intros _. by rewrite (ascii_compare_lt_trans _ _ _ Hab Hbc).
Qed.

Lemma string_ltb_trans (s1 s2 s3 : string) :
  String.ltb s1 s2 = true -> String.ltb s2 s3 = true -> String.ltb s1 s3 = true.
Proof.
  unfold String.ltb. intros H1 H2.
  destruct (String.compare s1 s2) eqn:E1; try done.
  destruct (String.compare s2 s3) eqn:E2; try done.
  by rewrite (string_compare_lt_trans _ _ _ E1 E2).
Qed.

Lemma string_ltb_irrefl (s : string) : String.ltb s s = false.
Proof.
  unfold String.ltb. destruct (String.compare s s) eqn:E; try done.
  pose proof (String.compare_antisym s s) as Ha. rewrite E in Ha. done.
Qed.

End StringOrder.

Section MinIndex.
Import Dependencies.

(** [x] is not below [m] in Python's order on [str]. *)
Definition not_below (m x : string) : Prop := String.ltb x m = false.

Lemma min_index_from_spec (c : list string) : forall l pre best_i best,
  c = pre ++ l -> c !! best_i = Some best ->
  (forall x, x ∈ pre -> not_below best x) ->
  exists m, c !! min_index_from best_i best (length pre) l = Some m /\
            forall x, x ∈ c -> not_below m x.
Proof.
  induction l as [|x l IH]; intros pre best_i best Hc Hbest Hpre; cbn [min_index_from].
  { exists best. rewrite app_nil_r in Hc. subst c. done. }
  destruct (String.ltb x best) eqn:Hlt.
  - destruct (IH (pre ++ [x]) (length pre) x) as (m & Hm & Hall).
    + by rewrite <- app_assoc.
    + subst c. by rewrite list_lookup_middle.
    + intros y Hy. apply elem_of_app in Hy as [Hy|Hy].
      * unfold not_below. destruct (String.ltb y x) eqn:Hyx; [|done].
        pose proof (string_ltb_trans _ _ _ Hyx Hlt) as Hyb.
        by rewrite (Hpre y Hy) in Hyb.
      * apply list_elem_of_singleton in Hy as ->. apply string_ltb_irrefl.
    + exists m. rewrite length_app in Hm. cbn in Hm.
      replace (length pre + 1)%nat with (S (length pre)) in Hm by lia. done.
  - destruct (IH (pre ++ [x]) best_i best) as (m & Hm & Hall).
    + by rewrite <- app_assoc.
    + done.
    + intros y Hy. apply elem_of_app in Hy as [Hy|Hy]; [auto|].
      apply list_elem_of_singleton in Hy as ->. done.
    + exists m. rewrite length_app in Hm. cbn in Hm.
      replace (length pre + 1)%nat with (S (length pre)) in Hm by lia. done.
Qed.

Lemma min_index_spec (c : list string) :
  c <> [] ->
  exists m, c !! min_index c = Some m /\ forall x, x ∈ c -> not_below m x.
Proof.
  destruct c as [|x l]; [done|]. intros _. unfold min_index.
  apply (min_index_from_spec (x :: l) l [x] 0%nat x); [done | done |].
  intros y Hy. apply list_elem_of_singleton in Hy as ->. apply string_ltb_irrefl.
Qed.

End MinIndex.

Section Cycles.
Context {A : Type}.
Variable R : relation A.

Lemma walk_snoc (p : list A) (a b : A) :
  walk R p -> last p = Some a -> R a b -> walk R (p ++ [b]).
Proof.
  intros Hw Hlast Hab i x y Hx Hy.
  destruct (decide (S i < length p)%nat) as [Hlt|Hge].
  - apply (Hw i).
    + rewrite lookup_app_l in Hx by lia. done.
    + rewrite lookup_app_l in Hy by lia. done.
  - assert (S i = length p) as Hi.
    { apply lookup_lt_Some in Hy. rewrite length_app in Hy. cbn in Hy. lia. }
    rewrite lookup_app_l in Hx by lia.
    rewrite lookup_app_r, Hi, Nat.sub_diag in Hy by lia. cbn in Hy.
    inversion Hy; subst y.
    rewrite last_lookup in Hlast. rewrite <- Hi in Hlast. cbn in Hlast.
    rewrite Hx in Hlast. inversion Hlast; subst x. done.
Qed.

(** Two walks that share an end point. *)
Lemma walk_glue (p q : list A) (x : A) :
  walk R (p ++ [x]) -> walk R (x :: q) -> walk R (p ++ x :: q).
Proof.
  intros Hp Hq i a b Ha Hb.
  destruct (decide (S i <= length p)%nat) as [Hle|Hgt].
  - apply (Hp i).
    + rewrite lookup_app_l by lia. rewrite lookup_app_l in Ha by lia. done.
    + destruct (decide (S i = length p)) as [Heq|Hne].
      * rewrite lookup_app_r in Hb |- * by lia.
        rewrite Heq, Nat.sub_diag in Hb |- *. done.
      * rewrite lookup_app_l by lia. rewrite lookup_app_l in Hb by lia. done.
  - apply (Hq (i - length p)%nat).
    + rewrite lookup_app_r in Ha by lia. done.
    + rewrite lookup_app_r in Hb by lia.
      replace (S i - length p)%nat with (S (i - length p)) in Hb by lia. done.
Qed.

(** The list is a cycle of [R]: its elements are distinct, each is related
    to the next, and the last to the first. *)
Definition is_cycle (c : list A) : Prop :=
  exists x, head c = Some x /\ NoDup c /\ walk R (c ++ [x]).

Lemma is_cycle_tc (c : list A) (x : A) : is_cycle c -> head c = Some x -> tc R x x.
Proof.
  intros (y & Hy & _ & Hw) Hx. rewrite Hx in Hy. inversion Hy; subst y.
  destruct c as [|z c]; [done|]. cbn in Hx. inversion Hx; subst z.
  by apply (walk_tc R x c x).
Qed.

(** A cycle read from another of its elements. *)
Lemma is_cycle_rotate (c : list A) (i : nat) :
  is_cycle c -> (i < length c)%nat -> is_cycle (drop i c ++ take i c).
Proof.
  intros (x & Hx & Hnd & Hw) Hi.
  destruct i as [|i].
  { rewrite drop_0, take_0, app_nil_r. by exists x. }
  destruct (drop (S i) c) as [|y l2] eqn:Hdrop.
  { apply (f_equal length) in Hdrop. rewrite length_drop in Hdrop. cbn [length] in Hdrop. lia. }
  destruct (take (S i) c) as [|x' l1] eqn:Htake.
  { apply (f_equal length) in Htake. rewrite length_take in Htake. cbn [length] in Htake. lia. }
  assert (c = (x' :: l1) ++ y :: l2) as Hc.
  { rewrite <- Htake, <- Hdrop. by rewrite take_drop. }
  assert (x' = x) as ->.
  { rewrite Hc in Hx. cbn in Hx. by inversion Hx. }
  exists y. split_and!; [done | |].
  - rewrite Hc in Hnd. eapply NoDup_Permutation_proper; [|exact Hnd].
    apply Permutation_app_comm.
  - rewrite Hc in Hw. rewrite <- app_assoc.
    change ((y :: l2) ++ (x :: l1) ++ [y]) with ((y :: l2) ++ x :: (l1 ++ [y])).
    apply walk_glue.
    + apply (walk_app_inv R (x :: l1)).
      rewrite <- app_assoc in Hw. exact Hw.
    + apply (walk_prefix R _ (l2 ++ [x])).
      replace ((x :: l1 ++ [y]) ++ l2 ++ [x]) with (((x :: l1) ++ y :: l2) ++ [x]); [done|].
      cbn. rewrite <- !app_assoc. done.
Qed.

End Cycles.

Section FindCycle.
Import Dependencies.
Context `{PySetOrder}.
Variable graph : dict (list string).

(** The tables of the schema: every edge of [graph] leads to one. *)
Variable U : list string.
Hypothesis U_nodup : NoDup U.
Hypothesis targets_known : forall a b, b ∈ dd_get a graph -> b ∈ U.

Let E : relation string := fun a b => b ∈ dd_get a graph.

(** How many tables are not visited yet. *)
Definition unvisited (visited : list string) : nat :=
  length (list_difference U visited).

Lemma unvisited_le (visited : list string) : (unvisited visited <= length U)%nat.
Proof using U_nodup.
  apply submseteq_length, NoDup_submseteq; [by apply NoDup_list_difference|].
  by intros x [? _]%list_elem_of_difference.
Qed.

Lemma unvisited_mono (v v' : list string) :
  (forall x, x ∈ v -> x ∈ v') -> (unvisited v' <= unvisited v)%nat.
Proof using U_nodup.
  intros Hsub. apply submseteq_length, NoDup_submseteq; [by apply NoDup_list_difference|].
  intros x [Hx Hn]%list_elem_of_difference. apply list_elem_of_difference. auto.
Qed.

Lemma unvisited_add (start : string) (v : list string) :
  start ∈ U -> start ∉ v -> (unvisited (set_add start v) < unvisited v)%nat.
Proof using U_nodup.
  intros HU Hv. unfold unvisited, set_add. rewrite decide_False by done.
  rewrite (length_list_difference_snoc U v start U_nodup Hv).
  rewrite decide_True by done. lia.
Qed.

Lemma index_of_split (start : string) (path : list string) :
  start ∈ path ->
  exists l1 l2, path = l1 ++ start :: l2 /\ index_of start path = length l1.
Proof.
  induction path as [|x path IH]; intros Hin; [by apply elem_of_nil in Hin|].
  cbn [index_of]. destruct (decide (start = x)) as [->|Hne].
  - by exists [], path.
  - apply elem_of_cons in Hin as [?|Hin]; [done|].
    destruct (IH Hin) as (l1 & l2 & -> & ->). by exists (x :: l1), l2.
Qed.

(** The [for neighbor in ...] loop of [find_cycle]. *)
Definition neighbors (fuel : nat) (path' : list string)
    : list string -> list string -> option (list string * list string) :=
  fix neighbors (ns : list string) (visited : list string) :=
    match ns with
    | [] => Some ([], visited)
    | neighbor :: ns' =>
        match find_cycle fuel graph neighbor path' visited with
        | None => None
        | Some ([], visited') => neighbors ns' visited'
        | Some (cycle, visited') => Some (cycle, visited')
        end
    end.

Lemma find_cycle_S fuel start path visited :
  find_cycle (S fuel) graph start path visited
  = if decide (start ∈ path) then Some (drop (index_of start path) path, visited)
    else if decide (start ∈ visited) then Some ([], visited)
    else neighbors fuel (path ++ [start]) (set_iter (dd_get start graph))
                   (set_add start visited).
Proof. done. Qed.

(** The path leads to [start] along edges, and its tables are visited. *)
Definition path_ok (path visited : list string) (start : string) : Prop :=
  NoDup path /\ (forall x, x ∈ path -> x ∈ visited) /\ walk E (path ++ [start]).

(** The visited tables that are not on the path are done with: they lie on
    no cycle, and their edges lead to tables that are done with. *)
Definition finished_ok (path visited : list string) : Prop :=
  forall f, f ∈ visited -> f ∉ path ->
    (~ tc E f f) /\ forall w, E f w -> w ∈ visited /\ w ∉ path.

Definition result_ok (path visited : list string) (start : string)
    (cycle visited' : list string) : Prop :=
  (forall x, x ∈ visited -> x ∈ visited') /\
  (cycle <> [] -> is_cycle E cycle) /\
  (cycle = [] -> start ∈ visited' /\ (start ∉ path) /\
                 (finished_ok path visited -> finished_ok path visited')).

Lemma finished_closed (path visited : list string) (a b : string) :
  finished_ok path visited -> rtc E a b ->
  a ∈ visited -> a ∉ path -> b ∈ visited /\ b ∉ path.
Proof.
  intros Hfin. induction 1 as [|a b c Hab _ IH]; [done|]. intros Ha Hap.
  destruct (Hfin a Ha Hap) as [_ Hnext]. destruct (Hnext b Hab). auto.
Qed.

Lemma neighbors_spec (fuel : nat) (path' : list string) (start : string) :
  (forall start path visited,
     (unvisited visited < fuel)%nat -> start ∈ U -> path_ok path visited start ->
     exists cycle visited',
       find_cycle fuel graph start path visited = Some (cycle, visited') /\
       result_ok path visited start cycle visited') ->
  NoDup path' -> last path' = Some start -> walk E path' ->
  forall ns visited,
    (forall n, n ∈ ns -> E start n) ->
    (unvisited visited < fuel)%nat ->
    (forall x, x ∈ path' -> x ∈ visited) ->
    exists cycle visited',
      neighbors fuel path' ns visited = Some (cycle, visited') /\
      (forall x, x ∈ visited -> x ∈ visited') /\
      (cycle <> [] -> is_cycle E cycle) /\
      (cycle = [] ->
         (forall n, n ∈ ns -> n ∈ visited' /\ n ∉ path') /\
         (finished_ok path' visited -> finished_ok path' visited')).
Proof using U_nodup targets_known.
  intros IH Hnd Hlast Hwalk.
  induction ns as [|n ns IHns]; intros visited Hns Hfuel Hsub.
  { exists [], visited. split_and!; [done | done | done |].
    intros _. split; [|done]. intros n Hn. by apply elem_of_nil in Hn. }
  cbn [neighbors].
  destruct (IH n path' visited Hfuel) as (cycle & v1 & Hrun & Hmono & Hcyc & Hnone).
  { apply (targets_known start). apply Hns. left. }
  { split_and!; [done | done |]. eapply walk_snoc; [done | done |]. apply Hns. left. }
  rewrite Hrun. destruct cycle as [|c cycle].
  - destruct (Hnone eq_refl) as (Hn1 & Hn2 & Hfin1).
    destruct (IHns v1) as (cycle' & v2 & Hrun' & Hmono' & Hcyc' & Hnone').
    { intros m Hm. apply Hns. by right. }
    { pose proof (unvisited_mono _ _ Hmono). lia. }
    { auto. }
    exists cycle', v2. split_and!; [done | auto | done |].
    intros Hnil. destruct (Hnone' Hnil) as [Hall Hfin2]. split; [|auto].
    intros m Hm. apply elem_of_cons in Hm as [->|Hm]; auto.
  - exists (c :: cycle), v1. split_and!; [done | done | done | done].
Qed.

(** [find_cycle] returns when it is given more fuel than there are tables
    left to visit.  What it returns is a cycle or the empty list, and in
    the latter case [start] is done with. *)
Lemma find_cycle_spec : forall fuel start path visited,
  (unvisited visited < fuel)%nat -> start ∈ U -> path_ok path visited start ->
  exists cycle visited',
    find_cycle fuel graph start path visited = Some (cycle, visited') /\
    result_ok path visited start cycle visited'.
Proof using U_nodup targets_known.
  induction fuel as [|fuel IH]; intros start path visited Hfuel HU (Hnd & Hsub & Hwalk);
    [lia|].
  rewrite find_cycle_S. destruct (decide (start ∈ path)) as [Hin|Hnin].
  { destruct (index_of_split _ _ Hin) as (l1 & l2 & Hpath & Hidx).
    exists (drop (index_of start path) path), visited. split; [done|].
    rewrite Hidx, Hpath, drop_app_length.
    split_and!; [done | | done].
    intros _. exists start. split_and!; [done | |].
    - rewrite Hpath in Hnd. by apply NoDup_app in Hnd as (_ & _ & ?).
    - rewrite Hpath, <- app_assoc in Hwalk. by apply walk_app_inv in Hwalk. }
  destruct (decide (start ∈ visited)) as [Hvis|Hnvis].
  { exists [], visited. split; [done|]. split_and!; done. }
  assert (last (path ++ [start]) = Some start) as Hlast by apply last_snoc.
  assert (NoDup (path ++ [start])) as Hnd'.
  { apply NoDup_app. split_and!; [done | | apply NoDup_singleton].
    intros x Hx Hx'. apply list_elem_of_singleton in Hx' as ->. done. }
  destruct (neighbors_spec fuel (path ++ [start]) start IH Hnd' Hlast Hwalk
              (set_iter (dd_get start graph)) (set_add start visited))
    as (cycle & visited' & Hrun & Hmono & Hcyc & Hnone).
  { intros n Hn. by apply (proj1 (elem_of_set_iter _ _)) in Hn. }
  { pose proof (unvisited_add start visited HU Hnvis). lia. }
  { intros x Hx. apply elem_of_set_add. apply elem_of_app in Hx as [Hx|Hx]; [auto|].
    apply list_elem_of_singleton in Hx. auto. }
  exists cycle, visited'. split; [done|]. split_and!; [| done |].
  { intros x Hx. apply Hmono. apply elem_of_set_add. auto. }
  intros Hnil. destruct (Hnone Hnil) as [Hall Hfin]. split_and!; [| done |].
  { apply Hmono. apply elem_of_set_add. auto. }
  intros Hfin0.
  assert (finished_ok (path ++ [start]) visited') as Hfin'.
  { apply Hfin. intros f Hf Hfp.
    assert (f <> start) as Hne.
    { intros ->. apply Hfp. apply elem_of_app. right. left. }
    assert (f ∉ path) as Hfp'.
    { intros ?. apply Hfp. apply elem_of_app. by left. }
    apply elem_of_set_add in Hf as [?|Hf]; [done|].
    destruct (Hfin0 f Hf Hfp') as [Hacyc Hnext]. split; [done|].
    intros w Hw. destruct (Hnext w Hw) as [Hwv Hwp]. split.
    - apply elem_of_set_add. auto.
    - intros Hw'. apply elem_of_app in Hw' as [?|Hw']; [done|].
      apply list_elem_of_singleton in Hw' as ->. done. }
  intros f Hf Hfp. destruct (decide (f = start)) as [->|Hne].
  - assert (forall w, E start w -> w ∈ visited' /\ w ∉ path ++ [start]) as Hnext.
    { intros w Hw. apply Hall. by apply elem_of_set_iter. }
    split.
    + intros Hcycle.
      assert (exists w, E start w /\ rtc E w start) as (w & Hw & Hback).
      { inversion Hcycle as [? ? Hxy|? w ? Hxw Hwy]; subst.
        - by exists start.
        - exists w. split; [done | by apply tc_rtc]. }
      destruct (Hnext w Hw) as [Hwv Hwp].
      destruct (finished_closed _ _ _ _ Hfin' Hback Hwv Hwp) as [_ Hstart].
      apply Hstart. apply elem_of_app. right. left.
    + intros w Hw. destruct (Hnext w Hw) as [? Hwp]. split; [done|].
      intros ?. apply Hwp. apply elem_of_app. by left.
  - assert (f ∉ path ++ [start]) as Hfp'.
    { intros Hf'. apply elem_of_app in Hf' as [?|Hf']; [done|].
      by apply list_elem_of_singleton in Hf'. }
    destruct (Hfin' f Hf Hfp') as [Hacyc Hnext]. split; [done|].
    intros w Hw. destruct (Hnext w Hw) as [? Hwp]. split; [done|].
    intros ?. apply Hwp. apply elem_of_app. by left.
Qed.

(** A group of [get_circular_groups]: a cycle that starts at its least
    table. *)
Definition group_ok (g : list string) : Prop :=
  is_cycle E g /\ exists m, head g = Some m /\ forall x, x ∈ g -> not_below m x.

Lemma normalize_ok (cycle : list string) :
  cycle <> [] -> is_cycle E cycle -> group_ok (normalize cycle).
Proof.
  intros Hne Hcyc. destruct (min_index_spec cycle Hne) as (m & Hm & Hleast).
  pose proof (lookup_lt_Some _ _ _ Hm) as Hlt. unfold normalize. split.
  - by apply is_cycle_rotate.
  - exists m. split.
    + rewrite <- (take_drop (min_index cycle) cycle) in Hm at 2.
      rewrite lookup_app_r, length_take in Hm by (rewrite length_take; lia).
      replace (min_index cycle - min_index cycle `min` length cycle)%nat
        with 0%nat in Hm by lia.
      destruct (drop (min_index cycle) cycle); [done|]. cbn in *. done.
    + intros x Hx. apply Hleast. apply elem_of_app in Hx as [Hx|Hx].
      * by eapply subseteq_drop.
      * by eapply subseteq_take.
Qed.

Lemma circular_groups_loop_spec (fuel : nat) : forall names visited groups,
  (length U < fuel)%nat ->
  (forall n, n ∈ names -> n ∈ U) ->
  (forall g, g ∈ groups -> group_ok g) ->
  exists out,
    circular_groups_loop fuel graph names visited groups = Some out /\
    (forall g, g ∈ out -> group_ok g) /\
    (forall g, g ∈ groups -> g ∈ out) /\
    (out = [] -> finished_ok [] visited ->
     exists visited', (forall x, x ∈ visited \/ x ∈ names -> x ∈ visited') /\
                      finished_ok [] visited').
Proof using U_nodup targets_known.
  intros names. induction names as [|name names IH]; intros visited groups Hfuel HU Hok.
  { exists groups. split_and!; [done | done | done |].
    intros _ Hfin. exists visited. split; [|done].
    intros x [?|Hx]; [done | by apply elem_of_nil in Hx]. }
  cbn [circular_groups_loop].
  destruct (decide (name ∈ visited)) as [Hvis|Hnvis].
  { destruct (IH visited groups Hfuel) as (out & Hrun & Hout & Hkeep & Hempty).
    { intros n Hn. apply HU. by right. }
    { done. }
    exists out. split_and!; [done | done | done |].
    intros Hnil Hfin. destruct (Hempty Hnil Hfin) as (visited' & Hsub & Hfin').
    exists visited'. split; [|done].
    intros x [Hx|Hx]; [auto|]. apply elem_of_cons in Hx as [->|Hx]; auto. }
  destruct (find_cycle_spec fuel name [] visited)
    as (cycle & v1 & Hrun & Hmono & Hcyc & Hnone).
  { pose proof (unvisited_le visited). lia. }
  { apply HU. left. }
  { split_and!; [apply NoDup_nil_2 | |].
    - intros x Hx. by apply elem_of_nil in Hx.
    - intros [|i] a b Ha Hb; cbn in *; done. }
  rewrite Hrun. destruct cycle as [|c cycle].
  - destruct (Hnone eq_refl) as (Hn1 & _ & Hfin1).
    destruct (IH v1 groups Hfuel) as (out & Hrun' & Hout & Hkeep & Hempty).
    { intros n Hn. apply HU. by right. }
    { done. }
    exists out. split_and!; [done | done | done |].
    intros Hnil Hfin. destruct (Hempty Hnil (Hfin1 Hfin)) as (visited' & Hsub & Hfin').
    exists visited'. split; [|done].
    intros x [Hx|Hx]; [auto|]. apply elem_of_cons in Hx as [->|Hx]; auto.
  - destruct (IH v1 (groups ++ [normalize (c :: cycle)]) Hfuel)
      as (out & Hrun' & Hout & Hkeep & _).
    { intros n Hn. apply HU. by right. }
    { intros g Hg. apply elem_of_app in Hg as [?|Hg]; [auto|].
      apply list_elem_of_singleton in Hg as ->. apply normalize_ok; [done | auto]. }
    exists out. split_and!; [done | done | |].
    + intros g Hg. apply Hkeep. apply elem_of_app. by left.
    + intros Hnil. exfalso.
      assert (normalize (c :: cycle) ∈ out) as Hin.
      { apply Hkeep. apply elem_of_app. right. left. }
      rewrite Hnil in Hin. by apply elem_of_nil in Hin.
Qed.

End FindCycle.

Section CircularGroups.
Import Dependencies.
Context `{PySetOrder}.

Lemma walk_iff {A} (R S : relation A) (p : list A) :
  (forall a b, R a b <-> S a b) -> walk R p <-> walk S p.
Proof.
  intros HRS. split; intros Hw i a b Ha Hb; apply HRS; by apply (Hw i).
Qed.

Lemma circular_groups_spec (tbls : list Table) :
  exists groups,
    get_circular_groups (new tbls) = Some groups /\
    (forall g, g ∈ groups ->
       is_cycle (edge (tables_dict tbls)) g /\
       exists m, head g = Some m /\ forall x, x ∈ g -> not_below m x) /\
    (groups = [] -> forall x, ~ tc (edge (tables_dict tbls)) x x).
Proof.
  set (graph := _dependency_graph (new tbls)).
  set (U := dict_keys (tables (new tbls))).
  assert (forall a b, b ∈ dd_get a graph <-> edge (tables_dict tbls) a b) as Hedge.
  { intros a b. apply dependency_graph_edge. }
  assert (forall a b, b ∈ dd_get a graph -> b ∈ U) as Htargets.
  { intros a b Hab. apply Hedge in Hab. by apply (edge_known tbls) in Hab as [_ ?]. }
  destruct (circular_groups_loop_spec graph U (known_NoDup tbls) Htargets
              (S (length (tables (new tbls)))) U [] [])
    as (out & Hrun & Hout & _ & Hempty).
  { unfold U, dict_keys. rewrite length_fmap. lia. }
  { done. }
  { intros g Hg. by apply elem_of_nil in Hg. }
  exists out. split_and!; [done | |].
  - intros g Hg. destruct (Hout g Hg) as [(x & Hx & Hnd & Hw) Hleast]. split; [|done].
    exists x. split_and!; [done | done |]. by apply (walk_iff _ _ _ Hedge).
  - intros Hnil x Hx.
    destruct (Hempty Hnil) as (visited' & Hsub & Hfin).
    { intros f Hf. by apply elem_of_nil in Hf. }
    assert (x ∈ U) as HxU.
    { inversion Hx as [? ? Hxy|? w ? Hxw Hwy]; subst.
      - by apply (edge_known tbls) in Hxy as [? _].
      - by apply (edge_known tbls) in Hxw as [? _]. }
    destruct (Hfin x) as [Hacyc _]; [auto | apply not_elem_of_nil |].
    apply Hacyc. by apply (tc_iff _ _ Hedge).
Qed.

(** [get_circular_groups] returns; every group it returns is a cycle of
    foreign keys between known tables (each table of the group references
    the next one, the last references the first, no table occurs twice), and
    the group starts at the table whose name is least in the order of
    Python strings. *)
Theorem circular_groups_are_cycles (tbls : list Table) :
  exists groups,
    get_circular_groups (new tbls) = Some groups /\
    forall g, g ∈ groups ->
      is_cycle (edge (tables_dict tbls)) g /\
      exists m, head g = Some m /\ forall x, x ∈ g -> not_below m x.
Proof.
  destruct (circular_groups_spec tbls) as (groups & Hrun & Hok & _). eauto.
Qed.

(** [get_circular_groups] returns the empty list exactly when no cycle of
    foreign keys runs through the known tables. *)
Theorem circular_groups_empty_iff_acyclic (tbls : list Table) :
  get_circular_groups (new tbls) = Some []
  <-> forall x, ~ tc (edge (tables_dict tbls)) x x.
Proof.
  destruct (circular_groups_spec tbls) as (groups & Hrun & Hok & Hempty).
  split.
  - intros Hnil. rewrite Hrun in Hnil. inversion Hnil; subst. auto.
  - intros Hacyclic. rewrite Hrun. f_equal.
    destruct groups as [|g groups]; [done|]. exfalso.
    destruct (Hok g) as [Hcyc (m & Hm & _)]; [left|].
    apply (Hacyclic m). by eapply is_cycle_tc.
Qed.

End CircularGroups.

(** ** The staging manager *)

Section StagingFacts.
Context `{Connection conn}.
Implicit Types st : State conn.

(** The parts of the state that the connection does not own. *)
Definition frame (created : bool) (r : dict SamplingResult) (s : dict (list row))
    : State conn -> Prop :=
  fun st => _schema_created st = created /\ results st = r /\ sampled_rows st = s.

Lemma frame_on_conn {A} created r s (f : conn -> result A * conn) E :
  (forall st, frame created r s st -> E st) ->
  spec (frame created r s) (on_conn f) (fun _ => frame created r s) E.
Proof.
  intros HE st Hst. unfold on_conn.
  destruct (f (st_conn st)) as [[a|e] c] eqn:Hf; [exact Hst | apply HE, Hst].
Qed.

Lemma frame_execute created r s stmt params :
  spec (frame created r s) (execute stmt params)
       (fun _ => frame created r s) (frame created r s).
Proof. by apply frame_on_conn. Qed.

Lemma frame_commit created r s :
  spec (frame created r s) Staging.commit
       (fun _ => frame created r s) (frame created r s).
Proof. by apply frame_on_conn. Qed.

Lemma frame_log created r s l msg E :
  spec (frame created r s) (log l msg) (fun _ => frame created r s) E.
Proof. intros st Hst. exact Hst. Qed.

Lemma frame_safe_rollback created r s E :
  spec (frame created r s) Staging.safe_rollback (fun _ => frame created r s) E.
Proof.
  intros st Hst. destruct (safe_rollback_run st) as [c ->]. exact Hst.
Qed.

Lemma frame_create created r s schema_name :
  spec (frame created r s) (Staging.create_schema_create schema_name)
       (fun b st => b = true /\ frame true r s st) (frame created r s).
Proof.
  unfold Staging.create_schema_create.
  eapply spec_bind; [apply frame_log | intros ?].
  eapply spec_bind; [apply frame_execute | intros ?].
  eapply spec_bind; [apply frame_commit | intros ?].
  intros st (_ & Hr & Hs). cbn. done.
Qed.

Lemma frame_create_schema_body created r s schema_name force :
  spec (frame created r s) (Staging.create_schema_body schema_name force)
       (fun b st => (b = true /\ frame true r s st) \/
                    (b = false /\ frame created r s st))
       (frame created r s).
Proof.
  unfold Staging.create_schema_body.
  eapply spec_bind; [apply frame_safe_rollback | intros ?].
  eapply spec_bind; [apply frame_execute | intros cur].
  eapply spec_bind with (Q := fun _ => frame created r s).
  { apply spec_lift; auto. }
  intros exists_. destruct (truthy exists_).
  - destruct force.
    + eapply spec_bind; [apply frame_log | intros ?].
      eapply spec_bind; [apply frame_execute | intros ?].
      eapply spec_bind; [apply frame_commit | intros ?].
      eapply spec_weaken; [apply frame_create | done | intros ? ? ?; by left | done].
    + eapply spec_bind; [apply frame_log | intros ?].
      apply spec_ret. auto.
  - eapply spec_weaken; [apply frame_create | done | intros ? ? ?; by left | done].
Qed.

Lemma frame_create_schema created r s schema_name force :
  spec (frame created r s) (Staging.create_schema schema_name force)
       (fun b st => (b = true /\ frame true r s st) \/
                    (b = false /\ frame created r s st))
       (fun _ => False).
Proof.
  unfold Staging.create_schema.
  eapply spec_try_except; [apply frame_create_schema_body|].
  intros e.
  assert (forall msg,
            spec (frame created r s)
                 (Staging.safe_rollback;;; log ERROR msg;;; ret false)
                 (fun b st => (b = true /\ frame true r s st) \/
                              (b = false /\ frame created r s st))
                 (fun _ => False)) as Hhandler.
  { intros msg.
    eapply spec_bind; [apply frame_safe_rollback | intros ?].
    eapply spec_bind; [apply frame_log | intros ?].
    apply spec_ret. auto. }
  destruct e; apply Hhandler.
Qed.

(** [create_schema] never raises, whatever the connection does.  It leaves
    the samples alone; when it returns [True] the manager's
    [_schema_created] is set, and when it returns [False] the flag is as it
    was. *)
Theorem create_schema_returns_flag (schema_name : string) (force : bool) st :
  exists b st',
    Staging.create_schema schema_name force st = (Ok b, st') /\
    (b = true -> _schema_created st' = true) /\
    (b = false -> _schema_created st' = _schema_created st) /\
    results st' = results st /\ sampled_rows st' = sampled_rows st.
Proof.
  pose proof (frame_create_schema (_schema_created st) (results st) (sampled_rows st)
                schema_name force st) as Hspec.
  destruct (Staging.create_schema schema_name force st) as [[b|e] st'].
  2: { exfalso. by apply Hspec. }
  exists b, st'. split; [done|].
  destruct Hspec as [[-> (? & ? & ?)]|[-> (? & ? & ?)]]; done.
Qed.

Lemma frame_drop_schema created r s schema_name :
  spec (frame created r s) (Staging.drop_schema schema_name)
       (fun _ st => (_schema_created st = true -> created = true) /\
                    results st = r /\ sampled_rows st = s)
       (fun _ => False).
Proof.
  unfold Staging.drop_schema.
  eapply spec_bind with (Q := fun st0 st => frame created r s st /\ st0 = st).
  { apply spec_get_state. auto. }
  intros st0. destruct (negb (_schema_created st0)) eqn:Hflag.
  { apply spec_ret. intros st [(Hc & ? & ?) ->]. split_and!; [congruence | done | done]. }
  assert (spec (fun st => frame created r s st /\ st0 = st)
                 (Staging.safe_rollback;;;
                  log INFO ("Dropping staging schema: " +:+ schema_name);;;
                  execute (DropSchema schema_name) [];;;
                  Staging.commit;;;
                  set_schema_created false)
                 (fun _ st => (_schema_created st = true -> created = true) /\
                              results st = r /\ sampled_rows st = s)
                 (frame created r s)) as Hbody.
  { eapply spec_bind with (Q := fun _ => frame created r s).
    { eapply spec_weaken; [apply (frame_safe_rollback created r s (frame created r s)) | | |];
        cbn; tauto. }
    intros ?.
    eapply spec_bind; [apply frame_log | intros ?].
    eapply spec_bind; [apply frame_execute | intros ?].
    eapply spec_bind; [apply frame_commit | intros ?].
    intros st (_ & ? & ?). cbn. done. }
  eapply spec_try_except; [apply Hbody|].
  intros e.
  eapply spec_bind; [apply frame_log | intros ?].
  eapply spec_weaken; [apply (frame_safe_rollback created r s (fun _ => False)) | | |];
    cbn; [done | | done].
  intros _ st (Hc & ? & ?). split_and!; [|done|done].
  intros Ht. apply negb_false_iff in Hflag. congruence.
Qed.

(** [drop_schema] never raises either.  It does nothing at all when this
    manager did not create the schema, it never sets [_schema_created], and
    it leaves the samples alone. *)
Theorem drop_schema_returns (schema_name : string) st :
  exists st',
    Staging.drop_schema schema_name st = (Ok tt, st') /\
    (_schema_created st = false -> st' = st) /\
    (_schema_created st' = true -> _schema_created st = true) /\
    results st' = results st /\ sampled_rows st' = sampled_rows st.
Proof.
  pose proof (frame_drop_schema (_schema_created st) (results st) (sampled_rows st)
                schema_name st) as Hspec.
  destruct (Staging.drop_schema schema_name st) as [[[]|e] st'] eqn:Hrun.
  2: { exfalso. by apply Hspec. }
  exists st'. destruct Hspec as (? & ? & ?); [done|].
  split_and!; [done | | done | done | done].
  intros Hflag. unfold Staging.drop_schema, bind, get_state in Hrun.
  rewrite Hflag in Hrun. cbn in Hrun. by inversion Hrun.
Qed.


End StagingFacts.

Section StagingNames.

Lemma after_first_dot_chars_app (a b : list ascii) :
  "."%char ∉ a ->
  after_first_dot_chars (a ++ "."%char :: b) = Some b.
Proof.
  induction a as [|c a IH]; intros Hdot; cbn.
  - done.
  - destruct (Ascii.eqb c ".") eqn:Hc.
    + apply Ascii.eqb_eq in Hc as ->. exfalso. apply Hdot. left.
    + apply IH. intros ?. apply Hdot. by right.
Qed.

Lemma list_ascii_of_string_app (a b : string) :
  list_ascii_of_string (a +:+ b) = list_ascii_of_string a ++ list_ascii_of_string b.
Proof.
  induction a as [|c a IH]; [done|].
  change (String c a +:+ b) with (String c (a +:+ b)). cbn. by rewrite IH.
Qed.

(** The table name [copy_data_to_staging] takes from the name that
    [create_staging_table] returned is the source table again, as long as
    the name of the staging schema holds no dot. *)
Theorem staging_table_name_round_trip `{Connection conn}
    (schema_name source_schema source_table : string) (cols : list Column)
    (st : State conn) (staging_table : string) (st' : State conn) :
  "."%char ∉ list_ascii_of_string schema_name ->
  Staging.create_staging_table schema_name source_schema source_table cols st
    = (Ok staging_table, st') ->
  after_first_dot staging_table = source_table.
Proof.
  intros Hdot Hrun. unfold Staging.create_staging_table in Hrun.
  apply bind_ok in Hrun as (u & st1 & _ & Hret). inversion Hret; subst.
  unfold after_first_dot.
  rewrite !list_ascii_of_string_app. cbn [list_ascii_of_string app].
  rewrite after_first_dot_chars_app by done.
  apply string_of_list_ascii_of_string.
Qed.

End StagingNames.

Section StagingNamesExample.
Import Examples.

(** With the default schema name [_dbsample] on a connection that lets the
    table be created. *)
Lemma staging_table_name_round_trip_witness :
  exists staging_table st',
    Staging.create_staging_table "_dbsample" "public" "a_users" (columns users)
      (initial_state []) = (Ok staging_table, st') /\
    after_first_dot staging_table = "a_users".
Proof.
  eexists _, _. split; [vm_compute; reflexivity|].
  eapply (staging_table_name_round_trip "_dbsample" "public" "a_users" (columns users)
            (initial_state [])).
  - apply (bool_decide_unpack _). vm_compute. exact I.
  - vm_compute. reflexivity.
Defined.

End StagingNamesExample.

(** ** The staging decision and the cleanup in [main] *)

Section CliFacts.
Import Sampling.
Context `{PySetOrder} `{Connection conn}.
Implicit Types st : State conn.

(** The staging decision never raises.  It answers staging mode only when
    staging was asked for and the schema was created, and direct mode
    otherwise; when staging is off it does not touch anything. *)
Theorem choose_mode_returns (o : Cli.Options) st :
  exists mode st',
    Cli.choose_mode o st = (Ok mode, st') /\
    ((mode = (true, Some (Cli.o_sample_schema o)) /\
      Cli.o_use_staging o = true /\ _schema_created st' = true) \/
     (mode = (false, None) /\ _schema_created st' = _schema_created st)) /\
    results st' = results st /\ sampled_rows st' = sampled_rows st /\
    (Cli.o_use_staging o = false -> st' = st).
Proof.
  unfold Cli.choose_mode. destruct (Cli.o_use_staging o) eqn:Huse.
  2: { exists (false, None), st. split_and!; [done | by right | done | done | done]. }
  unfold bind at 1. cbn [log].
  set (st1 := {| st_conn := st_conn st;
                 st_log := st_log st
                   ++ [(INFO, "Attempting to use staging schema for improved performance...")];
                 _schema_created := _schema_created st;
                 results := results st; sampled_rows := sampled_rows st |}).
  pose proof (frame_create_schema (_schema_created st) (results st) (sampled_rows st)
                (Cli.o_sample_schema o) (Cli.o_force o) st1) as Hspec.
  unfold bind at 1.
  destruct (Staging.create_schema (Cli.o_sample_schema o) (Cli.o_force o) st1)
    as [[b|e] st2].
  2: { exfalso. by apply Hspec. }
  destruct Hspec as [[-> (Hc & Hr & Hs)]|[-> (Hc & Hr & Hs)]]; [done | |]; cbn.
  - eexists _, _. split; [reflexivity|]. cbn.
    split_and!; [by left | done | done | done].
  - eexists _, _. split; [reflexivity|]. cbn.
    split_and!; [by right | done | done | done].
Qed.

(** In staging mode without [--keep], the [finally] clause drops the
    staging schema whether sampling returned or raised, and the outcome of
    the run is the outcome of [sample_all]: the cleanup never hides it. *)
Theorem sample_cleans_up_staging (o : Cli.Options) st (schema_name : string) st1 :
  Cli.choose_mode o st = (Ok (true, Some schema_name), st1) ->
  Cli.o_keep o = false ->
  let st2 := (log INFO "Sampling data using staging schema..." st1).2 in
  let run := sample_all (Cli.engine o true (Some schema_name)) st2 in
  let st3 := match run.1 with
             | Ok _ => (log INFO "Sampled rows" run.2).2
             | Err _ => run.2
             end in
  Cli.sample o st = (run.1, (Staging.drop_schema schema_name st3).2).
Proof.
  intros Hmode Hkeep. cbn zeta.
  unfold Cli.sample. unfold bind at 1. rewrite Hmode. cbn [fst snd].
  unfold bind at 1. unfold Cli.try_finally. rewrite Hkeep. cbn [negb].
  destruct (log INFO "Sampling data using staging schema..." st1) as [[[]|?] st2] eqn:Hlog;
    [|by inversion Hlog].
  cbn [snd]. unfold bind at 1.
  destruct (sample_all (Cli.engine o true (Some schema_name)) st2) as [[d|e] s3];
    cbn [fst snd].
  - unfold bind at 1.
    destruct (log INFO "Sampled rows" s3) as [[[]|?] s4] eqn:Hlog';
      [|by inversion Hlog'].
    cbn [ret snd].
    pose proof (frame_drop_schema (_schema_created s4) (results s4) (sampled_rows s4)
                  schema_name s4 ltac:(done)) as Hspec.
    destruct (Staging.drop_schema schema_name s4) as [[[]|?] ?]; done.
  - pose proof (frame_drop_schema (_schema_created s3) (results s3) (sampled_rows s3)
                  schema_name s3 ltac:(done)) as Hspec.
    destruct (Staging.drop_schema schema_name s3) as [[[]|?] ?]; done.
Qed.

End CliFacts.

Section CliExample.
Import Sampling Examples.
#[local] Existing Instance insertion_order.

(** A run that asks for staging on a connection that lets the schema be
    created. *)
Lemma sample_cleans_up_staging_witness :
  exists st1,
    Cli.choose_mode (options shop one_row_each [] true) (initial_state [])
      = (Ok (true, Some "_dbsample"), st1) /\
    Cli.sample (options shop one_row_each [] true) (initial_state [])
    = ((sample_all (Cli.engine (options shop one_row_each [] true) true (Some "_dbsample"))
          (log INFO "Sampling data using staging schema..." st1).2).1,
       (Staging.drop_schema "_dbsample"
          match (sample_all (Cli.engine (options shop one_row_each [] true) true
                               (Some "_dbsample"))
                   (log INFO "Sampling data using staging schema..." st1).2).1 with
          | Ok _ =>
              (log INFO "Sampled rows"
                 (sample_all (Cli.engine (options shop one_row_each [] true) true
                                (Some "_dbsample"))
                    (log INFO "Sampling data using staging schema..." st1).2).2).2
          | Err _ =>
              (sample_all (Cli.engine (options shop one_row_each [] true) true
                             (Some "_dbsample"))
                 (log INFO "Sampling data using staging schema..." st1).2).2
          end).2).
Proof.
  eexists. split; [vm_compute; reflexivity|].
  apply (sample_cleans_up_staging (options shop one_row_each [] true) (initial_state [])
           "_dbsample").
  - vm_compute. reflexivity.
  - reflexivity.
Defined.

End CliExample.

(** ** Limit rules and their patterns *)

Section Patterns.
Import Sampling.

Lemma lower_star (c : ascii) : Ascii.eqb (lower c) "*" = Ascii.eqb c "*".
Proof. destruct c as [[] [] [] [] [] [] [] []]; vm_compute; reflexivity. Qed.

Lemma lower_idemp (c : ascii) : lower (lower c) = lower c.
Proof. destruct c as [[] [] [] [] [] [] [] []]; vm_compute; reflexivity. Qed.

(** The loop that a [*] of the pattern stands for. *)
Definition star (p' : list ascii) : list ascii -> bool :=
  fix star (s : list ascii) : bool :=
    star_match p' s || match s with [] => false | _ :: s' => star s' end.

Lemma star_match_cons (c : ascii) (p' s : list ascii) :
  star_match (c :: p') s
  = if Ascii.eqb c "*" then star p' s
    else match s with
         | [] => false
         | c' :: s' => Ascii.eqb (lower c) (lower c') && star_match p' s'
         end.
Proof. done. Qed.

Lemma star_nil : forall s, star [] s = true.
Proof.
  induction s as [|c s IH]; [done|].
  cbn [star]. rewrite IH. by rewrite orb_true_r.
Qed.

(** Matching looks at the letters of the pattern and of the text only up
    to their case. *)
Lemma star_match_lower : forall p1 p2 s1 s2,
  lower <$> p1 = lower <$> p2 -> lower <$> s1 = lower <$> s2 ->
  star_match p1 s1 = star_match p2 s2.
Proof.
  induction p1 as [|c1 p1 IH]; intros [|c2 p2] s1 s2 Hp Hs; try done.
  { destruct s1, s2; done. }
  cbn in Hp. inversion Hp as [[Hc Hp']]. rewrite !star_match_cons.
  assert (Ascii.eqb c1 "*" = Ascii.eqb c2 "*") as Hstar.
  { by rewrite <- (lower_star c1), <- (lower_star c2), Hc. }
  rewrite Hstar. destruct (Ascii.eqb c2 "*").
  - clear Hstar. revert s2 Hs.
    induction s1 as [|a s1 IHs]; intros [|b s2] Hs; try done.
    + cbn [star]. by rewrite (IH p2 [] []).
    + cbn in Hs. inversion Hs as [[Hab Hs']]. cbn [star].
      rewrite (IH p2 (a :: s1) (b :: s2)) by (done || (cbn; by f_equal)).
      by rewrite (IHs s2).
  - destruct s1 as [|a s1], s2 as [|b s2]; try done.
    cbn in Hs. inversion Hs as [[Hab Hs']]. rewrite Hc, Hab.
    by rewrite (IH p2 s1 s2).
Qed.

(** A pattern without [*] matches the texts that are equal to it up to
    case, and nothing else: the pattern is anchored at both ends and its
    other characters stand for themselves. *)
Lemma star_match_literal : forall p s,
  "*"%char ∉ p -> star_match p s = true <-> lower <$> p = lower <$> s.
Proof.
  induction p as [|c p IH]; intros s Hstar.
  { destruct s; cbn; split; done. }
  rewrite star_match_cons.
  destruct (Ascii.eqb c "*") eqn:Hc.
  { apply Ascii.eqb_eq in Hc as ->. exfalso. apply Hstar. left. }
  destruct s as [|c' s]; [split; done|].
  rewrite andb_true_iff, Ascii.eqb_eq, IH.
  - cbn. split; [intros [-> ->]; done | intros [= -> ->]; done].
  - intros ?. apply Hstar. by right.
Qed.

(** Text for which the model of the regular expressions is exact: ASCII
    characters only (the case of other letters is folded by Unicode rules),
    and no line feed (which [.] does not match and before which [$] does). *)
Definition plain (s : string) : Prop :=
  Forall (fun c => (nat_of_ascii c < 128)%nat /\ c <> "010"%char)
         (list_ascii_of_string s).

#[global] Instance plain_dec (s : string) : Decision (plain s).
Proof. unfold plain. apply _. Defined.

(** The pattern of a limit rule is matched without regard to case, in the
    pattern and in the name. *)
Theorem compile_ignores_case (pat1 pat2 text1 text2 : string) :
  plain pat1 -> plain pat2 -> plain text1 -> plain text2 ->
  lower <$> list_ascii_of_string pat1 = lower <$> list_ascii_of_string pat2 ->
  lower <$> list_ascii_of_string text1 = lower <$> list_ascii_of_string text2 ->
  compile pat1 text1 = compile pat2 text2.
Proof. intros _ _ _ _. apply star_match_lower. Qed.

(** A pattern that holds no [*] matches exactly the names that are equal
    to it up to case: it is anchored at both ends, and characters such as
    [.] or [?] stand for themselves. *)
Theorem compile_literal (pat text : string) :
  plain pat -> plain text ->
  "*"%char ∉ list_ascii_of_string pat ->
  compile pat text = true
  <-> lower <$> list_ascii_of_string pat = lower <$> list_ascii_of_string text.
Proof. intros _ _. apply star_match_literal. Qed.

End Patterns.

Section PatternExamples.
Import Sampling.

Lemma compile_ignores_case_witness :
  compile "Users" "USERS" = compile "users" "users".
Proof.
  apply compile_ignores_case;
    try (apply (bool_decide_unpack _); vm_compute; exact I);
    vm_compute; reflexivity.
Defined.

Lemma compile_literal_witness :
  compile "public.users" "PUBLIC.USERS" = true
  <-> lower <$> list_ascii_of_string "public.users"
      = lower <$> list_ascii_of_string "PUBLIC.USERS".
Proof.
  apply compile_literal; apply (bool_decide_unpack _); vm_compute; exact I.
Defined.

End PatternExamples.

Section LimitRules.
Import Sampling.
Context `{PySetOrder} `{Connection conn}.
Variable self : SamplingEngine.

(** The test of the loop in [_find_limit_rule]. *)
Definition rule_matches (rule : LimitRule) (table : Table) : bool :=
  compiled_pattern rule (qualified_name table)
  || compiled_pattern rule (name table)
  || compiled_pattern rule (schema table +:+ ".*").

Lemma head_filter_split {A} (P : A -> Prop) `{!forall x, Decision (P x)} (l : list A) :
  match head (filter P l) with
  | Some x => exists pre post, l = pre ++ x :: post /\ P x /\ forall y, y ∈ pre -> ~ P y
  | None => forall y, y ∈ l -> ~ P y
  end.
Proof.
  induction l as [|a l IH].
  { intros y Hy. by apply elem_of_nil in Hy. }
  rewrite filter_cons. destruct (decide (P a)) as [Ha|Ha].
  - cbn. exists [], l. split_and!; [done | done |].
    intros y Hy. by apply elem_of_nil in Hy.
  - destruct (head (filter P l)) as [x|].
    + destruct IH as (pre & post & -> & Hx & Hpre).
      exists (a :: pre), post. split_and!; [done | done |].
      intros y Hy. apply elem_of_cons in Hy as [->|Hy]; auto.
    + intros y Hy. apply elem_of_cons in Hy as [->|Hy]; auto.
Qed.

Lemma find_limit_rule_spec (table : Table) :
  match _find_limit_rule self table with
  | Some rule =>
      exists pre post,
        limit_rules self = pre ++ rule :: post /\
        rule_matches rule table = true /\
        forall r, r ∈ pre -> rule_matches r table = false
  | None => forall r, r ∈ limit_rules self -> rule_matches r table = false
  end.
Proof.
  unfold _find_limit_rule. cbn zeta.
  pose proof (head_filter_split (fun rule => rule_matches rule table) (limit_rules self))
    as Hsplit.
  unfold rule_matches in Hsplit at 1 2.
  match goal with
  | |- match head ?f with _ => _ end =>
      match type of Hsplit with
      | match head ?g with _ => _ end => change f with g
      end
  end.
  destruct (head _) as [rule|].
  - destruct Hsplit as (pre & post & Heq & Hm & Hpre).
    exists pre, post. split_and!; [done | by apply Is_true_true |].
    intros r Hr. specialize (Hpre r Hr). by destruct (rule_matches r table).
  - intros r Hr. specialize (Hsplit r Hr). by destruct (rule_matches r table).
Qed.

(** [_find_limit_rule] returns the first rule of the list that matches the
    table's qualified name, its bare name or the text [schema.*]; rules
    behind it are not looked at, and [None] means that no rule matches. *)
Theorem find_limit_rule_first_match (table : Table) :
  match _find_limit_rule self table with
  | Some rule =>
      exists pre post,
        limit_rules self = pre ++ rule :: post /\
        rule_matches rule table = true /\
        forall r, r ∈ pre -> rule_matches r table = false
  | None => forall r, r ∈ limit_rules self -> rule_matches r table = false
  end.
Proof. apply find_limit_rule_spec. Qed.

(** A rule with the pattern [*] matches every table: with such a rule in
    the list no table is left to the default limit. *)
Theorem star_rule_matches_every_table (l : Limit) (table : Table) :
  plain (name table) ->
  mk_rule "*" l ∈ limit_rules self ->
  exists rule, _find_limit_rule self table = Some rule.
Proof.
  intros _ Hin. pose proof (find_limit_rule_spec table) as Hspec.
  destruct (_find_limit_rule self table) as [rule|]; [eauto|].
  specialize (Hspec _ Hin). unfold rule_matches, mk_rule, compile in Hspec.
  cbn [compiled_pattern] in Hspec.
  change (list_ascii_of_string "*") with ["*"%char] in Hspec.
  rewrite !star_match_cons in Hspec. cbn [Ascii.eqb Bool.eqb] in Hspec.
  by rewrite star_nil in Hspec.
Qed.

End LimitRules.

Section LimitRulesExample.
Import Sampling Examples.
#[local] Existing Instance insertion_order.

Lemma star_rule_matches_every_table_witness :
  exists rule, _find_limit_rule (direct_engine shop items_only []) users = Some rule.
Proof.
  apply (star_rule_matches_every_table _ (NUMERIC 0)).
  - apply (bool_decide_unpack _). vm_compute. exact I.
  - right. left.
Defined.

End LimitRulesExample.

(** ** Excluded columns *)

Section ExcludedColumns.
Import Sampling.
Context `{PySetOrder} `{Connection conn}.
Variable self : SamplingEngine.

(** The pattern [pat] of [--exclude-column] asks for column [c] of the
    table to be left out.  A pattern with a dot is split at its last dot
    into a table pattern and a column pattern; one without is a column
    pattern for every table. *)
Definition excludes (table : Table) (pat c : string) : Prop :=
  match rsplit_dot pat with
  | Some (table_pattern, col_pattern) =>
      (_match_pattern (schema table +:+ "." +:+ name table) table_pattern = true \/
       _match_pattern (name table) table_pattern = true) /\
      (_match_pattern "*" col_pattern = true \/ col_pattern = "*" \/
       _match_pattern c col_pattern = true)
  | None => _match_pattern c pat = true
  end.

Lemma add_matching_spec (f : Column -> bool) (cols : list Column) :
  forall excluded,
    let out := foldl (fun ex col => if f col then set_add (col_name col) ex else ex)
                     excluded cols in
    (NoDup excluded -> NoDup out) /\
    forall x, x ∈ out <->
              x ∈ excluded \/ exists col, col ∈ cols /\ col_name col = x /\ f col = true.
Proof.
  induction cols as [|col cols IH]; intros excluded; cbn zeta; cbn [foldl].
  { split; [done|]. intros x. split; [auto|]. intros [?|(col & Hcol & _)]; [done|].
    by apply elem_of_nil in Hcol. }
  destruct (IH (if f col then set_add (col_name col) excluded else excluded))
    as [Hnd Hin].
  split.
  - intros Hex. apply Hnd. destruct (f col); [by apply NoDup_set_add | done].
  - intros x. rewrite Hin. destruct (f col) eqn:Hf.
    + rewrite elem_of_set_add. split.
      * intros [[->|?]|(c & Hc & Hn & Hfc)]; [right | by left | right].
        -- exists col. split_and!; [left | done | done].
        -- exists c. split_and!; [by right | done | done].
      * intros [?|(c & Hc & Hn & Hfc)]; [auto|].
        apply elem_of_cons in Hc as [->|Hc]; [auto|]. right. eauto.
    + split.
      * intros [?|(c & Hc & Hn & Hfc)]; [by left | right].
        exists c. split_and!; [by right | done | done].
      * intros [?|(c & Hc & Hn & Hfc)]; [auto|].
        apply elem_of_cons in Hc as [->|Hc]; [congruence|]. right. eauto.
Qed.

Lemma add_all_spec (cols : list Column) :
  forall excluded,
    let out := foldl (fun ex col => set_add (col_name col) ex) excluded cols in
    (NoDup excluded -> NoDup out) /\
    forall x, x ∈ out <-> x ∈ excluded \/ x ∈ col_name <$> cols.
Proof.
  induction cols as [|col cols IH]; intros excluded; cbn zeta; cbn [foldl].
  { split; [done|]. intros x. rewrite fmap_nil, elem_of_nil. tauto. }
  destruct (IH (set_add (col_name col) excluded)) as [Hnd Hin]. split.
  - intros Hex. by apply Hnd, NoDup_set_add.
  - intros x. rewrite Hin, elem_of_set_add, fmap_cons, elem_of_cons. tauto.
Qed.

Lemma exclude_step_spec (table : Table) (excluded : list string) (pat : string) :
  (NoDup excluded -> NoDup (exclude_step table excluded pat)) /\
  forall x, x ∈ exclude_step table excluded pat <->
            x ∈ excluded \/ (x ∈ col_name <$> columns table /\ excludes table pat x).
Proof.
  unfold exclude_step, excludes. cbn zeta.
  assert (forall cp,
    let out := foldl (fun ex col => if _match_pattern (col_name col) cp
                                    then set_add (col_name col) ex else ex)
                     excluded (columns table) in
    (NoDup excluded -> NoDup out) /\
    forall x, x ∈ out <->
              x ∈ excluded \/ (x ∈ col_name <$> columns table /\
                               _match_pattern x cp = true)) as Hmatching.
  { intros cp. cbn zeta.
    destruct (add_matching_spec (fun col => _match_pattern (col_name col) cp)
                (columns table) excluded) as [Hnd Hin].
    split; [done|]. intros x. rewrite Hin. split.
    - intros [?|(col & Hcol & <- & Hm)]; [by left | right]. split; [|done].
      apply list_elem_of_fmap. eauto.
    - intros [?|[Hx Hm]]; [by left | right].
      apply list_elem_of_fmap in Hx as (col & -> & Hcol). eauto. }
  destruct (rsplit_dot pat) as [[table_pattern col_pattern]|]; [|apply Hmatching].
  destruct (_match_pattern _ table_pattern || _match_pattern (name table) table_pattern)
    eqn:Htable.
  - apply orb_true_iff in Htable.
    destruct (_match_pattern "*" col_pattern || bool_decide (col_pattern = "*")) eqn:Hall.
    + apply orb_true_iff in Hall. rewrite bool_decide_eq_true in Hall.
      destruct (add_all_spec (columns table) excluded) as [Hnd Hin].
      split; [done|]. intros x. rewrite Hin. split.
      * intros [?|?]; [by left | right]. split; [done|]. split; [done|]. tauto.
      * intros [?|[? _]]; auto.
    + apply orb_false_iff in Hall as [Hstar Hlit]. rewrite bool_decide_eq_false in Hlit.
      destruct (Hmatching col_pattern) as [Hnd Hin].
      split; [done|]. intros x. rewrite Hin. split.
      * intros [?|[? ?]]; [by left | right]. split; [done|]. split; [done|]. auto.
      * intros [?|[? [_ [?|[?|?]]]]]; [by left | congruence | done | right; done].
  - apply orb_false_iff in Htable as [Hq Hn]. split; [done|]. intros x. split; [auto|].
    intros [?|[_ [[?|?] _]]]; [done | congruence | congruence].
Qed.

Lemma excluded_columns_spec (table : Table) :
  NoDup (_get_excluded_columns self table) /\
  forall c, c ∈ _get_excluded_columns self table <->
            c ∈ col_name <$> columns table /\
            exists pat, pat ∈ exclude_columns self /\ excludes table pat c.
Proof.
  unfold _get_excluded_columns.
  assert (forall pats excluded,
            (NoDup excluded -> NoDup (foldl (exclude_step table) excluded pats)) /\
            forall c, c ∈ foldl (exclude_step table) excluded pats <->
                      c ∈ excluded \/
                      (c ∈ col_name <$> columns table /\
                       exists pat, pat ∈ pats /\ excludes table pat c)) as Hfold.
  { induction pats as [|pat pats IH]; intros excluded; cbn [foldl].
    - split; [done|]. intros c. split; [auto|].
      intros [?|[_ (pat & Hpat & _)]]; [done | by apply elem_of_nil in Hpat].
    - destruct (IH (exclude_step table excluded pat)) as [Hnd Hin].
      destruct (exclude_step_spec table excluded pat) as [Hnd1 Hin1].
      split; [auto|]. intros c. rewrite Hin, Hin1. split.
      + intros [[?|[? ?]]|[? (p & Hp & ?)]]; [by left | right | right].
        * split; [done|]. exists pat. split; [left | done].
        * split; [done|]. exists p. split; [by right | done].
      + intros [?|[? (p & Hp & ?)]]; [auto|].
        apply elem_of_cons in Hp as [->|Hp]; [auto|]. right. eauto. }
  destruct (Hfold (exclude_columns self) []) as [Hnd Hin].
  split; [apply Hnd, NoDup_nil_2|]. intros c. rewrite Hin, elem_of_nil. tauto.
Qed.

(** [_get_excluded_columns] returns, without duplicates, the columns of the
    table that some pattern of [exclude_columns] asks to leave out, and
    [_is_column_excluded] answers whether a name is among them.  A name that
    is not a column of the table is never reported. *)
Theorem excluded_columns_characterised (table : Table) :
  NoDup (_get_excluded_columns self table) /\
  forall c,
    (c ∈ _get_excluded_columns self table <->
     c ∈ col_name <$> columns table /\
     exists pat, pat ∈ exclude_columns self /\ excludes table pat c) /\
    (_is_column_excluded self table c = true <-> c ∈ _get_excluded_columns self table).
Proof.
  destruct (excluded_columns_spec table) as [Hnd Hin].
  split; [done|]. intros c. split; [apply Hin|].
  unfold _is_column_excluded. apply bool_decide_eq_true.
Qed.

End ExcludedColumns.

Section ExcludedColumnsExample.
Import Sampling Examples.
#[local] Existing Instance insertion_order.
#[local] Existing Instance Db.stored_order.

(** A bracket expression in a pattern is a class of characters, a range or
    a negated class too. *)
Example bracket_pattern_excludes :
  _match_pattern "secret" "[s]ecret" = true /\
  _get_excluded_columns
    (direct_engine [accounts; logins] [] ["a_accounts.[r-t]ecret"]) accounts
  = ["secret"] /\
  _get_excluded_columns (direct_engine [accounts; logins] [] ["[!s]*"]) accounts
  = ["id"].
Proof. split_and!; reflexivity. Qed.

End ExcludedColumnsExample.

(** ** What a run in direct mode leaves behind *)

Section DirectRuns.
Import Sampling.
Context `{PySetOrder} `{Db.Server}.
Variable self : SamplingEngine.
Variable db0 : Db.Database.
Hypothesis Htables : tables_ok self db0.



(** The pass that resolves the foreign keys only adds rows, and only to the
    samples of tables that some foreign key of a known table references:
    every other sample is returned as the first pass took it. *)
Theorem fk_pass_keeps_unreferenced (order : list string)
    (st1 : State Db.Database) (u : unit) (st2 : State Db.Database) :
  for_each order (sample_one self) (initial_state db0) = (Ok tt, st1) ->
  _resolve_foreign_keys self st1 = (Ok u, st2) ->
  (forall k sampled, dict_get k (results st1) = Some sampled ->
     exists sampled', dict_get k (results st2) = Some sampled' /\
                      forall r, r ∈ rows sampled -> r ∈ rows sampled') /\
  (forall k, ~ referred (tables self) k ->
     dict_get k (results st2) = dict_get k (results st1)).
Proof using Htables.
  intros Hsample Hresolve.
  destruct (sample_phase_inv self db0 Htables order _ _ _ (inv_initial self db0) Hsample)
    as [Hinv1 _].
  destruct (resolve_tables_step self db0 Htables (tables self) _ _ _ Hinv1 Hresolve)
    as [_ [Hgrows Hsame]].
  split; [exact Hgrows | exact Hsame].
Qed.

End DirectRuns.

Section DirectRunsExample.
Import Sampling Examples.
#[local] Existing Instance insertion_order.
#[local] Existing Instance Db.stored_order.


Lemma fk_pass_keeps_unreferenced_witness :
  exists st1 st2,
    for_each ["public.a_users"; "public.b_orders"; "public.c_items"]
             (sample_one (direct_engine shop one_row_each []))
             (initial_state shop_db) = (Ok tt, st1) /\
    _resolve_foreign_keys (direct_engine shop one_row_each []) st1 = (Ok tt, st2) /\
    forall k, ~ referred (tables (direct_engine shop one_row_each [])) k ->
              dict_get k (results st2) = dict_get k (results st1).
Proof.
  eexists _, _. split; [vm_compute; reflexivity|]. split; [vm_compute; reflexivity|].
  refine (proj2 (fk_pass_keeps_unreferenced (direct_engine shop one_row_each []) shop_db
                   shop_tables_ok
                   ["public.a_users"; "public.b_orders"; "public.c_items"]
                   _ tt _ _ _)).
  - vm_compute. reflexivity.
  - vm_compute. reflexivity.
Defined.

End DirectRunsExample.

(** ** Exceptions of [sample_all] *)

Section RuntimeErrors.
Import Sampling.
Context `{PySetOrder} `{Connection conn}.
Variable self : SamplingEngine.

(** Whatever the run raises is a [RuntimeError]. *)
Definition raises_runtime_error {A} (m : M conn A) : Prop :=
  forall st e st', m st = (Err e, st') -> exists msg cause, e = RuntimeError msg cause.

Lemma raises_bind {A B} (m : M conn A) (k : A -> M conn B) :
  raises_runtime_error m -> (forall a, raises_runtime_error (k a)) ->
  raises_runtime_error (bind m k).
Proof.
  intros Hm Hk st e st' Hrun. unfold bind in Hrun.
  destruct (m st) as [[a|e'] s1] eqn:Hmst.
  - by eapply Hk.
  - inversion Hrun; subst. by eapply Hm.
Qed.

Lemma raises_ret {A} (a : A) : raises_runtime_error (ret (conn := conn) a).
Proof. intros st e st' Hrun. discriminate. Qed.

Lemma raises_get_state : raises_runtime_error (get_state (conn := conn)).
Proof. intros st e st' Hrun. discriminate. Qed.

Lemma raises_for_each {A} (l : list A) (body : A -> M conn unit) :
  (forall x, raises_runtime_error (body x)) -> raises_runtime_error (for_each l body).
Proof.
  intros Hbody. induction l as [|x l IH]; [apply raises_ret|].
  cbn [for_each]. apply raises_bind; auto.
Qed.

Lemma raises_wrapped {A} (m : M conn A) (f : exn -> string) :
  raises_runtime_error (try_except m (fun e => raise (RuntimeError (f e) e))).
Proof.
  intros st e st' Hrun. unfold try_except in Hrun.
  destruct (m st) as [[a|e'] s1]; [discriminate|].
  cbn in Hrun. inversion Hrun; subst. eauto.
Qed.

Lemma raises_sample_one table_name : raises_runtime_error (sample_one self table_name).
Proof.
  unfold sample_one. destruct (dict_get table_name (tables self)); [|apply raises_ret].
  apply (raises_wrapped _ (fun e => _)).
Qed.

Lemma raises_stage_one schema_name table_name :
  raises_runtime_error (stage_one self schema_name table_name).
Proof.
  unfold stage_one. destruct (dict_get table_name (tables self)); [|apply raises_ret].
  apply (raises_wrapped _ (fun e => _)).
Qed.

Lemma raises_read_one schema_name table_name :
  raises_runtime_error (read_one self schema_name table_name).
Proof.
  unfold read_one. destruct (dict_get table_name (tables self)); [|apply raises_ret].
  apply (raises_wrapped _ (fun e => _)).
Qed.

Lemma raises_insertion_order (tbls : list Table) :
  resolver self = Dependencies.new tbls ->
  raises_runtime_error (insertion_order_of_resolver (conn := conn) self).
Proof.
  intros Hr st e st' Hrun. unfold insertion_order_of_resolver in Hrun. rewrite Hr in Hrun.
  destruct (insertion_order_perm tbls) as (res & _ & Hget & _).
  rewrite Hget in Hrun. discriminate.
Qed.

(** When the resolver was built from a list of tables, as [main] does,
    [sample_all] raises nothing but [RuntimeError], in direct mode and in
    staging mode: every failure while a table is sampled, staged or read
    back and every failure of the foreign-key pass is wrapped in one. *)
Theorem sample_all_raises_runtime_error (tbls : list Table)
    (st : State conn) (e : exn) (st' : State conn) :
  resolver self = Dependencies.new tbls ->
  sample_all self st = (Err e, st') ->
  exists msg cause, e = RuntimeError msg cause.
Proof.
  intros Hr. revert st e st'. fold (raises_runtime_error (sample_all self)).
  unfold sample_all.
  assert (raises_runtime_error (_sample_direct self)) as Hdirect.
  { unfold _sample_direct.
    apply raises_bind; [by eapply raises_insertion_order | intros order].
    apply raises_bind; [apply raises_for_each, raises_sample_one | intros ?].
    apply raises_bind; [apply (raises_wrapped _ (fun e => _)) | intros ?].
    apply raises_bind; [apply raises_get_state | intros ?]. apply raises_ret. }
  destruct (use_staging self); [|done].
  destruct (staging_manager self) as [schema_name|]; [|done].
  unfold _sample_with_staging.
  apply raises_bind; [by eapply raises_insertion_order | intros order].
  apply raises_bind; [apply raises_for_each, raises_stage_one | intros ?].
  apply raises_bind; [apply (raises_wrapped _ (fun e => _)) | intros ?].
  apply raises_bind; [apply raises_for_each, raises_read_one | intros ?].
  apply raises_bind; [apply raises_get_state | intros ?]. apply raises_ret.
Qed.

(** In staging mode the pass that should resolve the foreign keys does
    nothing: it skips every table that has no entry in [self.results], and
    [self.results] is only filled by the pass that comes after it.  A run
    of [_sample_with_staging] is a run of its first and third pass. *)
Theorem staging_skips_fk_resolution (schema_name : string) (st : State conn) :
  results st = [] ->
  _sample_with_staging self schema_name st
  = (insertion_order <- insertion_order_of_resolver self;;
     for_each insertion_order (stage_one self schema_name);;;
     for_each insertion_order (read_one self schema_name);;;
     st <- get_state;;
     ret (results st)) st.
Proof.
  intros Hempty.
  assert (forall entries s, results s = [] ->
            for_each entries (fun entry : string * Table =>
              st <- get_state;;
              if dict_mem entry.1 (results st)
              then for_each (foreign_keys entry.2) (staging_fk self schema_name entry.2)
              else ret tt) s = (Ok tt, s)) as Hskip.
  { induction entries as [|entry entries IH]; intros s Hs; [done|].
    cbn [for_each]. unfold bind at 1. unfold bind at 1. cbn [get_state].
    rewrite Hs. cbn. by apply IH. }
  unfold _sample_with_staging. unfold bind.
  destruct (insertion_order_of_resolver self st) as [[order|e] s0] eqn:Horder; [|done].
  assert (results s0 = []) as Hs0.
  { pose proof (keeps_insertion_order self st) as Hk. rewrite Horder in Hk.
    cbn in Hk. congruence. }
  destruct (for_each order (stage_one self schema_name) s0) as [[[]|e] s1] eqn:Hstage;
    [|done].
  assert (results s1 = []) as Hs1.
  { pose proof (keeps_results_for_each order (stage_one self schema_name)
                  (keeps_stage_one self schema_name) s0) as Hk.
    rewrite Hstage in Hk. cbn in Hk. congruence. }
  unfold try_except, _resolve_foreign_keys_staging.
  by rewrite (Hskip (tables self) s1 Hs1).
Qed.

End RuntimeErrors.

Section RuntimeErrorsExample.
Import Sampling Examples.
#[local] Existing Instance insertion_order.
#[local] Existing Instance Db.stored_order.

(** Without a limit rule the first query is refused, and the run gives up
    with a [RuntimeError]. *)
Lemma sample_all_raises_runtime_error_witness :
  exists e st',
    sample_all (direct_engine shop [] []) (initial_state shop_db) = (Err e, st') /\
    exists msg cause, e = RuntimeError msg cause.
Proof.
  eexists _, _. split; [vm_compute; reflexivity|].
  eapply (sample_all_raises_runtime_error (direct_engine shop [] []) shop
            (initial_state shop_db)).
  - reflexivity.
  - vm_compute. reflexivity.
Defined.

Lemma staging_skips_fk_resolution_witness :
  _sample_with_staging (Cli.engine (options shop one_row_each [] true) true
                          (Some "_dbsample")) "_dbsample" (initial_state [])
  = (insertion_order <- insertion_order_of_resolver
                          (Cli.engine (options shop one_row_each [] true) true
                             (Some "_dbsample"));;
     for_each insertion_order
       (stage_one (Cli.engine (options shop one_row_each [] true) true
                     (Some "_dbsample")) "_dbsample");;;
     for_each insertion_order
       (read_one (Cli.engine (options shop one_row_each [] true) true
                    (Some "_dbsample")) "_dbsample");;;
     st <- get_state;;
     ret (results st)) (initial_state []).
Proof. apply staging_skips_fk_resolution. reflexivity. Defined.

End RuntimeErrorsExample.

(** ** Which tables a run in direct mode samples *)

Section SampledTables.
Import Sampling.
Context `{PySetOrder} `{Connection conn}.
Variable self : SamplingEngine.

(** [self.tables] is keyed by qualified name. *)
Hypothesis tables_wf : forall k t, dict_get k (tables self) = Some t -> k = qualified_name t.

(** The samples are those of known tables, the tables of [S] among them. *)
Definition covers (S : list string) (d : dict SamplingResult) : Prop :=
  (forall k, k ∈ S -> k ∈ dict_keys d) /\
  (forall k, k ∈ dict_keys d -> k ∈ dict_keys (tables self)).

Local Notation "'Icovers' S" := (fun st : State conn => covers S (results st))
  (at level 10, S at level 9).
Local Notation "'Any'" := (fun _ : State conn => True).

Lemma covers_mono (S S' : list string) (d : dict SamplingResult) :
  (forall k, k ∈ S' -> k ∈ S) -> covers S d -> covers S' d.
Proof. intros Hsub [Hin Hknown]. split; auto. Qed.

Lemma covers_set (S : list string) (k : string) (r : SamplingResult)
    (d : dict SamplingResult) :
  k ∈ dict_keys (tables self) -> covers S d -> covers (k :: S) (dict_set k r d).
Proof.
  intros Hk [Hin Hknown]. split.
  - intros k' Hk'. apply elem_of_dict_keys_set.
    apply elem_of_cons in Hk' as [->|?]; auto.
  - intros k' Hk'. apply elem_of_dict_keys_set in Hk' as [->|?]; auto.
Qed.

Lemma covers_keeps {A} (S : list string) (m : M conn A) :
  keeps_results m -> spec (Icovers S) m (fun _ => Icovers S) Any.
Proof.
  intros Hm. eapply spec_weaken; [apply (keeps_results_spec (covers S)), Hm | | |];
    cbn; auto.
Qed.

Lemma store_result_covers (S : list string) (k : string) (r : SamplingResult) :
  k ∈ dict_keys (tables self) ->
  spec (Icovers S) (store_result k r) (fun _ => Icovers (k :: S)) Any.
Proof. intros Hk st Hst. cbn. by apply covers_set. Qed.

Lemma keeps_sample_table (table : Table) : keeps_results (_sample_table self table).
Proof.
  unfold _sample_table. apply keeps_results_bind; [apply keeps_build_query | intros qp].
  keeps.
Qed.

Lemma sample_one_covers (S : list string) (table_name : string) :
  spec (Icovers S) (sample_one self table_name)
       (fun _ => Icovers (if decide (table_name ∈ dict_keys (tables self))
                          then table_name :: S else S))
       Any.
Proof.
  unfold sample_one. destruct (dict_get table_name (tables self)) as [table|] eqn:Htable.
  2: { apply dict_get_None in Htable. rewrite decide_False by done. by apply spec_ret. }
  assert (table_name ∈ dict_keys (tables self)) as Hknown.
  { apply dict_get_is_Some. eauto. }
  rewrite decide_True by done.
  eapply spec_try_except with (E' := Any); [|intros e; by apply spec_raise].
  eapply spec_bind; [apply covers_keeps, keeps_sample_table | intros sampled].
  eapply spec_bind; [by apply store_result_covers | intros ?].
  destruct (has_primary_key table); [|by apply spec_ret].
  apply covers_keeps. keeps. apply keeps_store_sampled.
Qed.

Lemma sample_loop_covers (order : list string) : forall S,
  spec (Icovers S) (for_each order (sample_one self))
       (fun _ => Icovers (filter (fun k => k ∈ dict_keys (tables self)) order ++ S))
       Any.
Proof.
  induction order as [|x order IH]; intros S.
  { by apply spec_ret. }
  cbn [for_each]. eapply spec_bind; [apply sample_one_covers | intros ?].
  eapply spec_weaken;
    [apply (IH (if decide (x ∈ dict_keys (tables self)) then x :: S else S))
    | done | | done].
  intros ? st. cbv beta. apply covers_mono. intros k.
  rewrite filter_cons. destruct (decide (x ∈ dict_keys (tables self))).
  - rewrite !elem_of_app, !elem_of_cons. tauto.
  - done.
Qed.

Lemma fetch_covers (S : list string) (table : Table) (cols : list string)
    (values : list row) :
  qualified_name table ∈ dict_keys (tables self) ->
  spec (Icovers S) (_fetch_missing_rows table cols values) (fun _ => Icovers S) Any.
Proof.
  intros Hknown. unfold _fetch_missing_rows.
  destruct values as [|v values]; [by apply spec_ret|].
  assert (forall r, spec (Icovers S) (store_result (qualified_name table) r)
                         (fun _ => Icovers S) Any) as Hstore.
  { intros r. eapply spec_weaken; [by apply (store_result_covers S) | done | | done].
    intros ? st. cbv beta. apply covers_mono. intros k ?. by right. }
  eapply spec_bind; [apply covers_keeps, keeps_results_execute | intros cur].
  eapply spec_bind; [apply covers_keeps, keeps_results_get_state | intros st0].
  eapply spec_bind with (Q := fun _ => Icovers S).
  { destruct (dict_mem _ _); [by apply spec_ret | apply Hstore]. }
  intros ?.
  eapply spec_bind; [apply covers_keeps; unfold result_of; keeps | intros current].
  eapply spec_bind; [apply covers_keeps; keeps | intros existing_pks].
  eapply spec_bind; [apply covers_keeps; keeps | intros new_rows].
  eapply spec_bind; [apply Hstore | intros ?].
  destruct (has_primary_key table); [|by apply spec_ret].
  apply covers_keeps. keeps. apply keeps_store_sampled.
Qed.

Lemma resolve_covers (S : list string) :
  spec (Icovers S) (_resolve_foreign_keys self) (fun _ => Icovers S) Any.
Proof using tables_wf.
  unfold _resolve_foreign_keys. apply spec_for_each. intros entry _.
  unfold resolve_table.
  eapply spec_bind; [apply covers_keeps, keeps_results_get_state | intros st].
  destruct (dict_mem _ _); [|by apply spec_ret].
  apply spec_for_each. intros fk _. unfold resolve_fk.
  destruct (dict_get (fk_ref_table fk) (tables self)) as [ref_table_obj|] eqn:Href.
  2: { by apply spec_ret. }
  destruct (negb _); [by apply spec_ret|].
  eapply spec_bind; [apply covers_keeps; unfold result_of; keeps | intros current].
  eapply spec_bind; [apply covers_keeps; keeps | intros projected].
  eapply spec_bind; [apply covers_keeps, keeps_results_get_state | intros st'].
  destruct (match dict_get _ (sampled_rows st') with Some _ => _ | None => _ end).
  - by apply spec_ret.
  - apply fetch_covers. rewrite <- (tables_wf _ _ Href).
    apply dict_get_is_Some. eauto.
Qed.

Lemma sample_direct_covers :
  spec (fun st => results st = []) (_sample_direct self)
       (fun d _ =>
          exists order,
            Dependencies.get_insertion_order (resolver self) = Some order /\
            covers (filter (fun k => k ∈ dict_keys (tables self)) order) d)
       Any.
Proof using tables_wf.
  unfold _sample_direct.
  eapply spec_bind
    with (Q := fun order st =>
                 covers [] (results st) /\
                 Dependencies.get_insertion_order (resolver self) = Some order).
  { intros st Hst. unfold insertion_order_of_resolver.
    destruct (Dependencies.get_insertion_order (resolver self)); cbn; [|done].
    split; [|done]. rewrite Hst. split; intros k Hk; by apply elem_of_nil in Hk. }
  intros order. apply spec_pure_pre. intros Horder.
  eapply spec_bind; [apply sample_loop_covers | intros ?].
  eapply spec_bind.
  { eapply spec_try_except; [apply resolve_covers | intros e; by apply spec_raise]. }
  intros ?.
  eapply spec_bind with (Q := fun a st => covers _ (results st) /\ a = st);
    [by apply spec_get_state|].
  intros st. apply spec_ret. intros st' [Hst ->]. exists order. split; [done|].
  by rewrite app_nil_r in Hst.
Qed.

End SampledTables.

Section SampledTablesTheorem.
Import Sampling.
Context `{PySetOrder} `{Connection conn}.

(** When the engine and its resolver were built from the same list of
    tables, as [main] does, a run in direct mode that starts without samples
    and succeeds returns a sample for every one of these tables and for
    nothing else. *)
Theorem direct_run_samples_every_table (self : SamplingEngine) (tbls : list Table)
    (st : State conn) (d : dict SamplingResult) (st' : State conn) :
  tables self = tables_dict tbls ->
  resolver self = Dependencies.new tbls ->
  use_staging self = false ->
  results st = [] ->
  sample_all self st = (Ok d, st') ->
  forall k, k ∈ dict_keys d <-> k ∈ dict_keys (tables_dict tbls).
Proof.
  intros Htables Hresolver Hmode Hempty Hrun.
  unfold sample_all in Hrun. rewrite Hmode in Hrun.
  assert (forall k t, dict_get k (tables self) = Some t -> k = qualified_name t) as Hwf.
  { intros k t Hget. rewrite Htables in Hget.
    apply (proj2 (tables_dict_wf tbls)). by apply dict_get_elem_of. }
  pose proof (sample_direct_covers self Hwf st Hempty) as Hspec.
  rewrite Hrun in Hspec. destruct Hspec as (order & Horder & Hin & Hknown).
  rewrite Hresolver in Horder.
  destruct (insertion_order_perm tbls) as (res & _ & Hget & Hperm).
  rewrite Hget in Horder. inversion Horder; subst order. clear Horder.
  intros k. rewrite <- Htables. split; [apply Hknown|].
  intros Hk. apply Hin. apply list_elem_of_filter. split; [done|].
  rewrite Hperm, <- Htables. done.
Qed.

End SampledTablesTheorem.

Section SampledTablesExample.
Import Sampling Examples.
#[local] Existing Instance insertion_order.
#[local] Existing Instance Db.stored_order.

Lemma direct_run_samples_every_table_witness :
  exists d st',
    sample_all (direct_engine shop one_row_each []) (initial_state shop_db) = (Ok d, st') /\
    forall k, k ∈ dict_keys d <-> k ∈ dict_keys (tables_dict shop).
Proof.
  eexists _, _. split; [vm_compute; reflexivity|].
  eapply (direct_run_samples_every_table (direct_engine shop one_row_each []) shop
            (initial_state shop_db)).
  - reflexivity.
  - reflexivity.
  - reflexivity.
  - reflexivity.
  - vm_compute. reflexivity.
Defined.

End SampledTablesExample.

(** ** Rows added by the foreign-key pass *)

Section FetchedRows.
Import Sampling.
Context `{PySetOrder} `{Connection conn}.

Lemma project_all_app_inv (idx : list nat) (a b : list row) : forall pks,
  project_all idx (a ++ b) = Ok pks ->
  exists p1 p2, project_all idx a = Ok p1 /\ project_all idx b = Ok p2 /\ pks = p1 ++ p2.
Proof.
  induction a as [|r a IH]; intros pks Hp; cbn in Hp |- *.
  { by exists [], pks. }
  destruct (project idx r) as [v|]; [|done].
  destruct (project_all idx (a ++ b)) as [vs|]; [|done].
  inversion Hp; subst pks.
  destruct (IH vs eq_refl) as (p1 & p2 & -> & Hb & ->).
  by exists (v :: p1), p2.
Qed.

Lemma store_result_eq (k : string) (r : SamplingResult) (st : State conn) :
  store_result k r st
  = (Ok tt, {| st_conn := st_conn st; st_log := st_log st;
               _schema_created := _schema_created st;
               results := dict_set k r (results st);
               sampled_rows := sampled_rows st |}).
Proof. done. Qed.

Lemma store_sampled_eq (k : string) (s : list row) (st : State conn) :
  store_sampled k s st
  = (Ok tt, {| st_conn := st_conn st; st_log := st_log st;
               _schema_created := _schema_created st;
               results := results st;
               sampled_rows := dict_set k s (sampled_rows st) |}).
Proof. done. Qed.

(** The rows [_fetch_missing_rows] keeps have keys that are new and differ
    from each other. *)
Lemma new_rows_of_distinct (table : Table) : forall rs existing out,
  has_primary_key table = true ->
  new_rows_of table existing rs = Ok out ->
  exists new_pks, project_all (pk_indices table) out = Ok new_pks /\
                  NoDup new_pks /\ forall p, p ∈ new_pks -> p ∉ existing.
Proof.
  induction rs as [|r rs IH]; intros existing out Hpk Hnew; cbn in Hnew.
  { inversion Hnew; subst. exists []. split_and!; [done | apply NoDup_nil_2 |].
    intros p Hp. by apply elem_of_nil in Hp. }
  rewrite Hpk in Hnew.
  destruct (project (pk_indices table) r) as [pk|] eqn:Hproj; [|done].
  destruct (decide (pk ∈ existing)) as [Hin|Hnin]; [by apply IH|].
  destruct (new_rows_of table (set_add pk existing) rs) as [l|] eqn:Hl; [|done].
  inversion Hnew; subst out.
  destruct (IH _ _ Hpk Hl) as (new_pks & Hp & Hnd & Hfresh).
  exists (pk :: new_pks). cbn. rewrite Hproj, Hp. split_and!; [done | |].
  - apply NoDup_cons. split; [|done]. intros Hpk'.
    apply (Hfresh pk Hpk'). apply elem_of_set_add. by left.
  - intros p Hp'. apply elem_of_cons in Hp' as [->|Hp']; [done|].
    intros Hex. apply (Hfresh p Hp'). apply elem_of_set_add. by right.
Qed.

(** The sample of [table] after a call of [_fetch_missing_rows] that
    returns: the rows it had, followed by rows with new keys. *)
Lemma fetch_run (table : Table) (cols : list string) (values : list row)
    (st : State conn) (u : unit) (st' : State conn) :
  values <> [] ->
  has_primary_key table = true ->
  _fetch_missing_rows table cols values st = (Ok u, st') ->
  exists before pks new_rows new_pks updated,
    (dict_get (qualified_name table) (results st) = None -> before = []) /\
    (forall current, dict_get (qualified_name table) (results st) = Some current ->
                     before = rows current) /\
    project_all (pk_indices table) before = Ok pks /\
    project_all (pk_indices table) new_rows = Ok new_pks /\
    NoDup new_pks /\ (forall p, p ∈ new_pks -> p ∉ pks) /\
    dict_get (qualified_name table) (results st') = Some updated /\
    rows updated = before ++ new_rows.
Proof.
  intros Hvalues Hpk Hrun. unfold _fetch_missing_rows in Hrun.
  destruct values as [|v0 vs]; [done|]. cbn zeta in Hrun.
  apply bind_ok in Hrun as (cur & s1 & Hexec & Hrun).
  assert (results s1 = results st) as Hres1.
  { pose proof (keeps_results_execute
                  (SelectIn (col_name <$> columns table) (schema table) (name table) cols
                            (length <$> set_iter (v0 :: vs)))
                  (concat (set_iter (v0 :: vs))) st) as Hk.
    rewrite Hexec in Hk. exact Hk. }
  apply bind_ok in Hrun as (s1' & s1'' & Hget & Hrun).
  inversion Hget; subst s1' s1''. clear Hget. rewrite Hres1 in Hrun.
  apply bind_ok in Hrun as ([] & s2 & Hinit & Hrun).
  apply bind_ok in Hrun as (current & s2' & Hcur & Hrun).
  apply bind_ok in Hcur as (s2'' & s2''' & Hget & Hcur).
  inversion Hget; subst s2'' s2'''. clear Hget.
  destruct (dict_get (qualified_name table) (results s2)) as [current'|] eqn:Hcurrent;
    [|done].
  inversion Hcur; subst current' s2'. clear Hcur.
  assert ((dict_get (qualified_name table) (results st) = None -> rows current = []) /\
          (forall c, dict_get (qualified_name table) (results st) = Some c ->
                     rows current = rows c)) as [Hnone Hsome].
  { destruct (dict_mem (qualified_name table) (results st)) eqn:Hmem.
    - inversion Hinit; subst s2. rewrite Hres1 in Hcurrent. split; [congruence|].
      intros c Hc. congruence.
    - rewrite store_result_eq in Hinit. inversion Hinit; subst s2.
      cbn [results] in Hcurrent. rewrite dict_get_set, decide_True in Hcurrent by done.
      inversion Hcurrent; subst current. split; [done|].
      intros c Hc. apply not_true_iff_false in Hmem. exfalso. apply Hmem.
      apply dict_mem_true, dict_get_is_Some. eauto. }
  rewrite Hpk in Hrun.
  apply bind_ok in Hrun as (existing_pks & s3 & Hexisting & Hrun).
  apply bind_ok in Hexisting as (pks & s3' & Hpks & Hret).
  unfold lift in Hpks.
  destruct (project_all (pk_indices table) (rows current)) as [pks'|] eqn:Hproj; [|done].
  inversion Hpks; subst pks' s3'. inversion Hret; subst existing_pks s3. clear Hpks Hret.
  apply bind_ok in Hrun as (new_rows & s3 & Hnew & Hrun).
  unfold lift in Hnew.
  destruct (new_rows_of table (set_of_list pks) (fetched cur)) as [new_rows'|] eqn:Hnewrows;
    [|done].
  inversion Hnew; subst new_rows' s3. clear Hnew.
  destruct (new_rows_of_distinct _ _ _ _ Hpk Hnewrows) as (new_pks & Hnp & Hnd & Hfresh).
  apply bind_ok in Hrun as ([] & s4 & Hstore & Hrun).
  rewrite store_result_eq in Hstore. inversion Hstore; subst s4. clear Hstore.
  apply bind_ok in Hrun as (s5 & s5' & Hget & Hrun).
  inversion Hget; subst s5 s5'. clear Hget.
  apply bind_ok in Hrun as (new_pks' & s6 & Hpks' & Hrun).
  unfold lift in Hpks'. rewrite Hnp in Hpks'. inversion Hpks'; subst new_pks' s6.
  rewrite store_sampled_eq in Hrun. inversion Hrun; subst st'. clear Hrun.
  cbn [results].
  eexists (rows current), pks, new_rows, new_pks, _.
  split_and!; [done | | done | done | done | | |].
  - intros c Hc. by apply Hsome.
  - intros p Hp Hp'. apply (Hfresh p Hp). by apply elem_of_set_of_list.
  - rewrite dict_get_set. by rewrite decide_True.
  - done.
Qed.

(** [_fetch_missing_rows] only appends to the sample of its table, and the
    rows it appends bring new primary keys: when the keys of the sample
    were distinct before the call, they are distinct after it. *)
Theorem fetch_appends_new_keys (table : Table) (cols : list string)
    (values : list row) (st : State conn) (u : unit) (st' : State conn) :
  has_primary_key table = true ->
  _fetch_missing_rows table cols values st = (Ok u, st') ->
  (forall current pks,
     dict_get (qualified_name table) (results st) = Some current ->
     project_all (pk_indices table) (rows current) = Ok pks -> NoDup pks) ->
  (forall current,
     dict_get (qualified_name table) (results st) = Some current ->
     exists updated,
       dict_get (qualified_name table) (results st') = Some updated /\
       rows current `prefix_of` rows updated) /\
  (forall updated pks,
     dict_get (qualified_name table) (results st') = Some updated ->
     project_all (pk_indices table) (rows updated) = Ok pks -> NoDup pks).
Proof.
  intros Hpk Hrun Hdistinct.
  destruct values as [|v0 vs] eqn:Hvalues.
  { cbn in Hrun. inversion Hrun; subst st'. split; [|done].
    intros current Hc. exists current. split; [done|].
    exists []. by rewrite app_nil_r. }
  rewrite <- Hvalues in Hrun.
  destruct (fetch_run table cols values st u st')
    as (before & pks & new_rows & new_pks & updated &
        Hnone & Hsome & Hp & Hnp & Hnd & Hfresh & Hupd & Hrows);
    [by rewrite Hvalues | done | done |].
  split.
  - intros current Hc. exists updated. split; [done|].
    exists new_rows. by rewrite Hrows, (Hsome _ Hc).
  - intros updated' pks' Hupd' Hp'. rewrite Hupd in Hupd'. inversion Hupd'; subst updated'.
    rewrite Hrows in Hp'. apply project_all_app_inv in Hp' as (p1 & p2 & Hp1 & Hp2 & ->).
    rewrite Hp in Hp1. inversion Hp1; subst p1.
    rewrite Hnp in Hp2. inversion Hp2; subst p2.
    apply NoDup_app. split_and!; [| | done].
    + destruct (dict_get (qualified_name table) (results st)) as [current|] eqn:Hc.
      * apply (Hdistinct current pks eq_refl). by rewrite <- (Hsome _ eq_refl).
      * rewrite (Hnone eq_refl) in Hp. cbn in Hp. inversion Hp. apply NoDup_nil_2.
    + intros p Hp1' Hp2'. by apply (Hfresh p Hp2').
Qed.

End FetchedRows.

Section FetchedRowsExample.
Import Sampling Examples.
#[local] Existing Instance insertion_order.
#[local] Existing Instance Db.stored_order.

(** The order (2, 2) is fetched into the sample of [b_orders], which holds
    the order (1, 1). *)
Lemma fetch_appends_new_keys_witness :
  exists st2,
    _fetch_missing_rows orders ["id"] [[PInt 2]]
      (for_each ["public.a_users"; "public.b_orders"; "public.c_items"]
                (sample_one (direct_engine shop one_row_each []))
                (initial_state shop_db)).2 = (Ok tt, st2) /\
    forall updated pks,
      dict_get (qualified_name orders) (results st2) = Some updated ->
      project_all (pk_indices orders) (rows updated) = Ok pks -> NoDup pks.
Proof.
  eexists. split; [vm_compute; reflexivity|].
  refine (proj2 (fetch_appends_new_keys orders ["id"] [[PInt 2]]
                   (for_each ["public.a_users"; "public.b_orders"; "public.c_items"]
                             (sample_one (direct_engine shop one_row_each []))
                             (initial_state shop_db)).2 tt _ _ _ _)).
  - reflexivity.
  - vm_compute. reflexivity.
  - intros current pks Hc Hp. vm_compute in Hc. inversion Hc; subst current.
    vm_compute in Hp. inversion Hp; subst pks. apply NoDup_singleton.
Defined.

End FetchedRowsExample.

(** ** The violations [verify_referential_integrity] reports *)

Section VerifyReports.
Import Sampling.
Context `{PySetOrder}.
Variable self : SamplingEngine.





End VerifyReports.

Section VerifyReportsExample.
Import Sampling Examples.
#[local] Existing Instance insertion_order.
#[local] Existing Instance Db.stored_order.


End VerifyReportsExample.

(** ** Placeholders in the text of the sampling query *)

Section QueryText.
Import Sampling.

Definition percent_free (s : string) : Prop :=
  "%"%char ∉ list_ascii_of_string s.

#[global] Instance percent_free_dec (s : string) : Decision (percent_free s).
Proof. unfold percent_free. apply _. Defined.

Lemma percent_free_app (a b : string) :
  percent_free (a +:+ b) <-> percent_free a /\ percent_free b.
Proof.
  unfold percent_free. rewrite list_ascii_of_string_app, elem_of_app. tauto.
Qed.

Lemma percent_free_concat (sep : string) (l : list string) :
  percent_free sep -> Forall percent_free l -> percent_free (String.concat sep l).
Proof.
  intros Hsep. induction 1 as [|x l Hx Hl IH]; [by apply not_elem_of_nil|].
  destruct l as [|y l]; [done|].
  change (String.concat sep (x :: y :: l))
    with (x +:+ sep +:+ String.concat sep (y :: l)).
  rewrite !percent_free_app. done.
Qed.

Lemma percent_free_quoted (s : string) : percent_free s -> percent_free (quoted s).
Proof.
  intros Hs. unfold quoted. rewrite !percent_free_app. split_and!; [|done|].
  all: apply (bool_decide_unpack _); reflexivity.
Qed.

Lemma count_placeholders_chars_app (a b : list ascii) :
  "%"%char ∉ a ->
  count_placeholders_chars (a ++ b) = count_placeholders_chars b.
Proof.
  induction a as [|c a IH]; intros Ha; [done|].
  cbn [app count_placeholders_chars].
  destruct (Ascii.eqb_spec c "%"%char) as [->|_].
  - exfalso. apply Ha. left.
  - apply IH. intros ?. apply Ha. by right.
Qed.

Lemma count_placeholders_app (a b : string) :
  percent_free a -> count_placeholders (a +:+ b) = count_placeholders b.
Proof.
  intros Ha. unfold count_placeholders.
  rewrite list_ascii_of_string_app. by apply count_placeholders_chars_app.
Qed.

Lemma percent_free_order (o : order_clause) :
  (forall cols desc, o = OrderByColumns cols desc -> Forall percent_free cols) ->
  percent_free (render_order o).
Proof.
  intros Hcols. destruct o as [|cols desc|desc|]; cbn.
  - by apply not_elem_of_nil.
  - rewrite !percent_free_app. split_and!.
    + apply (bool_decide_unpack _); reflexivity.
    + apply percent_free_concat; [apply (bool_decide_unpack _); reflexivity|].
      apply Forall_fmap. eapply Forall_impl; [by eapply Hcols|].
      intros c Hc. by apply percent_free_quoted.
    + apply (bool_decide_unpack _); reflexivity.
    + destruct desc; apply (bool_decide_unpack _); reflexivity.
  - rewrite percent_free_app. split; [|destruct desc];
      apply (bool_decide_unpack _); reflexivity.
  - apply (bool_decide_unpack _); reflexivity.
Qed.

(** The text before the LIMIT clause holds no placeholder when the
    identifiers and the condition hold no percent sign. *)
Lemma render_select_placeholders (q : select_query) :
  percent_free (q_schema q) -> percent_free (q_table q) ->
  (forall c, EColumn c ∈ q_exprs q -> percent_free c) ->
  (forall cond, q_where q = Some cond -> percent_free cond) ->
  (forall cols desc, q_order q = OrderByColumns cols desc -> Forall percent_free cols) ->
  count_placeholders (render_select q) = count_placeholders (render_limit (q_limit q)).
Proof.
  intros Hschema Htable Hexprs Hwhere Horder. unfold render_select.
  set (limit_text := render_limit (q_limit q)).
  assert (forall a b c : string, a +:+ b +:+ c = (a +:+ b) +:+ c) as Hassoc.
  { intros a b c. induction a as [|x a IH]; [done|].
    change (String x a +:+ b +:+ c) with (String x (a +:+ b +:+ c)).
    change ((String x a +:+ b) +:+ c) with (String x ((a +:+ b) +:+ c)).
    by rewrite IH. }
  rewrite !Hassoc. apply count_placeholders_app.
  rewrite !percent_free_app. split_and!.
  - apply (bool_decide_unpack _); reflexivity.
  - apply percent_free_concat; [apply (bool_decide_unpack _); reflexivity|].
    apply Forall_fmap, Forall_forall. intros [|c] He; cbn.
    + apply (bool_decide_unpack _); reflexivity.
    + by apply percent_free_quoted, Hexprs.
  - apply (bool_decide_unpack _); reflexivity.
  - by apply percent_free_quoted.
  - apply (bool_decide_unpack _); reflexivity.
  - by apply percent_free_quoted.
  - destruct (q_where q) as [cond|]; [|by apply not_elem_of_nil].
    rewrite percent_free_app. split; [apply (bool_decide_unpack _); reflexivity|].
    by apply Hwhere.
  - by apply percent_free_order.
Qed.

End QueryText.

Section BuiltQueryText.
Import Sampling.
Context `{PySetOrder} `{Connection conn}.
Variable self : SamplingEngine.

Lemma build_query_shape (table : Table) (limit_rule : option LimitRule)
    (st st' : State conn) (q : select_query) (params : list pyval) :
  _build_query self table limit_rule st = (Ok (q, params), st') ->
  exists l, q = mk_query self table limit_rule l /\
    ((l = LimitPlaceholder /\ length params = 1%nat /\ limit_rule <> None) \/
     (l = NoLimit /\ length params = 0%nat /\ limit_rule <> None) \/
     (l = LimitLiteral 100 /\ length params = 1%nat /\ limit_rule = None)).
Proof.
  unfold _build_query. destruct limit_rule as [rule|].
  2: { intros [= <- <- <-]. eexists. split; [done|]. right; right. done. }
  destruct (limit rule) as [n|p| |v].
  - intros [= <- <- <-]. eexists. split; [done|]. left. done.
  - unfold bind, lift, ret.
    destruct (execute _ _ st) as [[cur|e] st1]; [|done].
    destruct (fetchone_0 cur) as [total|e]; [|done].
    destruct (as_int total) as [total'|e]; [|done].
    destruct (percentage_limit total' p) as [lim|e]; [|done].
    intros [= <- <- <-]. eexists. split; [done|]. left. done.
  - intros [= <- <- <-]. eexists. split; [done|]. right; left. done.
  - intros [= <- <- <-]. eexists. split; [done|]. right; left. done.
Qed.

(** The query text [_build_query] returns holds one placeholder for a
    NUMERIC or PERCENTAGE rule and none otherwise, as long as the names of
    the schema, the table and its columns and the condition of the rule hold
    no percent sign.  Text and parameters then agree in number exactly when
    a limit rule was given. *)
Theorem built_query_text_matches_params (table : Table)
    (limit_rule : option LimitRule) (st st' : State conn)
    (q : select_query) (params : list pyval) :
  percent_free (schema table) -> percent_free (name table) ->
  Forall (fun col => percent_free (col_name col)) (columns table) ->
  Forall percent_free (default [] (primary_key table)) ->
  (forall cond, where_clause limit_rule = Some cond -> percent_free cond) ->
  _build_query self table limit_rule st = (Ok (q, params), st') ->
  count_placeholders (render_select q) = placeholders (Select q) /\
  (count_placeholders (render_select q) = length params <-> limit_rule <> None).
Proof.
  intros Hschema Hname Hcols Hpk Hcond Hrun.
  destruct (build_query_shape _ _ _ _ _ _ Hrun) as (l & -> & Hl).
  assert (count_placeholders (render_select (mk_query self table limit_rule l))
          = count_placeholders (render_limit l)) as Htext.
  { apply (render_select_placeholders (mk_query self table limit_rule l));
      cbn [mk_query q_schema q_table q_exprs q_where q_order]; [done | done | | done |].
    - intros c Hc. unfold column_exprs in Hc.
      assert (EColumn c ∈ (fun col => if decide (col_name col ∈ _get_excluded_columns self table)
                                     then ENull else EColumn (col_name col)) <$> columns table)
        as Hin.
      { destruct (_ <$> columns table) eqn:E; [|done].
        apply list_elem_of_singleton in Hc. done. }
      apply list_elem_of_fmap in Hin as (col & Heq & Hcol).
      destruct (decide _); [done|]. inversion Heq; subst c.
      by apply (proj1 (Forall_forall _ _) Hcols).
    - intros cols desc Horder. unfold order_by in Horder.
      destruct (ordered self); [|by destruct (random self)].
      destruct (has_primary_key table); [|done]. by inversion Horder; subst. }
  rewrite Htext. cbn [placeholders q_limit mk_query].
  destruct Hl as [(-> & Hlen & Hrule)|[(-> & Hlen & Hrule)|(-> & Hlen & Hrule)]];
    rewrite Hlen; (split; [reflexivity|]); split; done.
Qed.

End BuiltQueryText.

Section BuiltQueryTextExample.
Import Sampling Examples.
#[local] Existing Instance insertion_order.
#[local] Existing Instance Db.stored_order.

Lemma built_query_text_matches_params_witness :
  count_placeholders
    (render_select (mk_query (direct_engine shop one_row_each []) orders
                             (Some (mk_rule "*" (NUMERIC 1))) LimitPlaceholder))
  = length [PInt 1].
Proof.
  refine (proj2 (proj2 (built_query_text_matches_params
            (direct_engine shop one_row_each []) orders
            (Some (mk_rule "*" (NUMERIC 1)))
            (initial_state shop_db) (initial_state shop_db) _ [PInt 1]
            _ _ _ _ _ _)) _).
  - apply (bool_decide_unpack _); reflexivity.
  - apply (bool_decide_unpack _); reflexivity.
  - apply (bool_decide_unpack _); reflexivity.
  - apply (bool_decide_unpack _); reflexivity.
  - intros cond Hcond. discriminate Hcond.
  - reflexivity.
  - discriminate.
Defined.

End BuiltQueryTextExample.

(** ** The rules [parse_limit_rules] builds *)

Section SplitStrip.
Import Sampling.

Lemma split_chars_nonempty (sep : ascii) (s : list ascii) : split_chars sep s <> [].
Proof.
  destruct s as [|c s]; cbn; [done|].
  destruct (Ascii.eqb c sep); [done|]. by destruct (split_chars sep s).
Qed.

Lemma split_chars_no_sep (sep : ascii) (s : list ascii) :
  Forall (fun w => sep ∉ w) (split_chars sep s).
Proof.
  induction s as [|c s IH]; cbn.
  { apply Forall_singleton, not_elem_of_nil. }
  destruct (Ascii.eqb_spec c sep) as [->|Hc].
  { apply Forall_cons. split; [apply not_elem_of_nil | done]. }
  destruct (split_chars sep s) as [|w ws].
  { apply Forall_singleton. intros Hin. apply list_elem_of_singleton in Hin. done. }
  apply Forall_cons in IH as [Hw Hws]. apply Forall_cons. split; [|done].
  intros [?|?]%elem_of_cons; [done | by apply Hw].
Qed.

Lemma split_chars_app (sep : ascii) (a b : list ascii) :
  split_chars sep (a ++ sep :: b) = split_chars sep a ++ split_chars sep b.
Proof.
  induction a as [|c a IH]; cbn.
  { by rewrite Ascii.eqb_refl. }
  destruct (Ascii.eqb c sep); [by rewrite IH|].
  rewrite IH. pose proof (split_chars_nonempty sep a).
  by destruct (split_chars sep a).
Qed.

Lemma split_once_chars_spec (sep : ascii) (s a b : list ascii) :
  split_once_chars sep s = Some (a, b) -> s = a ++ sep :: b /\ sep ∉ a.
Proof.
  revert a. induction s as [|c s IH]; intros a; cbn; [done|].
  destruct (Ascii.eqb_spec c sep) as [->|Hc].
  { intros [= <- <-]. split; [done | apply not_elem_of_nil]. }
  destruct (split_once_chars sep s) as [[a' b']|]; [|done].
  intros [= <- <-]. destruct (IH a' eq_refl) as [-> Ha']. split; [done|].
  intros [?|?]%elem_of_cons; [done | by apply Ha'].
Qed.

Lemma lstrip_chars_suffix (s : list ascii) : lstrip_chars s `suffix_of` s.
Proof.
  induction s as [|c s IH]; cbn; [done|].
  destruct (is_space c); [by apply suffix_cons_r | done].
Qed.

Lemma head_lstrip_chars (s : list ascii) (c : ascii) :
  head (lstrip_chars s) = Some c -> is_space c = false.
Proof.
  induction s as [|c' s IH]; cbn; [done|].
  destruct (is_space c') eqn:E; [done|]. cbn. by intros [= <-].
Qed.

Lemma lstrip_chars_fixed (s : list ascii) :
  (forall c, head s = Some c -> is_space c = false) -> lstrip_chars s = s.
Proof.
  destruct s as [|c s]; cbn; [done|]. intros Hc. by rewrite (Hc c eq_refl).
Qed.

Lemma elem_of_strip_chars (s : list ascii) (c : ascii) : c ∈ strip_chars s -> c ∈ s.
Proof.
  unfold strip_chars. rewrite elem_of_reverse. intros Hc.
  pose proof (lstrip_chars_suffix (reverse (lstrip_chars s))) as [k1 Hk1].
  pose proof (lstrip_chars_suffix s) as [k2 Hk2].
  assert (c ∈ reverse (lstrip_chars s)) as Hc'.
  { rewrite Hk1. apply elem_of_app. right. exact Hc. }
  apply (proj1 (elem_of_reverse _ _)) in Hc'. rewrite Hk2. apply elem_of_app. right. exact Hc'.
Qed.

(** No white space at either end. *)
Definition trimmed (s : list ascii) : Prop :=
  forall c, head s = Some c \/ last s = Some c -> is_space c = false.

Lemma strip_chars_trimmed (s : list ascii) : trimmed (strip_chars s).
Proof.
  unfold trimmed, strip_chars. intros c. rewrite head_reverse, last_reverse.
  intros [Hlast|Hhead]; [|by apply head_lstrip_chars in Hhead].
  pose proof (lstrip_chars_suffix (reverse (lstrip_chars s))) as [k Hk].
  destruct (lstrip_chars (reverse (lstrip_chars s))) as [|x u] eqn:Hu; [done|].
  assert (last (reverse (lstrip_chars s)) = Some c) as Hc.
  { rewrite Hk, last_app, Hlast. done. }
  rewrite last_reverse in Hc. by apply head_lstrip_chars in Hc.
Qed.

End SplitStrip.

Section ParsedRules.
Import Sampling.
Context `{PyNumbers}.

(** Text on which [is_space] and [upper] are the methods of [str]. *)
Definition ascii_text (s : string) : Prop :=
  Forall (fun c => (nat_of_ascii c < 128)%nat) (list_ascii_of_string s).

#[global] Instance ascii_text_dec (s : string) : Decision (ascii_text s).
Proof. unfold ascii_text. apply _. Defined.

Definition rule_shape (rule : LimitRule) : Prop :=
  compiled_pattern rule = compile (pattern rule) /\
  (","%char ∉ list_ascii_of_string (pattern rule)) /\
  ("="%char ∉ list_ascii_of_string (pattern rule)) /\
  trimmed (list_ascii_of_string (pattern rule)) /\
  forall cond, limit rule = CONDITIONAL cond ->
    (","%char ∉ list_ascii_of_string cond) /\
    trimmed (list_ascii_of_string cond) /\
    cond <> "*" /\
    last (list_ascii_of_string cond) <> Some "%"%char.

Lemma limit_of_value_conditional (value : list ascii) (cond : string) :
  limit_of_value value = Some (CONDITIONAL cond) ->
  cond = string_of_list_ascii value /\ value <> ["*"%char] /\
  last value <> Some "%"%char.
Proof.
  unfold limit_of_value.
  destruct (decide (value = ["*"%char])) as [|Hstar]; [done|].
  destruct (decide (last value = Some "%"%char)) as [|Hpercent].
  { by destruct (float_of_str _). }
  destruct (_ || _).
  - by intros [= <-].
  - destruct (int_of_str _); [done|]. by intros [= <-].
Qed.

Lemma parse_rule_shape (rule_str : list ascii) (rule : LimitRule) :
  ","%char ∉ rule_str -> parse_rule rule_str = Some (Some rule) -> rule_shape rule.
Proof.
  intros Hcomma. unfold parse_rule.
  destruct (split_once_chars _ _) as [[pat value]|] eqn:Hsplit; [|done].
  destruct (limit_of_value (strip_chars value)) as [l|] eqn:Hlimit; [|done].
  intros [= <-]. apply split_once_chars_spec in Hsplit as [Hstr Hpat].
  assert (forall c, c ∈ pat \/ c ∈ value -> c ∈ rule_str) as Hsub.
  { intros c Hc. apply (elem_of_strip_chars rule_str). rewrite Hstr.
    apply elem_of_app. destruct Hc as [?|?]; [by left|]. right. by right. }
  unfold rule_shape. cbn [mk_rule pattern limit compiled_pattern].
  rewrite list_ascii_of_string_of_list_ascii. split_and!.
  - done.
  - intros Hc%elem_of_strip_chars. apply Hcomma, Hsub. by left.
  - intros Hc%elem_of_strip_chars. done.
  - apply strip_chars_trimmed.
  - intros cond ->. apply limit_of_value_conditional in Hlimit as (-> & Hstar & Hpercent).
    rewrite list_ascii_of_string_of_list_ascii. split_and!.
    + intros Hc%elem_of_strip_chars. apply Hcomma, Hsub. by right.
    + apply strip_chars_trimmed.
    + intros Heq. apply Hstar.
      apply (f_equal list_ascii_of_string) in Heq.
      by rewrite list_ascii_of_string_of_list_ascii in Heq.
    + done.
Qed.

Lemma parse_rules_shape (rule_strs : list (list ascii)) :
  forall acc out,
    Forall (fun w => ","%char ∉ w) rule_strs -> Forall rule_shape acc ->
    parse_rules rule_strs acc = Some out -> Forall rule_shape out.
Proof.
  induction rule_strs as [|rule_str rest IH]; intros acc out Hstrs Hacc; cbn.
  { by intros [= <-]. }
  apply Forall_cons in Hstrs as [Hstr Hrest].
  destruct (parse_rule rule_str) as [[rule|]|] eqn:Hrule; [| |done].
  - apply IH; [done|]. apply Forall_app. split; [done|].
    apply Forall_singleton. by eapply parse_rule_shape.
  - by apply IH.
Qed.

Lemma parse_specs_shape (limit_specs : list string) :
  forall acc out,
    Forall rule_shape acc -> parse_specs limit_specs acc = Some out ->
    Forall rule_shape out.
Proof.
  induction limit_specs as [|spec rest IH]; intros acc out Hacc; cbn.
  { by intros [= <-]. }
  destruct (parse_rules _ acc) as [rules'|] eqn:Hrules; [|done].
  apply IH. eapply parse_rules_shape; [apply split_chars_no_sep | done | done].
Qed.

(** A comma always ends a rule.  When [parse_limit_rules] returns, no
    pattern of its rules holds a comma or an equals sign, no pattern and no
    CONDITIONAL value starts or ends with white space, and a CONDITIONAL
    value holds no comma, is not [*] and does not end with a percent sign;
    the matcher of each rule is the one compiled from its pattern. *)
Theorem parsed_rules_shape (limit_specs : list string) (rules : list LimitRule)
    (rule : LimitRule) :
  Forall ascii_text limit_specs ->
  parse_limit_rules limit_specs = Some rules ->
  rule ∈ rules ->
  compiled_pattern rule = compile (pattern rule) /\
  (","%char ∉ list_ascii_of_string (pattern rule)) /\
  ("="%char ∉ list_ascii_of_string (pattern rule)) /\
  trimmed (list_ascii_of_string (pattern rule)) /\
  forall cond, limit rule = CONDITIONAL cond ->
    (","%char ∉ list_ascii_of_string cond) /\
    trimmed (list_ascii_of_string cond) /\
    cond <> "*" /\
    last (list_ascii_of_string cond) <> Some "%"%char.
Proof.
  intros _ Hrun Hin.
  pose proof (parse_specs_shape limit_specs [] rules (Forall_nil_2 _) Hrun) as Hall.
  exact (proj1 (Forall_forall _ _) Hall rule Hin).
Qed.

Lemma parse_rules_app (l1 l2 : list (list ascii)) : forall acc,
  parse_rules (l1 ++ l2) acc
  = match parse_rules l1 acc with
    | Some rules => parse_rules l2 rules
    | None => None
    end.
Proof.
  induction l1 as [|rule_str l1 IH]; intros acc; cbn; [done|].
  destruct (parse_rule rule_str) as [[rule|]|]; [apply IH | apply IH | done].
Qed.

Lemma parse_specs_comma (a b : string) (rest : list string) (acc : list LimitRule) :
  parse_specs ((a +:+ "," +:+ b) :: rest) acc = parse_specs (a :: b :: rest) acc.
Proof.
  cbn [parse_specs]. rewrite !list_ascii_of_string_app.
  change (list_ascii_of_string ",") with [","%char]. cbn [app].
  rewrite split_chars_app, parse_rules_app.
  by destruct (parse_rules _ acc).
Qed.

(** Two rule texts joined by a comma in one argument are read as the two
    texts given one after the other: the same rules, or the same
    [ValueError]. *)
Theorem comma_joined_specs (before after : list string) (a b : string) :
  Forall ascii_text (before ++ a :: b :: after) ->
  parse_limit_rules (before ++ (a +:+ "," +:+ b) :: after)
  = parse_limit_rules (before ++ a :: b :: after).
Proof.
  intros _. unfold parse_limit_rules. generalize (@nil LimitRule).
  induction before as [|spec before IH]; intros acc.
  - apply parse_specs_comma.
  - cbn [app parse_specs]. by destruct (parse_rules _ acc).
Qed.

End ParsedRules.

Section ParsedRulesExample.
Import Sampling Examples.
#[local] Existing Instance decimal_numbers.

(** The condition of the last rule is cut at its comma. *)
Lemma parsed_rules_shape_witness :
  compiled_pattern (mk_rule "a" (CONDITIONAL "id IN (1")) = compile "a" /\
  (","%char ∉ list_ascii_of_string "a") /\
  ("="%char ∉ list_ascii_of_string "a") /\
  trimmed (list_ascii_of_string "a") /\
  forall cond, CONDITIONAL "id IN (1" = CONDITIONAL cond ->
    (","%char ∉ list_ascii_of_string cond) /\
    trimmed (list_ascii_of_string cond) /\
    cond <> "*" /\
    last (list_ascii_of_string cond) <> Some "%"%char.
Proof.
  apply (parsed_rules_shape
           ["users=1000, orders = 10% ,public.*=*"; "a=id IN (1,2)"]
           [mk_rule "users" (NUMERIC 1000); mk_rule "orders" (PERCENTAGE 10%float);
            mk_rule "public.*" FULL; mk_rule "a" (CONDITIONAL "id IN (1")]
           (mk_rule "a" (CONDITIONAL "id IN (1"))).
  - apply (bool_decide_unpack _). vm_compute. reflexivity.
  - reflexivity.
  - do 3 right. left.
Defined.

Lemma comma_joined_specs_witness :
  parse_limit_rules ["users=1000" +:+ "," +:+ "orders=10%"; "public.*=*"]
  = parse_limit_rules ["users=1000"; "orders=10%"; "public.*=*"].
Proof.
  apply (comma_joined_specs [] ["public.*=*"] "users=1000" "orders=10%").
  apply (bool_decide_unpack _). vm_compute. reflexivity.
Defined.

End ParsedRulesExample.
